(** * Voice chat pipeline: a shallow embedding of the ordering-preserving core

    The development follows the three TypeScript files that carry the
    spoken-dialogue loop:

    - [features/voice-chat/utils.ts]            (module [Utils], with the
      host functions [atob]/[btoa] in module [Base64]);
    - [hono/src/durable-object/VoiceAi.ts]      (module [VoiceAi]);
    - [features/voice-chat/hooks/useVoiceChat.ts] (module [VoiceChat]).

    Conventions.  A JavaScript string is a [string]: a sequence of 8-bit code
    units.  This is exact for the "binary strings" that [atob] produces and
    [btoa] consumes; for base64 text and chat text it restricts the model to
    the Latin-1 range (a code unit above 255 is rejected by [atob] exactly
    like any other character outside the base64 alphabet, so nothing the
    classifier distinguishes is lost). *)

From Stdlib Require Import ZArith QArith Qround Qabs Lia Lqa List String Ascii Bool Arith Sorted.
From stdpp Require Import base option list.
Import ListNotations.

Close Scope Q_scope.
Local Open Scope string_scope.
Local Open Scope list_scope.
Local Open Scope nat_scope.

(* ===================================================================== *)
(** * Part I: definitions                                                  *)
(* ===================================================================== *)

(** ** Base64: the host's [btoa] and [atob]

    Neither function is part of the repository; both are specified by the
    HTML standard ("forgiving-base64 encode / decode").  A sextet is kept as
    its six bits, most significant first, so that regrouping bytes into
    sextets is plain pattern matching on [Ascii] (whose bits are listed least
    significant first). *)
Module Base64.

Record sextet := Sextet { x5 : bool; x4 : bool; x3 : bool; x2 : bool; x1 : bool; x0 : bool }.

Definition bit (b : bool) (w : nat) : nat := if b then w else 0.

Definition sextet_value (s : sextet) : nat :=
  bit (x5 s) 32 + bit (x4 s) 16 + bit (x3 s) 8 + bit (x2 s) 4 + bit (x1 s) 2 + bit (x0 s) 1.

Definition sextet_of_nat (n : nat) : sextet :=
  Sextet (Nat.testbit n 5) (Nat.testbit n 4) (Nat.testbit n 3)
         (Nat.testbit n 2) (Nat.testbit n 1) (Nat.testbit n 0).

Definition alphabet : string :=
  "ABCDEFGHIJKLMNOPQRSTUVWXYZabcdefghijklmnopqrstuvwxyz0123456789+/".

Definition pad : ascii := "="%char.

Definition encode_char (s : sextet) : ascii :=
  match String.get (sextet_value s) alphabet with
  | Some c => c
  | None => pad
  end.

Definition decode_char (c : ascii) : option sextet :=
  let n := nat_of_ascii c in
  if (65 <=? n) && (n <=? 90) then Some (sextet_of_nat (n - 65))
  else if (97 <=? n) && (n <=? 122) then Some (sextet_of_nat (n - 97 + 26))
  else if (48 <=? n) && (n <=? 57) then Some (sextet_of_nat (n - 48 + 52))
  else if n =? 43 then Some (sextet_of_nat 62)
  else if n =? 47 then Some (sextet_of_nat 63)
  else None.

(** Three bytes are four sextets. *)
Definition split3 (a b c : ascii) : sextet * sextet * sextet * sextet :=
  let '(Ascii a0 a1 a2 a3 a4 a5 a6 a7) := a in
  let '(Ascii b0 b1 b2 b3 b4 b5 b6 b7) := b in
  let '(Ascii c0 c1 c2 c3 c4 c5 c6 c7) := c in
  (Sextet a7 a6 a5 a4 a3 a2, Sextet a1 a0 b7 b6 b5 b4,
   Sextet b3 b2 b1 b0 c7 c6, Sextet c5 c4 c3 c2 c1 c0).

Definition join1 (p q : sextet) : ascii :=
  Ascii (x4 q) (x5 q) (x0 p) (x1 p) (x2 p) (x3 p) (x4 p) (x5 p).
Definition join2 (q r : sextet) : ascii :=
  Ascii (x2 r) (x3 r) (x4 r) (x5 r) (x0 q) (x1 q) (x2 q) (x3 q).
Definition join3 (r t : sextet) : ascii :=
  Ascii (x0 t) (x1 t) (x2 t) (x3 t) (x4 t) (x5 t) (x0 r) (x1 r).

(** [btoa]: every three bytes give four characters; one or two trailing
    bytes are zero-extended and padded with [=]. *)
Fixpoint btoa (s : string) : string :=
  match s with
  | EmptyString => EmptyString
  | String a EmptyString =>
      let '(p, q, _, _) := split3 a zero zero in
      String (encode_char p) (String (encode_char q) (String pad (String pad EmptyString)))
  | String a (String b EmptyString) =>
      let '(p, q, r, _) := split3 a b zero in
      String (encode_char p) (String (encode_char q) (String (encode_char r) (String pad EmptyString)))
  | String a (String b (String c rest)) =>
      let '(p, q, r, t) := split3 a b c in
      String (encode_char p) (String (encode_char q)
        (String (encode_char r) (String (encode_char t) (btoa rest))))
  end.

(** ASCII whitespace: TAB, LF, FF, CR, SPACE. *)
Definition is_ascii_whitespace (c : ascii) : bool :=
  let n := nat_of_ascii c in
  (n =? 9) || (n =? 10) || (n =? 12) || (n =? 13) || (n =? 32).

Fixpoint remove_whitespace (s : string) : string :=
  match s with
  | EmptyString => EmptyString
  | String c r =>
      if is_ascii_whitespace c then remove_whitespace r
      else String c (remove_whitespace r)
  end.

(** Drop one trailing [=], if there is one. *)
Fixpoint drop_last_pad (s : string) : string :=
  match s with
  | EmptyString => EmptyString
  | String c EmptyString => if Ascii.eqb c pad then EmptyString else s
  | String c r => String c (drop_last_pad r)
  end.

Definition strip_padding (s : string) : string :=
  let s1 := drop_last_pad s in
  if String.length s1 =? String.length s then s else drop_last_pad s1.

Fixpoint decode_chars (s : string) : option (list sextet) :=
  match s with
  | EmptyString => Some []
  | String c r =>
      match decode_char c, decode_chars r with
      | Some x, Some xs => Some (x :: xs)
      | _, _ => None
      end
  end.

Fixpoint decode_groups (l : list sextet) : string :=
  match l with
  | p :: q :: r :: t :: rest =>
      String (join1 p q) (String (join2 q r) (String (join3 r t) (decode_groups rest)))
  | [p; q; r] => String (join1 p q) (String (join2 q r) EmptyString)
  | [p; q] => String (join1 p q) EmptyString
  | _ => EmptyString
  end.

(** [atob]: [None] stands for the thrown [InvalidCharacterError]. *)
Definition atob (data : string) : option string :=
  let d := remove_whitespace data in
  let d := if String.length d mod 4 =? 0 then strip_padding d else d in
  if String.length d mod 4 =? 1 then None
  else option_map decode_groups (decode_chars d).

(** The sextets that [btoa] writes, and its padding. *)
Fixpoint sextets (s : string) : list sextet :=
  match s with
  | EmptyString => []
  | String a EmptyString =>
      let '(p, q, _, _) := split3 a zero zero in [p; q]
  | String a (String b EmptyString) =>
      let '(p, q, r, _) := split3 a b zero in [p; q; r]
  | String a (String b (String c rest)) =>
      let '(p, q, r, t) := split3 a b c in p :: q :: r :: t :: sextets rest
  end.

Fixpoint padding (s : string) : string :=
  match s with
  | EmptyString => ""
  | String a EmptyString => "=="
  | String a (String b EmptyString) => "="
  | String a (String b (String c rest)) => padding rest
  end.

Fixpoint encode_all (l : list sextet) : string :=
  match l with
  | [] => ""
  | x :: r => String (encode_char x) (encode_all r)
  end.

End Base64.

(** ** JavaScript strings: the built-ins the code calls *)
Module JsString.

(** A string is truthy unless it is empty. *)
Definition truthy (s : string) : bool := negb (String.eqb s "").

(** White space and line terminators of ECMAScript in the Latin-1 range
    (TAB, LF, VT, FF, CR, SPACE, NBSP): what [trim] strips and what the
    regular expression class [\s] matches. *)
Definition is_white_space (c : ascii) : bool :=
  let n := nat_of_ascii c in
  (n =? 9) || (n =? 10) || (n =? 11) || (n =? 12) || (n =? 13) || (n =? 32) || (n =? 160).

Fixpoint trimStart (s : string) : string :=
  match s with
  | EmptyString => EmptyString
  | String c r => if is_white_space c then trimStart r else s
  end.

Fixpoint trimEnd (s : string) : string :=
  match s with
  | EmptyString => EmptyString
  | String c r =>
      let r' := trimEnd r in
      if is_white_space c && negb (truthy r') then EmptyString else String c r'
  end.

Definition trim (s : string) : string := trimEnd (trimStart s).

(** [s.replace(/\s/g, "")] *)
Fixpoint remove_white_space (s : string) : string :=
  match s with
  | EmptyString => EmptyString
  | String c r =>
      if is_white_space c then remove_white_space r
      else String c (remove_white_space r)
  end.

(** [s.startsWith(p)] *)
Definition startsWith (s p : string) : bool := String.prefix p s.

(** [s.includes(p)] *)
Fixpoint includes (s p : string) : bool :=
  String.prefix p s ||
  match s with
  | EmptyString => false
  | String _ r => includes r p
  end.

(** [s.charCodeAt(i)]; [None] is NaN (index out of range). *)
Definition charCodeAt (s : string) (i : nat) : option N :=
  option_map N_of_ascii (String.get i s).

End JsString.

(** ** JavaScript numbers, as far as the encoder uses them

    A finite number is kept as the rational it denotes.  The encoder only
    compares numbers, takes minima and maxima, and multiplies by the integer
    constants 2, 0x7fff and 0x8000.  For the elements of a [Float32Array]
    (24-bit significands) these products fit the 53-bit significand of a
    double, so no rounding takes place and rational arithmetic is exact.
    [-0] is identified with [0]: both fail [sample < 0] and both are stored
    as the integer 0. *)
Module JsNum.

Inductive number :=
| Fin (q : Q)
| PosInf
| NegInf
| NaN.

Definition of_Z (z : Z) : number := Fin (inject_Z z).
Definition of_nat (n : nat) : number := of_Z (Z.of_nat n).

(** [x < y]; every comparison with NaN is false. *)
Definition lt (x y : number) : bool :=
  match x, y with
  | NaN, _ | _, NaN => false
  | _, NegInf | PosInf, _ => false
  | NegInf, _ | _, PosInf => true
  | Fin p, Fin q => negb (Qle_bool q p)
  end.

(** [Math.min] and [Math.max] of two arguments. *)
Definition Math_min (x y : number) : number :=
  match x, y with
  | NaN, _ | _, NaN => NaN
  | _, _ => if lt y x then y else x
  end.

Definition Math_max (x y : number) : number :=
  match x, y with
  | NaN, _ | _, NaN => NaN
  | _, _ => if lt x y then y else x
  end.

(** [x * k] for a positive integer constant [k]. *)
Definition mul_const (x : number) (k : positive) : number :=
  match x with
  | Fin q => Fin (q * inject_Z (Zpos k))
  | other => other
  end.

(** Truncation toward zero. *)
Definition truncate (q : Q) : Z :=
  if Qle_bool 0 q then Qfloor q else Qceiling q.

(** [ToIntegerOrInfinity] followed by the "not finite gives 0" rule that
    all the fixed-width conversions share. *)
Definition to_integer (x : number) : Z :=
  match x with
  | Fin q => truncate q
  | _ => 0%Z
  end.

(** [ToUint8], [ToUint16], [ToUint32]: wrap modulo [2^w]. *)
Definition ToUint (w : Z) (x : number) : Z := (to_integer x mod 2 ^ w)%Z.

(** [ToInt16]: wrap modulo [2^16], then read as two's complement. *)
Definition ToInt16 (x : number) : Z :=
  let u := ToUint 16 x in
  if (u <? 32768)%Z then u else (u - 65536)%Z.

End JsNum.

(** ** utils.ts *)
Module Utils.
Import Base64 JsString JsNum.

(** [x & m] for the result of [charCodeAt]: NaN converts to 0. *)
Definition bitand (x : option N) (m : N) : N :=
  match x with
  | Some n => N.land n m
  | None => 0%N
  end.

Definition strict_eq (x : option N) (v : N) : bool :=
  match x with
  | Some n => N.eqb n v
  | None => false
  end.

Definition audio_wav : string := "audio/wav".
Definition audio_mpeg : string := "audio/mpeg".

(** [sniffAudioMime]: the [catch] branch is the [None] of [atob]. *)
Definition sniffAudioMime (base64 : string) : string :=
  if (String.length base64 =? 0) || (String.length base64 <? 20) then audio_wav
  else
    match atob (String.substring 0 20 base64) with
    | None => audio_wav
    | Some decoded =>
        if startsWith decoded "RIFF" && includes decoded "WAVE" then audio_wav
        else if strict_eq (charCodeAt decoded 0) 255
                && N.eqb (bitand (charCodeAt decoded 1) 224) 224
        then audio_mpeg
        else audio_wav
    end.

(** The two signatures, as the conditions of [sniffAudioMime] read them
    off the decoded prefix. *)
Definition riff_wave (decoded : string) : bool :=
  startsWith decoded "RIFF" && includes decoded "WAVE".

Definition frame_sync (decoded : string) : bool :=
  strict_eq (charCodeAt decoded 0) 255
  && N.eqb (bitand (charCodeAt decoded 1) 224) 224.

(** [b64ToBlob]: [None] is the rethrown error.  The argument is [None]
    when the caller passes [undefined]. *)
Record Blob := { bytes : string; type : string }.

Definition b64ToBlob (base64 : option string) : option Blob :=
  match base64 with
  | None => None
  | Some base64 =>
      if negb (truthy base64) then None
      else
        let cleanBase64 := remove_white_space base64 in
        if negb (truthy cleanBase64) then None
        else
          let mime := sniffAudioMime cleanBase64 in
          match atob cleanBase64 with
          | None => None
          | Some binaryString => Some {| bytes := binaryString; type := mime |}
          end
  end.

(** *** [DataView] over an [ArrayBuffer]

    The buffer is the list of its bytes.  A setter whose range leaves the
    buffer throws [RangeError]: [None]. *)
Abbreviation DataView := (list Z).

Definition in_bounds (view : DataView) (offset size : nat) : bool :=
  offset + size <=? length view.

Definition setUint8 (view : DataView) (offset : nat) (v : number) : option DataView :=
  if in_bounds view offset 1 then Some (<[offset := ToUint 8 v]> view) else None.

(** The little-endian setters ([littleEndian = true] at every call). *)
Definition put16 (view : DataView) (offset : nat) (u : Z) : DataView :=
  <[offset + 1 := ((u / 256) mod 256)%Z]> (<[offset := (u mod 256)%Z]> view).

Definition put32 (view : DataView) (offset : nat) (u : Z) : DataView :=
  <[offset + 3 := ((u / 16777216) mod 256)%Z]>
    (<[offset + 2 := ((u / 65536) mod 256)%Z]>
       (<[offset + 1 := ((u / 256) mod 256)%Z]>
          (<[offset := (u mod 256)%Z]> view))).

Definition setUint16 (view : DataView) (offset : nat) (v : number) : option DataView :=
  if in_bounds view offset 2 then Some (put16 view offset (ToUint 16 v)) else None.

Definition setUint32 (view : DataView) (offset : nat) (v : number) : option DataView :=
  if in_bounds view offset 4 then Some (put32 view offset (ToUint 32 v)) else None.

Definition setInt16 (view : DataView) (offset : nat) (v : number) : option DataView :=
  if in_bounds view offset 2 then Some (put16 view offset (ToInt16 v mod 65536)%Z) else None.

(** [getInt16(offset, true)], the reader matching [setInt16]. *)
Definition getInt16 (lo hi : Z) : Z :=
  let u := (lo + 256 * hi)%Z in
  if (u <? 32768)%Z then u else (u - 65536)%Z.

(** [writeString]: one [setUint8] per character, from [offset] on. *)
Fixpoint writeString (view : DataView) (offset : nat) (str : string) : option DataView :=
  match str with
  | EmptyString => Some view
  | String c rest =>
      view' ← setUint8 view offset (of_Z (Z.of_N (N_of_ascii c)));
      writeString view' (offset + 1) rest
  end.

(** The body of the sample loop. *)
Definition clamp (x : number) : number := Math_max (of_Z (-1)) (Math_min (of_Z 1) x).

Definition pcmSample (x : number) : number :=
  let sample := clamp x in
  if lt sample (of_Z 0) then mul_const sample 32768 (* 0x8000 *)
  else mul_const sample 32767 (* 0x7fff *).

Fixpoint writeSamples (view : DataView) (offset : nat) (samples : list number)
  : option DataView :=
  match samples with
  | [] => Some view
  | x :: rest =>
      view' ← setInt16 view offset (pcmSample x);
      writeSamples view' (offset + 2) rest
  end.

Definition encodeWavPCM16 (samples : list number) (sampleRate : number)
  : option DataView :=
  let numChannels := 1%positive in
  let bitsPerSample := 16 in
  let bytesPerSample := bitsPerSample / 8 in
  let blockAlign := (numChannels * Pos.of_nat bytesPerSample)%positive in
  let byteRate := mul_const sampleRate blockAlign in
  let dataSize := length samples * bytesPerSample in
  let bufferSize := 44 + dataSize in
  let view : DataView := replicate bufferSize 0%Z in
  let offset := 0 in
  view ← writeString view offset "RIFF";
  let offset := offset + 4 in
  view ← setUint32 view offset (of_nat (bufferSize - 8));
  let offset := offset + 4 in
  view ← writeString view offset "WAVE";
  let offset := offset + 4 in
  view ← writeString view offset "fmt ";
  let offset := offset + 4 in
  view ← setUint32 view offset (of_Z 16);
  let offset := offset + 4 in
  view ← setUint16 view offset (of_Z 1);
  let offset := offset + 2 in
  view ← setUint16 view offset (of_Z (Zpos numChannels));
  let offset := offset + 2 in
  view ← setUint32 view offset sampleRate;
  let offset := offset + 4 in
  view ← setUint32 view offset byteRate;
  let offset := offset + 4 in
  view ← setUint16 view offset (of_Z (Zpos blockAlign));
  let offset := offset + 2 in
  view ← setUint16 view offset (of_nat bitsPerSample);
  let offset := offset + 2 in
  view ← writeString view offset "data";
  let offset := offset + 4 in
  view ← setUint32 view offset (of_nat dataSize);
  let offset := offset + 4 in
  writeSamples view offset samples.

(** *** Reading the samples back

    The repository has no WAV decoder: the server hands the container to the
    transcription model as it is.  "Decoding the PCM samples out of an
    encoded WAV container" is taken as reading the little-endian signed
    16-bit integers that follow the 44-byte header, and undoing the encoder's
    scaling. *)

(** Modelled from the spec: the decoder's loop over the data chunk, one
    [getInt16] per sample. *)
Fixpoint readSamples (data : list Z) : list Z :=
  match data with
  | lo :: hi :: rest => getInt16 lo hi :: readSamples rest
  | _ => []
  end.

(** Modelled from the spec: the decoder, which skips the 44-byte header. *)
Definition decodePCM16 (wav : DataView) : list Z := readSamples (drop 44 wav).

(** Modelled from the spec: the inverse of the encoder's scaling, a negative
    integer divided by 32768 and any other by 32767. *)
Definition dequantize (s : Z) : Q :=
  if (s <? 0)%Z then (inject_Z s / 32768)%Q else (inject_Z s / 32767)%Q.

(** "Within one quantization step of the clamped sample".  A comparison
    with NaN is false. *)
Definition within_step (decoded : Q) (original : number) : Prop :=
  match clamp original with
  | Fin c => (Qabs (decoded - c) <= 1 # 32767)%Q
  | _ => False
  end.

(** The round trip of one array at one sample rate: the encoder returns a
    container, and each sample read back from it is within one step of
    the sample that went in. *)
Definition round_trips (samples : list number) (sampleRate : number) : Prop :=
  exists wav,
    encodeWavPCM16 samples sampleRate = Some wav /\
    Forall2 (fun x s => within_step (dequantize s) x) samples (decodePCM16 wav).

(** The bytes one sample is stored as. *)
Definition sampleBytes (x : number) : list Z :=
  let u := (ToInt16 (pcmSample x) mod 65536)%Z in
  [(u mod 256)%Z; ((u / 256) mod 256)%Z].

Definition le16 (u : Z) : list Z := [(u mod 256)%Z; ((u / 256) mod 256)%Z].

Definition le32 (u : Z) : list Z :=
  [(u mod 256)%Z; ((u / 256) mod 256)%Z;
   ((u / 65536) mod 256)%Z; ((u / 16777216) mod 256)%Z].

(** The canonical 44-byte header for [n] samples. *)
Definition wavHeader (n : nat) (sampleRate : number) : list Z :=
  [82; 73; 70; 70]%Z ++ le32 (ToUint 32 (of_nat (44 + n * 2 - 8)))
  ++ [87; 65; 86; 69]%Z
  ++ [102; 109; 116; 32]%Z ++ le32 (ToUint 32 (of_Z 16))
  ++ le16 (ToUint 16 (of_Z 1)) ++ le16 (ToUint 16 (of_Z 1))
  ++ le32 (ToUint 32 sampleRate) ++ le32 (ToUint 32 (mul_const sampleRate 2))
  ++ le16 (ToUint 16 (of_Z 2)) ++ le16 (ToUint 16 (of_nat 16))
  ++ [100; 97; 116; 97]%Z ++ le32 (ToUint 32 (of_nat (n * 2))).

End Utils.

(** ** p-queue with [concurrency: 1]

    The library is not part of the repository; only the three operations the
    server uses are described.  [add] starts the job at once when no job is
    executing and otherwise appends it to the waiting line; when the
    executing job settles the head of the line starts; [onIdle] resolves when
    nothing executes and nothing waits. *)
Module PQueue.
Section Jobs.
Context {Job : Type}.

Record t := { running : option Job; waiting : list Job }.

Definition empty : t := {| running := None; waiting := [] |}.

Definition add (q : t) (j : Job) : t :=
  match running q with
  | None => {| running := Some j; waiting := waiting q |}
  | Some _ => {| running := running q; waiting := waiting q ++ [j] |}
  end.

Definition settle (q : t) : t :=
  match waiting q with
  | [] => {| running := None; waiting := [] |}
  | j :: rest => {| running := Some j; waiting := rest |}
  end.

Definition idle (q : t) : bool :=
  match running q, waiting q with
  | None, [] => true
  | _, _ => false
  end.

(** Every job the queue still holds, in the order it will run them. *)
Definition jobs (q : t) : list Job :=
  match running q with
  | Some j => j :: waiting q
  | None => waiting q
  end.

(** Nothing waits while nothing executes. *)
Definition well_formed (q : t) : Prop :=
  running q = None -> waiting q = [].
End Jobs.
Arguments t : clear implicits.
End PQueue.

(** ** VoiceAi.ts: the durable object serving one socket *)
Module VoiceAi.
Import Base64 JsString.

(** *** Data *)
Inductive Role := user | assistant | system.

Record CoreMessage := { role : Role; content : string }.

(** What [ws.send(JSON.stringify(...))] puts on the socket: the [type]
    field is the constructor. *)
Inductive ServerMsg :=
| Status (text : string)
| Text (text : string)
| Audio (text : string) (audio : string)
| Error (text : string).

(** A thrown value: an [Error] instance with its message, or anything
    else. *)
Inductive Thrown :=
| ErrorInstance (message : string)
| NotAnError.

(** How a call to the [AI] binding, or the completion stream, ends. *)
Inductive Outcome (A : Type) :=
| Returns (a : A)
| Throws (e : Thrown).
Arguments Returns {A} a.
Arguments Throws {A} e.

(** The shapes of a text-to-speech response that [textToSpeech]
    distinguishes.  [RespBytes] is the [ArrayBuffer] case, given as the
    binary string of its bytes; a response that is neither a string nor an
    object with an [audio] field converts to an empty byte array. *)
Inductive TtsResponse :=
| RespString (s : string)
| RespObject (audio : option string)
| RespBytes (bytes : string).

(** What the environment does during one turn: the transcription call's
    outcome ([text] field of the result, [None] when absent), the deltas
    that [result.textStream] yields and how the stream ends, the outcome
    of the synthesis call for the unit that was the [n]-th one handed to
    the queue, and the largest number of arguments that the engine accepts
    in one call: spreading a longer array into a call throws
    [RangeError]. *)
Record TurnEnv := {
  whisper : Outcome (option string);
  textStream : list string;
  streamEnd : option Thrown;
  melotts : nat -> string -> Outcome TtsResponse;
  maxArguments : N
}.

(** *** [transcribeAudio] and [textToSpeech] *)

(** [result.text || null] inside [try], [null] from [catch]. *)
Definition transcribeAudio (run : Outcome (option string)) : option string :=
  match run with
  | Returns (Some t) => if truthy t then Some t else None
  | Returns None => None
  | Throws _ => None
  end.

(** The returned value; [None] is [null] or [undefined].  In the
    [ArrayBuffer] case [String.fromCharCode(...uint8Array)] passes one
    argument for each byte: above the engine's limit it throws
    [RangeError], which the [catch] block turns into [null]. *)
Definition textToSpeech (maxArguments : N) (run : Outcome TtsResponse)
  : option string :=
  match run with
  | Returns (RespString s) => Some s
  | Returns (RespObject a) => a
  | Returns (RespBytes bytes) =>
      if (N.of_nat (String.length bytes) <=? maxArguments)%N
      then Some (btoa bytes)
      else None
  | Throws _ => None
  end.

(** [if (audio)] in the queued job. *)
Definition usable (a : option string) : option string :=
  match a with
  | Some s => if truthy s then Some s else None
  | None => None
  end.

(** *** One turn: [handleAudioInput] and [generateAndSpeakResponse]

    The two functions are asynchronous: between two awaits they run
    without interruption, and at an await anything else may run.  A turn is
    therefore a machine whose steps are the resumptions:

    - [TranscribeDone]: [await this.transcribeAudio(...)] resumes;
    - [StreamNext]: the [for await] loop receives the next delta, the end
      of the stream, or its failure;
    - [TtsDone]: [await this.textToSpeech(sentence)] resumes in the job the
      queue is executing;
    - [QueueIdle]: [await ttsQueue.onIdle()] resumes.

    The order in which [StreamNext] and [TtsDone] alternate is the
    schedule; it stands for all latencies of the model and of the
    synthesis calls. *)

(** A queued job: the sentence it closes over.  [sequence] is a ghost
    field, the number of jobs handed to [ttsQueue.add] before this one. *)
Record SentenceUnit := { sequence : nat; sentence : string }.

Inductive Phase :=
| Transcribing
| Streaming
| Draining
| Finished
| Failed.

Record TurnSt := {
  phase : Phase;
  pending : list string;          (* deltas the stream has yet to yield *)
  fullResponse : string;
  ttsQueue : PQueue.t SentenceUnit;
  produced : list SentenceUnit;   (* ghost: units handed to the queue *)
  emitted : list SentenceUnit     (* ghost: units whose audio was sent *)
}.

Inductive Effect :=
| Send (m : ServerMsg)
| Push (m : CoreMessage).

Inductive Step := TranscribeDone | StreamNext | TtsDone | QueueIdle.

(** [handleAudioInput] up to its first await. *)
Definition start : TurnSt * list Effect :=
  ({| phase := Transcribing; pending := []; fullResponse := "";
      ttsQueue := PQueue.empty; produced := []; emitted := [] |},
   [Send (Status "Processing....")]).

(** [error instanceof Error ? error.message : "Unknown error"] *)
Definition error_text (e : Thrown) : string :=
  match e with
  | ErrorInstance m => m
  | NotAnError => "Unknown error"
  end.

Definition step (env : TurnEnv) (st : TurnSt) (s : Step) : option (TurnSt * list Effect) :=
  match s, phase st with
  | TranscribeDone, Transcribing =>
      match transcribeAudio (whisper env) with
      | None =>
          Some ({| phase := Finished; pending := pending st;
                   fullResponse := fullResponse st; ttsQueue := ttsQueue st;
                   produced := produced st; emitted := emitted st |},
                [Send (Status "Idle")])
      | Some transcription =>
          Some ({| phase := Streaming; pending := textStream env;
                   fullResponse := ""; ttsQueue := PQueue.empty;
                   produced := produced st; emitted := emitted st |},
                [Send (Text transcription);
                 Push {| role := user; content := transcription |}])
      end
  | StreamNext, Streaming =>
      match pending st with
      | chunk :: rest =>
          let sentence := trim chunk in
          if negb (truthy sentence) then
            Some ({| phase := Streaming; pending := rest;
                     fullResponse := fullResponse st; ttsQueue := ttsQueue st;
                     produced := produced st; emitted := emitted st |}, [])
          else
            let unit := {| sequence := length (produced st); sentence := sentence |} in
            Some ({| phase := Streaming; pending := rest;
                     fullResponse :=
                       (fullResponse st
                        ++ (if truthy (fullResponse st) then " " else "")
                        ++ sentence)%string;
                     ttsQueue := PQueue.add (ttsQueue st) unit;
                     produced := produced st ++ [unit];
                     emitted := emitted st |},
                  [Send (Status "Speaking...")])
      | [] =>
          match streamEnd env with
          | None =>
              Some ({| phase := Draining; pending := [];
                       fullResponse := fullResponse st; ttsQueue := ttsQueue st;
                       produced := produced st; emitted := emitted st |}, [])
          | Some e =>
              (* rethrown by [generateAndSpeakResponse], not caught by
                 [handleAudioInput], caught by the message listener *)
              Some ({| phase := Failed; pending := [];
                       fullResponse := fullResponse st; ttsQueue := ttsQueue st;
                       produced := produced st; emitted := emitted st |},
                    [Send (Error (error_text e))])
          end
      end
  | TtsDone, _ =>
      match PQueue.running (ttsQueue st) with
      | None => None
      | Some unit =>
          let audio :=
            textToSpeech (maxArguments env)
                         (melotts env (sequence unit) (sentence unit)) in
          let q := PQueue.settle (ttsQueue st) in
          match usable audio with
          | Some a =>
              Some ({| phase := phase st; pending := pending st;
                       fullResponse := fullResponse st; ttsQueue := q;
                       produced := produced st; emitted := emitted st ++ [unit] |},
                    [Send (Audio (sentence unit) a)])
          | None =>
              Some ({| phase := phase st; pending := pending st;
                       fullResponse := fullResponse st; ttsQueue := q;
                       produced := produced st; emitted := emitted st |}, [])
          end
      end
  | QueueIdle, Draining =>
      if PQueue.idle (ttsQueue st) then
        Some ({| phase := Finished; pending := pending st;
                 fullResponse := fullResponse st; ttsQueue := ttsQueue st;
                 produced := produced st; emitted := emitted st |},
              [Push {| role := assistant; content := fullResponse st |};
               Send (Status "Idle")])
      else None
  | _, _ => None
  end.

(** A schedule is run from left to right; it is refused ([None]) as soon as
    it asks for a resumption that is not pending. *)
Fixpoint run (env : TurnEnv) (sched : list Step) (st : TurnSt)
  : option (TurnSt * list Effect) :=
  match sched with
  | [] => Some (st, [])
  | s :: rest =>
      match step env st s with
      | None => None
      | Some (st1, e1) =>
          match run env rest st1 with
          | None => None
          | Some (st2, e2) => Some (st2, e1 ++ e2)
          end
      end
  end.

(** The whole turn under a schedule, with the effects of its synchronous
    beginning. *)
Definition turn (env : TurnEnv) (sched : list Step) : option (TurnSt * list Effect) :=
  match run env sched (fst start) with
  | None => None
  | Some (st, effs) => Some (st, snd start ++ effs)
  end.

(** No resumption is pending any more. *)
Definition quiescent (st : TurnSt) : bool :=
  match phase st with
  | Finished | Failed => PQueue.idle (ttsQueue st)
  | _ => false
  end.

(** *** Projections of an effect trace *)
Definition sent (effs : list Effect) : list ServerMsg :=
  omap (fun e => match e with Send m => Some m | Push _ => None end) effs.

Definition pushed (effs : list Effect) : list CoreMessage :=
  omap (fun e => match e with Push m => Some m | Send _ => None end) effs.

Definition is_audio (m : ServerMsg) : bool :=
  match m with Audio _ _ => true | _ => false end.

Definition is_text (m : ServerMsg) : bool :=
  match m with Text _ => true | _ => false end.

Definition is_error (m : ServerMsg) : bool :=
  match m with Error _ => true | _ => false end.

(** The sentence units of a stream: the trimmed, non-empty deltas. *)
Definition sentences (chunks : list string) : list string :=
  List.filter truthy (List.map trim chunks).

(** [fullResponse] after the loop has seen [chunks]. *)
Definition join_sentences (l : list string) : string :=
  fold_left (fun acc s => (acc ++ (if truthy acc then " " else "") ++ s)%string) l "".

(** The speech chunk that a unit gives, if its synthesis gives usable
    audio. *)
Definition chunk_of (env : TurnEnv) (u : SentenceUnit) : option ServerMsg :=
  match usable (textToSpeech (maxArguments env)
                             (melotts env (sequence u) (sentence u))) with
  | Some a => Some (Audio (sentence u) a)
  | None => None
  end.

Definition speaks (env : TurnEnv) (u : SentenceUnit) : bool :=
  match chunk_of env u with
  | Some _ => true
  | None => false
  end.

(** Sentences with their sequence numbers, counted from [n]. *)
Fixpoint units_from (n : nat) (l : list string) : list SentenceUnit :=
  match l with
  | [] => []
  | s :: rest => {| sequence := n; sentence := s |} :: units_from (S n) rest
  end.

(** The units of a whole stream. *)
Definition units (env : TurnEnv) : list SentenceUnit :=
  units_from 0 (sentences (textStream env)).

Definition audio_messages (effs : list Effect) : list ServerMsg :=
  List.filter is_audio (sent effs).

Definition error_messages (effs : list Effect) : list ServerMsg :=
  List.filter is_error (sent effs).

(** *** The session: [handleSession] and its message listener *)
Record Session := {
  msgHistory : list CoreMessage;
  transport : list ServerMsg
}.

Definition apply (s : Session) (e : Effect) : Session :=
  match e with
  | Send m => {| msgHistory := msgHistory s; transport := transport s ++ [m] |}
  | Push m => {| msgHistory := msgHistory s ++ [m]; transport := transport s |}
  end.

Definition apply_all (s : Session) (effs : list Effect) : Session :=
  fold_left apply effs s.

(** [handleSession]: the socket is accepted and greeted. *)
Definition handleSession : Session :=
  {| msgHistory := []; transport := [Status "ready"] |}.

(** A text frame after [JSON.parse]: it fails to parse (or is not an
    object), or it has a [type] and a [data]. *)
Inductive TextFrame :=
| Unparseable (e : Thrown)
| Parsed (type : string) (data : string).

Definition onTextFrame (s : Session) (f : TextFrame) : Session :=
  match f with
  | Unparseable e =>
      {| msgHistory := msgHistory s; transport := transport s ++ [Error (error_text e)] |}
  | Parsed type data =>
      if String.eqb type "cmd" && String.eqb data "clear" then
        {| msgHistory := []; transport := transport s ++ [Status "Chat cleared"] |}
      else s
  end.

(** A binary frame whose turn runs under [sched] with no other frame in
    between.  A turn is followed on its own: when a second frame arrives
    before the first turn has come to rest, the socket sees an interleaving
    of two such turns, and each of them still pushes and sends what it is
    shown to push and send here. *)
Definition onAudioFrame (s : Session) (env : TurnEnv) (sched : list Step)
  : option (Session * TurnSt) :=
  match turn env sched with
  | None => None
  | Some (st, effs) => Some (apply_all s effs, st)
  end.

(** *** Invariants of a turn

    [stream_inv] follows [handleAudioInput] and the loop of
    [generateAndSpeakResponse]; [queue_inv] follows the queue.  [effs] are
    the effects since the first await. *)
Definition stream_inv (env : TurnEnv) (st : TurnSt) (effs : list Effect) : Prop :=
  match phase st with
  | Transcribing => effs = []
  | Streaming =>
      exists t seen,
        transcribeAudio (whisper env) = Some t /\
        textStream env = seen ++ pending st /\
        produced st = units_from 0 (sentences seen) /\
        fullResponse st = join_sentences (sentences seen) /\
        pushed effs = [{| role := user; content := t |}] /\
        error_messages effs = []
  | Draining =>
      exists t,
        transcribeAudio (whisper env) = Some t /\
        streamEnd env = None /\
        produced st = units env /\
        fullResponse st = join_sentences (sentences (textStream env)) /\
        pushed effs = [{| role := user; content := t |}] /\
        error_messages effs = []
  | Failed =>
      exists t e,
        transcribeAudio (whisper env) = Some t /\
        streamEnd env = Some e /\
        produced st = units env /\
        pushed effs = [{| role := user; content := t |}] /\
        error_messages effs = [Error (error_text e)]
  | Finished =>
      (transcribeAudio (whisper env) = None /\
       effs = [Send (Status "Idle")] /\
       PQueue.jobs (ttsQueue st) = [])
      \/
      (exists t pre,
          transcribeAudio (whisper env) = Some t /\
          streamEnd env = None /\
          produced st = units env /\
          PQueue.idle (ttsQueue st) = true /\
          pushed pre = [{| role := user; content := t |}] /\
          error_messages pre = [] /\
          effs = pre ++ [Push {| role := assistant;
                                 content := join_sentences (sentences (textStream env)) |};
                         Send (Status "Idle")])
  end.

Definition queue_inv (env : TurnEnv) (st : TurnSt) (effs : list Effect) : Prop :=
  PQueue.well_formed (ttsQueue st) /\
  (phase st = Transcribing -> PQueue.jobs (ttsQueue st) = [] /\ produced st = []) /\
  exists settled,
    produced st = settled ++ PQueue.jobs (ttsQueue st) /\
    emitted st = List.filter (speaks env) settled /\
    audio_messages effs = omap (chunk_of env) settled.

(** How far a turn is from quiescence: every resumption lowers it. *)
Definition remaining (env : TurnEnv) (st : TurnSt) : nat :=
  length (PQueue.jobs (ttsQueue st)) +
  match phase st with
  | Transcribing => 2 * length (textStream env) + 4
  | Streaming => 2 * length (pending st) + 3
  | Draining => 1
  | Finished | Failed => 0
  end.

(** The two turns that a completed exchange appends to the history. *)
Definition user_turn (t : string) : CoreMessage := {| role := user; content := t |}.

Definition assistant_turn (env : TurnEnv) : CoreMessage :=
  {| role := assistant; content := String.concat " " (sentences (textStream env)) |}.

(** The trace of a turn that is aborted. *)
Definition processing_idle : list Effect :=
  [Send (Status "Processing...."); Send (Status "Idle")].

(** The same environment with another outcome of the transcription call. *)
Definition with_whisper (w : Outcome (option string)) (env : TurnEnv) : TurnEnv :=
  {| whisper := w; textStream := textStream env;
     streamEnd := streamEnd env; melotts := melotts env;
     maxArguments := maxArguments env |}.

(** *** Scenarios *)

(** The model answers in two deltas; every sentence is synthesised. *)
Definition greeting : TurnEnv :=
  {| whisper := Returns (Some "hello");
     textStream := ["Hello there."; " How can I help?"];
     streamEnd := None;
     melotts := fun _ _ => Returns (RespObject (Some "UklGRg=="));
     maxArguments := 65535 |}.

(** One second of silence: the transcription has no text. *)
Definition silence : TurnEnv :=
  {| whisper := Returns None;
     textStream := [];
     streamEnd := None;
     melotts := fun _ _ => Returns (RespObject (Some "UklGRg=="));
     maxArguments := 65535 |}.

(** The transcription call raises. *)
Definition whisper_down : TurnEnv :=
  {| whisper := Throws (ErrorInstance "whisper unavailable");
     textStream := [];
     streamEnd := None;
     melotts := fun _ _ => Returns (RespObject (Some "UklGRg=="));
     maxArguments := 65535 |}.

(** The completion stream raises after its first delta. *)
Definition broken_stream : TurnEnv :=
  {| whisper := Returns (Some "hello");
     textStream := ["Hello there."];
     streamEnd := Some (ErrorInstance "stream reset");
     melotts := fun _ _ => Returns (RespObject (Some "UklGRg=="));
     maxArguments := 65535 |}.

(** Four sentences; the synthesis of the second raises and that of the
    third returns an object without audio. *)
Definition flaky_synthesis : TurnEnv :=
  {| whisper := Returns (Some "tell me more");
     textStream := ["One. "; "Two. "; "   "; "Three. "; "Four."];
     streamEnd := None;
     melotts := fun n _ =>
       match n with
       | 1 => Throws (ErrorInstance "synthesis failed")
       | 2 => Returns (RespObject None)
       | _ => Returns (RespBytes "RIFF")
       end;
     maxArguments := 65535 |}.

(** Two sentences, both answered with an [ArrayBuffer]; the first buffer
    has more bytes than the engine takes arguments.  The limit is set to
    four to keep the buffers short. *)
Definition oversized_synthesis : TurnEnv :=
  {| whisper := Returns (Some "go on");
     textStream := ["One. "; "Two."];
     streamEnd := None;
     melotts := fun n _ =>
       match n with
       | 0 => Returns (RespBytes "RIFF and then some")
       | _ => Returns (RespBytes "RIFF")
       end;
     maxArguments := 4 |}.

Definition flaky_schedule : list Step :=
  [TranscribeDone; StreamNext; StreamNext; StreamNext; TtsDone; StreamNext;
   StreamNext; TtsDone; TtsDone; StreamNext; TtsDone; QueueIdle].

(** Where [flaky_synthesis] is after [flaky_schedule]. *)
Definition flaky_final : TurnSt * list Effect :=
  Eval vm_compute in
    match turn flaky_synthesis flaky_schedule with
    | Some r => r
    | None => start
    end.

Definition greeting_schedule : list Step :=
  [TranscribeDone; StreamNext; StreamNext; TtsDone; StreamNext; TtsDone; QueueIdle].

(** The fresh session after the exchange [greeting]. *)
Definition greeting_session : Session * TurnSt :=
  Eval vm_compute in
    match onAudioFrame handleSession greeting greeting_schedule with
    | Some r => r
    | None => (handleSession, fst start)
    end.

(** The fresh session after one second of silence. *)
Definition silence_session : Session * TurnSt :=
  Eval vm_compute in
    match onAudioFrame handleSession silence [TranscribeDone] with
    | Some r => r
    | None => (handleSession, fst start)
    end.

End VoiceAi.

(** ** useVoiceChat.ts: the client hook

    The hook's React state and refs are the fields of [Client].  The host's
    part in playback is made explicit: the object URLs that are allocated,
    and the audio elements on which [play()] was called. *)
Module VoiceChat.
Import JsString.

Inductive Role := user | assistant | system.

Record Message := { role : Role; content : string }.

(** An entry of [audioQueueRef.current]; [audio] is [None] when the parsed
    message has no such field. *)
Record AudioQueueItem := { audio : option string; text : string }.

(** [event.data] after [JSON.parse]: [Malformed] when parsing throws. *)
Inductive Incoming :=
| Malformed
| Data (type : string) (text : string) (audio : option string).

(** An audio element created by [new Audio(url)] on which [play()] was
    called.  It is [active] until it reports [ended] or [error] or its
    [play()] is refused; [playPending] holds while the promise returned by
    [play()] is unsettled. *)
Record AudioElement := {
  src : nat;
  source : AudioQueueItem;
  blob : Utils.Blob;
  active : bool;
  playPending : bool
}.

Record Client := {
  messages : list Message;
  isConnected : bool;
  isListening : bool;
  isSpeaking : bool;
  status : string;
  audioQueue : list AudioQueueItem;   (* audioQueueRef.current *)
  isPlaying : bool;                   (* isPlayingRef.current *)
  objectURLs : list nat;              (* created and not yet revoked *)
  elements : list AudioElement        (* in the order of their creation *)
}.

(** The state when the socket has opened. *)
Definition opened : Client :=
  {| messages := []; isConnected := true; isListening := false;
     isSpeaking := false; status := "Connecting...."; audioQueue := [];
     isPlaying := false; objectURLs := []; elements := [] |}.

(** *** Setters *)
Definition setMessages (f : list Message -> list Message) (c : Client) : Client :=
  {| messages := f (messages c); isConnected := isConnected c;
     isListening := isListening c; isSpeaking := isSpeaking c; status := status c;
     audioQueue := audioQueue c; isPlaying := isPlaying c;
     objectURLs := objectURLs c; elements := elements c |}.

Definition setIsListening (b : bool) (c : Client) : Client :=
  {| messages := messages c; isConnected := isConnected c;
     isListening := b; isSpeaking := isSpeaking c; status := status c;
     audioQueue := audioQueue c; isPlaying := isPlaying c;
     objectURLs := objectURLs c; elements := elements c |}.

Definition setIsSpeaking (b : bool) (c : Client) : Client :=
  {| messages := messages c; isConnected := isConnected c;
     isListening := isListening c; isSpeaking := b; status := status c;
     audioQueue := audioQueue c; isPlaying := isPlaying c;
     objectURLs := objectURLs c; elements := elements c |}.

Definition setStatus (t : string) (c : Client) : Client :=
  {| messages := messages c; isConnected := isConnected c;
     isListening := isListening c; isSpeaking := isSpeaking c; status := t;
     audioQueue := audioQueue c; isPlaying := isPlaying c;
     objectURLs := objectURLs c; elements := elements c |}.

Definition set_audioQueue (q : list AudioQueueItem) (c : Client) : Client :=
  {| messages := messages c; isConnected := isConnected c;
     isListening := isListening c; isSpeaking := isSpeaking c; status := status c;
     audioQueue := q; isPlaying := isPlaying c;
     objectURLs := objectURLs c; elements := elements c |}.

Definition set_isPlaying (b : bool) (c : Client) : Client :=
  {| messages := messages c; isConnected := isConnected c;
     isListening := isListening c; isSpeaking := isSpeaking c; status := status c;
     audioQueue := audioQueue c; isPlaying := b;
     objectURLs := objectURLs c; elements := elements c |}.

Definition set_objectURLs (u : list nat) (c : Client) : Client :=
  {| messages := messages c; isConnected := isConnected c;
     isListening := isListening c; isSpeaking := isSpeaking c; status := status c;
     audioQueue := audioQueue c; isPlaying := isPlaying c;
     objectURLs := u; elements := elements c |}.

Definition set_elements (e : list AudioElement) (c : Client) : Client :=
  {| messages := messages c; isConnected := isConnected c;
     isListening := isListening c; isSpeaking := isSpeaking c; status := status c;
     audioQueue := audioQueue c; isPlaying := isPlaying c;
     objectURLs := objectURLs c; elements := e |}.

(** *** [playNextInQueue] *)

(** The [try] block up to [new Audio(url)]: [None] when it throws, either
    at [if (!audio)] or inside [b64ToBlob]. *)
Definition decodeItem (item : AudioQueueItem) : option Utils.Blob :=
  match audio item with
  | None => None
  | Some a => if truthy a then Utils.b64ToBlob (Some a) else None
  end.

(** [URL.createObjectURL], [new Audio(url)], the two handlers, and the call
    of [play()]. *)
Definition beginPlayback (item : AudioQueueItem) (b : Utils.Blob) (c : Client) : Client :=
  let url := length (elements c) in
  let el := {| src := url; source := item; blob := b;
               active := true; playPending := true |} in
  set_elements (elements c ++ [el]) (set_objectURLs (objectURLs c ++ [url]) c).

(** The function once its guard has let it pass, up to its first await; a
    throw inside [try] reaches the [catch] block at once, which calls
    the function again. *)
Fixpoint playFrom (queue : list AudioQueueItem) (c : Client) : Client :=
  match queue with
  | [] => c
  | item :: rest =>
      let c := setIsSpeaking true (set_isPlaying true c) in
      let c := set_audioQueue rest c in
      match decodeItem item with
      | Some b => beginPlayback item b c
      | None => playFrom rest (setIsSpeaking false (set_isPlaying false c))
      end
  end.

Definition playNextInQueue (c : Client) : Client :=
  if isPlaying c || (length (audioQueue c) =? 0) then c
  else playFrom (audioQueue c) c.

(** [revokeUrl], the closure shared by [onended] and [onerror]. *)
Definition revokeUrl (url : nat) (c : Client) : Client :=
  let c := set_objectURLs (List.filter (fun u => negb (u =? url)) (objectURLs c)) c in
  playNextInQueue (setIsSpeaking false (set_isPlaying false c)).

(** The [catch] block when it is reached from [await audioElement.play()]. *)
Definition playFailed (c : Client) : Client :=
  playNextInQueue (setIsSpeaking false (set_isPlaying false c)).

(** *** [ws.onmessage] *)
Definition last_message (l : list Message) : option Message :=
  match rev l with
  | [] => None
  | m :: _ => Some m
  end.

(** The body of [case "audio"]. *)
Definition caseAudio (t : string) (a : option string) (c : Client) : Client :=
  let c := set_audioQueue (audioQueue c ++ [{| audio := a; text := t |}]) c in
  let c :=
    setMessages
      (fun prev =>
         match last_message prev with
         | Some lastMsg =>
             match role lastMsg with
             | assistant =>
                 removelast prev
                 ++ [{| role := role lastMsg;
                        content := (content lastMsg ++ " " ++ t)%string |}]
             | _ => prev ++ [{| role := assistant; content := t |}]
             end
         | None => prev ++ [{| role := assistant; content := t |}]
         end) c in
  playNextInQueue c.

Definition onmessage (c : Client) (d : Incoming) : Client :=
  match d with
  | Malformed => c
  | Data type t a =>
      if String.eqb type "status" then
        let c := setStatus t c in
        if String.eqb t "ready" then setStatus "ready" c
        else if String.eqb t "Speaking..." then setIsSpeaking true c
        else if String.eqb t "Idle" then setIsListening false c
        else c
      else if String.eqb type "text" then
        (* no [break]: control falls through into [case "audio"] *)
        caseAudio t a
          (setMessages (fun prev => prev ++ [{| role := user; content := t |}]) c)
      else if String.eqb type "audio" then caseAudio t a c
      else if String.eqb type "error" then setStatus ("Error " ++ t) c
      else c
  end.

(** *** Events *)
Inductive Event :=
| Receive (d : Incoming)        (* a socket message *)
| PlayResolved (url : nat)      (* [play()] fulfilled *)
| PlayRejected (url : nat)      (* [play()] rejected *)
| Ended (url : nat)             (* the element fires [ended] *)
| MediaError (url : nat).       (* the element fires [error] *)

Definition set_element (url : nat) (el : AudioElement) (c : Client) : Client :=
  set_elements (<[url := el]> (elements c)) c.

Definition settled (el : AudioElement) (stillActive : bool) : AudioElement :=
  {| src := src el; source := source el; blob := blob el;
     active := stillActive; playPending := false |}.

Definition stopped (el : AudioElement) : AudioElement :=
  {| src := src el; source := source el; blob := blob el;
     active := false; playPending := playPending el |}.

(** An event is refused ([None]) when the host cannot produce it: a
    promise settles once, an element ends only after it has started, and
    an element that has ended or failed is silent. *)
Definition deliver (c : Client) (e : Event) : option Client :=
  match e with
  | Receive d => Some (onmessage c d)
  | PlayResolved url =>
      el ← elements c !! url;
      if playPending el && active el then Some (set_element url (settled el true) c)
      else None
  | PlayRejected url =>
      el ← elements c !! url;
      if playPending el then Some (playFailed (set_element url (settled el false) c))
      else None
  | Ended url =>
      el ← elements c !! url;
      if active el && negb (playPending el)
      then Some (revokeUrl url (set_element url (stopped el) c))
      else None
  | MediaError url =>
      el ← elements c !! url;
      if active el then Some (revokeUrl url (set_element url (stopped el) c))
      else None
  end.

Fixpoint deliver_all (c : Client) (es : list Event) : option Client :=
  match es with
  | [] => Some c
  | e :: rest => c' ← deliver c e; deliver_all c' rest
  end.

(** The elements that sound. *)
Definition audible (c : Client) : list AudioElement :=
  List.filter active (elements c).

(** *** What the queue is meant to maintain *)

(** An item that [playFrom] starts rather than skips. *)
Definition playable (item : AudioQueueItem) : bool :=
  match decodeItem item with
  | Some _ => true
  | None => false
  end.

(** The item that a socket message puts in the queue, if any. *)
Definition enqueued (e : Event) : list AudioQueueItem :=
  match e with
  | Receive (Data type t a) =>
      if String.eqb type "text" || String.eqb type "audio"
      then [{| audio := a; text := t |}] else []
  | _ => []
  end.

(** Every event but a refused [play()]. *)
Definition benign (e : Event) : bool :=
  match e with
  | PlayRejected _ => false
  | _ => true
  end.

(** An element's URL is its position among the elements. *)
Definition numbered (l : list AudioElement) : Prop :=
  forall i el, l !! i = Some el -> src el = i.

(** The live URLs are those of the active elements; while [isPlaying] holds
    exactly one element is active, and otherwise none is and nothing
    waits. *)
Definition single_flight (c : Client) : Prop :=
  numbered (elements c) /\
  objectURLs c = List.map src (audible c) /\
  if isPlaying c then exists el, audible c = [el]
  else audible c = [] /\ audioQueue c = [].

(** The part of it that holds when [playNextInQueue] is called. *)
Definition pre_flight (c : Client) : Prop :=
  numbered (elements c) /\
  objectURLs c = List.map src (audible c) /\
  if isPlaying c then exists el, audible c = [el] else audible c = [].

(** *** Scenarios *)
Definition chunk (t a : string) : Event := Receive (Data "audio" t (Some a)).

(** A speech chunk is playing and nothing waits. *)
Definition playing_one : Client := onmessage opened (Data "audio" "One." (Some "UklGRg==")).

(** The same after its [play()] has been refused. *)
Definition refused_one : Client :=
  Eval vm_compute in
    match deliver playing_one (PlayRejected 0) with
    | Some c => c
    | None => opened
    end.

End VoiceChat.

(** ** utils.ts, read back

    The readers that mirror the setters of [DataView], and the encoder's
    buffer as the binary string that [String.fromCharCode] makes of it. *)
Module Container.
Import JsNum Utils.

(** [getUint16(offset, true)] and [getUint32(offset, true)]; [None] is the
    [RangeError] of a read that leaves the buffer. *)
Definition getUint16 (view : DataView) (offset : nat) : option Z :=
  lo ← view !! offset;
  hi ← view !! (offset + 1);
  Some (lo + 256 * hi)%Z.

Definition getUint32 (view : DataView) (offset : nat) : option Z :=
  b0 ← view !! offset;
  b1 ← view !! (offset + 1);
  b2 ← view !! (offset + 2);
  b3 ← view !! (offset + 3);
  Some (b0 + 256 * b1 + 65536 * b2 + 16777216 * b3)%Z.

(** The character codes of a string, as [writeString] stores them. *)
Definition codes (s : string) : list Z :=
  List.map (fun c => Z.of_N (N_of_ascii c)) (list_ascii_of_string s).

(** [String.fromCharCode(...bytes)] *)
Definition fromCharCodes (bytes : list Z) : string :=
  string_of_list_ascii (List.map (fun b => ascii_of_N (Z.to_N b)) bytes).

(** The integer that [setInt16] stores for a sample. *)
Definition stored (x : number) : Z := ToInt16 (pcmSample x).

(** The two steps of the sample loop on a finite sample, in closed form:
    the clamp to [[-1, 1]] and the scaling by the sign. *)
Definition saturate (q : Q) : Q :=
  if Qle_bool 1 q then 1%Q else if Qle_bool q (-1) then (-1)%Q else q.

Definition scale (c : Q) : Q :=
  if Qle_bool 0 c then (c * 32767)%Q else (c * 32768)%Q.

End Container.

(** ** VoiceAi.ts: the [chunking] callback given to [smoothStream]

    The callback sees the text buffered so far and answers with the chunk
    to release, or [null].  Strings are taken in the Latin-1 range, as in
    [JsString]. *)
Module Segmenter.
Import JsString.

(** What [.] does not match (no [s] flag): the line terminators LF and CR. *)
Definition is_line_terminator (c : ascii) : bool :=
  let n := nat_of_ascii c in (n =? 10) || (n =? 13).

(** The class [[.!?]]. *)
Definition is_sentence_end (c : ascii) : bool :=
  let n := nat_of_ascii c in (n =? 46) || (n =? 33) || (n =? 63).

(** [\s+], greedy, at the head of a string: the white space it takes and
    what it leaves. *)
Fixpoint take_white_space (s : string) : string * string :=
  match s with
  | EmptyString => (EmptyString, EmptyString)
  | String c r =>
      if is_white_space c
      then let (w, rest) := take_white_space r in (String c w, rest)
      else (EmptyString, s)
  end.

(** [(?:\s+|$)]: the text the group matches, if it matches.  Nothing
    follows the group in the pattern, so its first success stands. *)
Definition after_sentence (s : string) : option string :=
  match s with
  | EmptyString => Some EmptyString
  | String c _ => if is_white_space c then Some (fst (take_white_space s)) else None
  end.

(** [.+?[.!?](?:\s+|$)] once the lazy quantifier has taken one character:
    at each position the shortest continuation is tried first, and the
    quantifier grows by one character that is no line terminator when it
    fails.  The result is the text matched from this position on. *)
Fixpoint scan (s : string) : option string :=
  match s with
  | EmptyString => None
  | String c r =>
      match (if is_sentence_end c then after_sentence r else None) with
      | Some w => Some (String c w)
      | None =>
          if is_line_terminator c then None
          else option_map (String c) (scan r)
      end
  end.

(** [buf.match(/^(.+?[.!?])(?:\s+|$)/)]: [m[0]], or [None] for [null]. *)
Definition sentence_match (buf : string) : option string :=
  match buf with
  | EmptyString => None
  | String c r =>
      if is_line_terminator c then None else option_map (String c) (scan r)
  end.

Definition chunking (buf : string) : option string :=
  match sentence_match buf with
  | Some m0 => Some m0
  | None => if 120 <? String.length buf then Some buf else None
  end.

Fixpoint all_white_space (s : string) : bool :=
  match s with
  | EmptyString => true
  | String c r => is_white_space c && all_white_space r
  end.

(** The first character of a string is white space. *)
Definition starts_with_white_space (s : string) : bool :=
  match s with
  | EmptyString => false
  | String c _ => is_white_space c
  end.

(** No character of the string is a line terminator. *)
Fixpoint one_line (s : string) : bool :=
  match s with
  | EmptyString => true
  | String c r => negb (is_line_terminator c) && one_line r
  end.

End Segmenter.

(** ** VoiceAi.ts: the message listener while a turn is in flight

    [handleSession] registers an asynchronous listener.  While the turn of
    a binary frame is suspended at an await, the listener runs for the
    text frames that arrive: the event loop gives the object a resumption
    of the turn or a text frame, in any order. *)
Module Socket.
Import JsString VoiceAi.

Inductive Event :=
| Resume (s : Step)
| Frame (f : TextFrame).

Fixpoint serve (env : TurnEnv) (evs : list Event) (s : Session) (st : TurnSt)
  : option (Session * TurnSt) :=
  match evs with
  | [] => Some (s, st)
  | Resume x :: rest =>
      match step env st x with
      | None => None
      | Some (st', e) => serve env rest (apply_all s e) st'
      end
  | Frame f :: rest => serve env rest (onTextFrame s f) st
  end.

(** A binary frame arrives: [handleAudioInput] runs to its first await. *)
Definition onAudioStart (s : Session) : Session * TurnSt :=
  (apply_all s (snd start), fst start).

(** [{ type: "cmd", data: "clear" }] *)
Definition clear : TextFrame := Parsed "cmd" "clear".

(** The texts of the status messages of a trace. *)
Definition statuses (effs : list Effect) : list string :=
  omap (fun m => match m with Status t => Some t | _ => None end) (sent effs).

Definition is_finished (p : Phase) : bool :=
  match p with Finished => true | _ => false end.

(** What the loop and the queued job put into a message. *)
Definition well_formed_message (m : ServerMsg) : Prop :=
  match m with
  | Audio text audio =>
      truthy text = true /\ trim text = text /\ truthy audio = true
  | Text text => truthy text = true
  | _ => True
  end.

(** What the loop hands to the queue. *)
Definition unit_ok (u : SentenceUnit) : Prop :=
  truthy (sentence u) = true /\ trim (sentence u) = sentence u.

(** The greeting, with a clear command after the first delta. *)
Definition greeting_head : list Step := [TranscribeDone; StreamNext].
Definition greeting_tail : list Step :=
  [StreamNext; TtsDone; StreamNext; TtsDone; QueueIdle].

Definition greeting_at_clear : TurnSt * list Effect :=
  Eval vm_compute in
    match run greeting greeting_head (fst start) with
    | Some r => r
    | None => start
    end.

Definition greeting_cleared : Session * TurnSt :=
  Eval vm_compute in
    match serve greeting
            (List.map Resume greeting_head ++ Frame clear :: List.map Resume greeting_tail)
            (fst (onAudioStart handleSession)) (snd (onAudioStart handleSession)) with
    | Some r => r
    | None => onAudioStart handleSession
    end.

End Socket.

(** ** useVoiceChat.ts: the rest of the hook *)
Module Hook.
Import JsString VoiceChat.

(** The updater that [case "audio"] gives to [setMessages]. *)
Definition appendChunk (t : string) (prev : list Message) : list Message :=
  match last_message prev with
  | Some lastMsg =>
      match role lastMsg with
      | assistant =>
          removelast prev
          ++ [{| role := role lastMsg;
                 content := (content lastMsg ++ " " ++ t)%string |}]
      | _ => prev ++ [{| role := assistant; content := t |}]
      end
  | None => prev ++ [{| role := assistant; content := t |}]
  end.

(** What an event does to the transcript: the updaters that [case "text"]
    and, after it or on its own, [case "audio"] give to [setMessages]. *)
Definition transcribed (e : Event) (prev : list Message) : list Message :=
  match e with
  | Receive (Data type t _) =>
      if String.eqb type "text"
      then appendChunk t (prev ++ [{| role := user; content := t |}])
      else if String.eqb type "audio" then appendChunk t prev
      else prev
  | _ => prev
  end.




(** A message that is neither a transcript nor a speech chunk. *)
Definition control (d : Incoming) : bool :=
  match d with
  | Malformed => true
  | Data type _ _ => negb (String.eqb type "text") && negb (String.eqb type "audio")
  end.

(** An element plays the bytes that its item decodes to. *)
Definition decoded (el : AudioElement) : Prop :=
  decodeItem (source el) = Some (blob el).

(** *** [unlockAudio]

    [audioContext] is [audioContextRef.current] with the [state] of the
    context; the two counters are ghost fields that count the calls of
    [new AudioContext()] and of [resume()].  [resume()] is asynchronous:
    the state changes when the host gets to it, not during the call. *)
Inductive ContextState := suspended | running | closed.

Record AudioRefs := {
  audioUnlocked : bool;
  audioContext : option ContextState;
  contextsCreated : nat;
  resumeCalls : nat
}.

Definition mounted : AudioRefs :=
  {| audioUnlocked := false; audioContext := None;
     contextsCreated := 0; resumeCalls := 0 |}.

(** [fresh] is the state in which the host creates a context. *)
Definition unlockAudio (fresh : ContextState) (r : AudioRefs) : AudioRefs :=
  if audioUnlocked r then r
  else
    let r :=
      match audioContext r with
      | Some _ => r
      | None =>
          {| audioUnlocked := audioUnlocked r; audioContext := Some fresh;
             contextsCreated := S (contextsCreated r); resumeCalls := resumeCalls r |}
      end in
    let r :=
      match audioContext r with
      | Some suspended =>
          {| audioUnlocked := audioUnlocked r; audioContext := audioContext r;
             contextsCreated := contextsCreated r; resumeCalls := S (resumeCalls r) |}
      | _ => r
      end in
    {| audioUnlocked := true; audioContext := audioContext r;
       contextsCreated := contextsCreated r; resumeCalls := resumeCalls r |}.

(** What the host may do to the context between two calls. *)
Definition hostSets (state : ContextState) (r : AudioRefs) : AudioRefs :=
  {| audioUnlocked := audioUnlocked r;
     audioContext := option_map (fun _ => state) (audioContext r);
     contextsCreated := contextsCreated r; resumeCalls := resumeCalls r |}.

Inductive AudioEvent :=
| Unlock (fresh : ContextState)     (* [handleStart] calls [unlockAudio] *)
| HostSets (state : ContextState).  (* the context changes state *)

Definition audioStep (r : AudioRefs) (e : AudioEvent) : AudioRefs :=
  match e with
  | Unlock fresh => unlockAudio fresh r
  | HostSets state => hostSets state r
  end.

(** *** [handleChatClear] and the wire

    [socketOpen] is [wsRef.current && wsRef.current.readyState ===
    WebSocket.OPEN]; the second component is what is sent, as the server
    parses it. *)
Definition handleChatClear (socketOpen : bool) (c : Client)
  : Client * list VoiceAi.TextFrame :=
  (setMessages (fun _ => []) c,
   if socketOpen then [VoiceAi.Parsed "cmd" "clear"] else []).

(** A server message as the client parses it: [JSON.stringify] of the
    object literal, then [JSON.parse]. *)
Definition wire (m : VoiceAi.ServerMsg) : Incoming :=
  match m with
  | VoiceAi.Status t => Data "status" t None
  | VoiceAi.Text t => Data "text" t None
  | VoiceAi.Audio t a => Data "audio" t (Some a)
  | VoiceAi.Error t => Data "error" t None
  end.

(** *** Scenarios *)
Definition two_chunks : list Event :=
  [chunk "One." "UklGRg=="; chunk "Two." "UklGRg=="; PlayResolved 0; Ended 0].

Definition after_two_chunks : Client :=
  Eval vm_compute in
    match deliver_all opened two_chunks with
    | Some c => c
    | None => opened
    end.



(** A chunk plays; the chat is cleared; the next turn's transcript and a
    second chunk arrive. *)
Definition after_clear : list Event :=
  [Receive (wire (VoiceAi.Text "hi")); chunk "Two." "UklGRg=="].

Definition cleared_then_chunk : Client :=
  Eval vm_compute in
    match deliver_all (fst (handleChatClear true playing_one))
            (Receive (wire (VoiceAi.Status "Chat cleared")) :: after_clear) with
    | Some c => c
    | None => opened
    end.

End Hook.

(* ===================================================================== *)
(** * Part II: theorems                                                    *)
(* ===================================================================== *)

(** ** Base64 round trip *)
Module Base64Facts.
Import Base64.

Example btoa_RIFF : btoa "RIFF" = "UklGRg==".
Proof. reflexivity. Qed.

Example atob_RIFF : atob "UklGRg==" = Some "RIFF".
Proof. reflexivity. Qed.

Example atob_skips_whitespace : atob " Uk lGRg" = Some "RIFF".
Proof. reflexivity. Qed.

Example atob_rejects_length : atob "UklGR" = None.
Proof. reflexivity. Qed.

Example atob_rejects_alphabet : atob "Uk*G" = None.
Proof. reflexivity. Qed.

Ltac each_sextet s := destruct s as [[] [] [] [] [] []]; reflexivity.

Lemma decode_encode_char s : decode_char (encode_char s) = Some s.
Proof. each_sextet s. Qed.

Lemma encode_char_not_space s : is_ascii_whitespace (encode_char s) = false.
Proof. each_sextet s. Qed.

Lemma encode_char_not_pad s : Ascii.eqb (encode_char s) pad = false.
Proof. each_sextet s. Qed.

(** Induction three bytes at a time. *)
Lemma string_ind3 (P : string -> Prop) :
  P "" ->
  (forall a, P (String a "")) ->
  (forall a b, P (String a (String b ""))) ->
  (forall a b c r, P r -> P (String a (String b (String c r)))) ->
  forall s, P s.
Proof.
  intros H0 H1 H2 H3. fix IH 1.
  intros [|a [|b [|c r]]].
  - exact H0.
  - apply H1.
  - apply H2.
  - apply H3, IH.
Qed.

Lemma split3_eq a b c :
  exists p q r t, split3 a b c = (p, q, r, t) /\
    join1 p q = a /\ join2 q r = b /\ join3 r t = c.
Proof.
  destruct a, b, c. cbn. do 4 eexists. split; [reflexivity|].
  cbn. auto.
Qed.

Lemma btoa_shape s : btoa s = (encode_all (sextets s) ++ padding s)%string.
Proof.
  induction s as [|a|a b|a b c r IH] using string_ind3.
  - reflexivity.
  - cbn [btoa sextets padding]. destruct (split3 a zero zero) as [[[p q] r] t]. reflexivity.
  - cbn [btoa sextets padding]. destruct (split3 a b zero) as [[[p q] r] t]. reflexivity.
  - cbn [btoa sextets padding]. destruct (split3 a b c) as [[[p q] r'] t].
    cbn. now rewrite IH.
Qed.

Lemma decode_groups_sextets s : decode_groups (sextets s) = s.
Proof.
  induction s as [|a|a b|a b c r IH] using string_ind3.
  - reflexivity.
  - cbn [sextets]. destruct (split3_eq a zero zero) as (p & q & r & t & -> & Ha & _).
    cbn. now rewrite Ha.
  - cbn [sextets]. destruct (split3_eq a b zero) as (p & q & r & t & -> & Ha & Hb & _).
    cbn. now rewrite Ha, Hb.
  - cbn [sextets]. destruct (split3_eq a b c) as (p & q & r' & t & -> & Ha & Hb & Hc).
    cbn [decode_groups]. now rewrite Ha, Hb, Hc, IH.
Qed.

Lemma decode_chars_encode_all l : decode_chars (encode_all l) = Some l.
Proof.
  induction l as [|x l IH]; [reflexivity|].
  cbn. now rewrite decode_encode_char, IH.
Qed.

Lemma length_encode_all l : String.length (encode_all l) = length l.
Proof. induction l; cbn; congruence. Qed.

Lemma remove_whitespace_encode_all l t :
  remove_whitespace (encode_all l ++ t) = (encode_all l ++ remove_whitespace t)%string.
Proof.
  induction l as [|x l IH]; [reflexivity|].
  cbn. now rewrite encode_char_not_space, IH.
Qed.

Lemma drop_last_pad_encode_all l : drop_last_pad (encode_all l) = encode_all l.
Proof.
  induction l as [|x l IH]; [reflexivity|].
  cbn [encode_all drop_last_pad]. destruct (encode_all l) eqn:E.
  - now rewrite encode_char_not_pad.
  - now rewrite IH.
Qed.

Lemma drop_last_pad_snoc s : drop_last_pad (s ++ "=") = s.
Proof.
  induction s as [|c s IH]; [reflexivity|].
  cbn [String.append drop_last_pad]. rewrite IH.
  destruct s; reflexivity.
Qed.

Lemma length_append (s t : string) :
  String.length (s ++ t) = String.length s + String.length t.
Proof. induction s; cbn; congruence. Qed.

Lemma append_empty_r (s : string) : (s ++ "")%string = s.
Proof. induction s; cbn; congruence. Qed.

Lemma append_assoc (s t u : string) : ((s ++ t) ++ u)%string = (s ++ t ++ u)%string.
Proof. induction s; cbn; congruence. Qed.

Lemma padding_cases s : padding s = "" \/ padding s = "=" \/ padding s = "==".
Proof. induction s using string_ind3; cbn; auto. Qed.

Lemma strip_padding_btoa s : strip_padding (btoa s) = encode_all (sextets s).
Proof.
  rewrite btoa_shape. unfold strip_padding.
  set (x := encode_all (sextets s)).
  assert (Hx : drop_last_pad x = x) by apply drop_last_pad_encode_all.
  destruct (padding_cases s) as [-> | [-> | ->]].
  - now rewrite append_empty_r, Hx, Nat.eqb_refl.
  - rewrite drop_last_pad_snoc, length_append. cbn [String.length].
    destruct (Nat.eqb_spec (String.length x) (String.length x + 1)); [lia | exact Hx].
  - change "=="%string with ("=" ++ "=")%string.
    rewrite <- append_assoc, drop_last_pad_snoc, !length_append. cbn [String.length].
    destruct (Nat.eqb_spec (String.length x + 1) (String.length x + 1 + 1)); [lia|].
    apply drop_last_pad_snoc.
Qed.

Lemma mod4_step n : (4 + n) mod 4 = n mod 4.
Proof. replace (4 + n) with (n + 1 * 4) by lia. apply Nat.Div0.mod_add. Qed.

Lemma length_btoa_mod4 s : String.length (btoa s) mod 4 = 0.
Proof.
  induction s as [|a|a b|a b c r IH] using string_ind3.
  - reflexivity.
  - cbn [btoa]. destruct (split3 a zero zero) as [[[p q] r] t]. reflexivity.
  - cbn [btoa]. destruct (split3 a b zero) as [[[p q] r] t]. reflexivity.
  - cbn [btoa]. destruct (split3 a b c) as [[[p q] r'] t].
    cbn [String.length].
    change (S (S (S (S (String.length (btoa r)))))) with (4 + String.length (btoa r)).
    now rewrite mod4_step.
Qed.

Lemma length_sextets_mod4 s : length (sextets s) mod 4 <> 1.
Proof.
  induction s as [|a|a b|a b c r IH] using string_ind3.
  - cbn. lia.
  - cbn [sextets]. destruct (split3 a zero zero) as [[[p q] r] t]. cbn. lia.
  - cbn [sextets]. destruct (split3 a b zero) as [[[p q] r] t]. cbn. lia.
  - cbn [sextets]. destruct (split3 a b c) as [[[p q] r'] t].
    cbn [length].
    change (S (S (S (S (length (sextets r)))))) with (4 + length (sextets r)).
    now rewrite mod4_step.
Qed.

Lemma remove_whitespace_btoa s : remove_whitespace (btoa s) = btoa s.
Proof.
  rewrite btoa_shape, remove_whitespace_encode_all.
  now destruct (padding_cases s) as [-> | [-> | ->]].
Qed.

(** Decoding undoes encoding, for every byte string. *)
Lemma atob_btoa s : atob (btoa s) = Some s.
Proof.
  unfold atob. rewrite remove_whitespace_btoa, length_btoa_mod4.
  cbn [Nat.eqb]. rewrite strip_padding_btoa, length_encode_all.
  destruct (Nat.eqb_spec (length (sextets s) mod 4) 1) as [E|_].
  - now apply length_sextets_mod4 in E.
  - now rewrite decode_chars_encode_all; cbn; rewrite decode_groups_sextets.
Qed.

Lemma length_btoa s : String.length (btoa s) = 4 * ((String.length s + 2) / 3).
Proof.
  induction s as [|a|a b|a b c r IH] using string_ind3.
  - reflexivity.
  - cbn [btoa]. destruct (split3 a zero zero) as [[[p q] r] t]. reflexivity.
  - cbn [btoa]. destruct (split3 a b zero) as [[[p q] r] t]. reflexivity.
  - cbn [btoa]. destruct (split3 a b c) as [[[p q] r'] t].
    cbn [String.length]. rewrite IH.
    replace (S (S (S (String.length r))) + 2) with (String.length r + 2 + 1 * 3) by lia.
    rewrite Nat.div_add by lia. lia.
Qed.

Lemma btoa_append x y :
  String.length x mod 3 = 0 -> btoa (x ++ y) = (btoa x ++ btoa y)%string.
Proof.
  induction x as [|a|a b|a b c r IH] using string_ind3; intros H.
  - reflexivity.
  - discriminate H.
  - discriminate H.
  - cbn [String.append btoa]. destruct (split3 a b c) as [[[p q] r'] t].
    cbn [String.append]. rewrite IH; [reflexivity|].
    cbn [String.length] in H.
    replace (S (S (S (String.length r)))) with (String.length r + 1 * 3) in H by lia.
    now rewrite Nat.Div0.mod_add in H.
Qed.

(** *** Prefixes of strings *)
Lemma substring_exact x y : String.substring 0 (String.length x) (x ++ y) = x.
Proof. induction x as [|c x IH]; cbn; [now destruct y | now rewrite IH]. Qed.

Lemma substring_all n s : String.length s <= n -> String.substring 0 n s = s.
Proof.
  revert n. induction s as [|c s IH]; intros [|n] H; cbn in *; try reflexivity; try lia.
  rewrite IH; [reflexivity | lia].
Qed.

Lemma substring_split n s :
  n <= String.length s ->
  exists x y, s = (x ++ y)%string /\ String.length x = n /\ String.substring 0 n s = x.
Proof.
  revert s. induction n as [|n IH]; intros s H.
  - exists ""%string, s. repeat split. now destruct s.
  - destruct s as [|c s]; cbn in H; [lia|].
    destruct (IH s ltac:(lia)) as (x & y & -> & Hl & Hs).
    exists (String c x), y. cbn. rewrite Hs, Hl. auto.
Qed.

(** The first twenty characters of an encoding are the encoding of the
    first fifteen bytes, as soon as there are thirteen. *)
Lemma btoa_prefix s :
  13 <= String.length s ->
  String.substring 0 20 (btoa s) = btoa (String.substring 0 15 s).
Proof.
  intros H. destruct (Nat.le_gt_cases 15 (String.length s)) as [H15|H15].
  - destruct (substring_split 15 s H15) as (x & y & -> & Hl & ->).
    rewrite btoa_append by now rewrite Hl.
    replace 20 with (String.length (btoa x)) by now rewrite length_btoa, Hl.
    apply substring_exact.
  - rewrite (substring_all 15 s) by lia.
    apply substring_all. rewrite length_btoa.
    assert (String.length s = 13 \/ String.length s = 14) as [-> | ->] by lia;
      cbn; lia.
Qed.

End Base64Facts.

(** ** utils.ts: the classifier *)
Module SniffFacts.
Import Base64 JsString Utils Base64Facts.

Lemma riff_wave_not_sync d : riff_wave d = true -> frame_sync d = false.
Proof.
  unfold riff_wave, frame_sync, startsWith. intros H.
  apply andb_prop in H as [H _].
  apply prefix_correct in H.
  destruct d as [|c d]; [discriminate H|].
  cbn in H. injection H as -> _. reflexivity.
Qed.

Lemma sniff_short b : String.length b < 20 -> sniffAudioMime b = audio_wav.
Proof.
  intros H. unfold sniffAudioMime.
  destruct (Nat.ltb_spec (String.length b) 20); [|lia].
  now rewrite orb_true_r.
Qed.

Lemma sniff_long b :
  20 <= String.length b ->
  sniffAudioMime b =
    match atob (String.substring 0 20 b) with
    | None => audio_wav
    | Some decoded => if frame_sync decoded then audio_mpeg else audio_wav
    end.
Proof.
  intros H. unfold sniffAudioMime.
  destruct (Nat.eqb_spec (String.length b) 0); [lia|].
  destruct (Nat.ltb_spec (String.length b) 20); [lia|].
  cbn [orb]. destruct (atob _) as [d|]; [|reflexivity].
  fold (riff_wave d). fold (frame_sync d).
  destruct (riff_wave d) eqn:R; [|reflexivity].
  now rewrite (riff_wave_not_sync d R).
Qed.


Lemma frame_sync_prefix s : frame_sync (String.substring 0 15 s) = frame_sync s.
Proof. destruct s as [|a [|b r]]; reflexivity. Qed.

(** On the encoding of a payload the classifier is decided by the payload's
    length and its first two bytes. *)
Lemma sniff_btoa payload :
  sniffAudioMime (btoa payload) =
    if (13 <=? String.length payload) && frame_sync payload
    then audio_mpeg else audio_wav.
Proof.
  destruct (Nat.leb_spec 13 (String.length payload)) as [H|H]; cbn [andb].
  - rewrite sniff_long.
    + now rewrite btoa_prefix, atob_btoa, frame_sync_prefix.
    + rewrite length_btoa.
      assert (5 <= (String.length payload + 2) / 3)
        by (apply Nat.div_le_lower_bound; lia).
      lia.
  - apply sniff_short. rewrite length_btoa.
    assert ((String.length payload + 2) / 3 < 5)
      by (apply Nat.Div0.div_lt_upper_bound; lia).
    lia.
Qed.


Example sniff_wav_header :
  sniffAudioMime (btoa "RIFF$   WAVEfmt ") = audio_wav.
Proof. reflexivity. Qed.

Example sniff_mp3_frame :
  sniffAudioMime "//uQxAAAAAAAAAAAAAAAAAAAAAAA" = audio_mpeg.
Proof. reflexivity. Qed.

Example sniff_garbage : sniffAudioMime "!!not base64 at all!!" = audio_wav.
Proof. reflexivity. Qed.



End SniffFacts.

(** ** utils.ts: the WAV encoder *)
Module WavFacts.
Import JsNum Utils.

Local Open Scope Z_scope.

Lemma insert_after {A} (pre l : list A) (i : nat) (x : A) :
  <[(length pre + i)%nat := x]> (pre ++ l) = pre ++ <[i := x]> l.
Proof. induction pre as [|a pre IH]; cbn; [reflexivity | f_equal; exact IH]. Qed.

Lemma insert_at_length {A} (pre l : list A) (x : A) :
  <[length pre := x]> (pre ++ l) = pre ++ <[0%nat := x]> l.
Proof. rewrite <- (insert_after pre l 0). now rewrite Nat.add_0_r. Qed.

Lemma put16_after (pre rest : list Z) (a b u : Z) :
  put16 (pre ++ a :: b :: rest) (length pre) u = pre ++ le16 u ++ rest.
Proof.
  unfold put16.
  rewrite insert_at_length, insert_after. reflexivity.
Qed.

Lemma writeSamples_spec (samples : list number) :
  forall pre : list Z,
    writeSamples (pre ++ replicate (length samples * 2) 0) (length pre) samples
    = Some (pre ++ flat_map sampleBytes samples).
Proof.
  induction samples as [|x samples IH]; intros pre.
  - cbn. reflexivity.
  - cbn [writeSamples length Nat.mul Nat.add replicate flat_map].
    unfold setInt16, in_bounds.
    rewrite length_app. cbn [length].
    rewrite (proj2 (Nat.leb_le _ _)) by lia.
    rewrite put16_after.
    specialize (IH (pre ++ le16 (ToInt16 (pcmSample x) mod 65536))).
    rewrite length_app in IH. cbn [le16 length] in IH.
    rewrite <- !app_assoc in IH. cbn [app] in IH.
    cbn [le16 app sampleBytes]. exact IH.
Qed.

(** The encoder never leaves its buffer, and what it returns is the
    header followed by two bytes per sample. *)
Lemma encodeWavPCM16_bytes samples sampleRate :
  encodeWavPCM16 samples sampleRate
  = Some (wavHeader (length samples) sampleRate ++ flat_map sampleBytes samples).
Proof.
  unfold encodeWavPCM16.
  cbn -[ToUint ToInt16 Z.modulo Z.div Z.pow writeSamples of_Z of_nat Z.of_N N_of_ascii mul_const].
  exact (writeSamples_spec samples (wavHeader (length samples) sampleRate)).
Qed.

Lemma decode_after_header n sampleRate data :
  decodePCM16 (wavHeader n sampleRate ++ data) = readSamples data.
Proof. reflexivity. Qed.

Lemma ToInt16_range x : -32768 <= ToInt16 x < 32768.
Proof.
  unfold ToInt16, ToUint.
  pose proof (Z.mod_pos_bound (to_integer x) (2 ^ 16) ltac:(lia)) as H.
  change (2 ^ 16) with 65536 in *.
  destruct (Z.ltb_spec (to_integer x mod 65536) 32768); lia.
Qed.

Lemma getInt16_le16 t :
  -32768 <= t < 32768 ->
  getInt16 ((t mod 65536) mod 256) (((t mod 65536) / 256) mod 256) = t.
Proof.
  intros H. unfold getInt16.
  assert (E : (t mod 65536) mod 256 + 256 * (((t mod 65536) / 256) mod 256)
              = t mod 65536)
    by (Z.div_mod_to_equations; lia).
  rewrite E.
  destruct (Z.ltb_spec (t mod 65536) 32768); Z.div_mod_to_equations; lia.
Qed.

Lemma readSamples_sampleBytes samples :
  readSamples (flat_map sampleBytes samples)
  = List.map (fun x => ToInt16 (pcmSample x)) samples.
Proof.
  induction samples as [|x samples IH]; [reflexivity|].
  cbn [flat_map sampleBytes app readSamples List.map].
  now rewrite getInt16_le16, IH by apply ToInt16_range.
Qed.

(** What comes back from the container is what [setInt16] was given. *)
Lemma decode_encode samples sampleRate :
  exists wav,
    encodeWavPCM16 samples sampleRate = Some wav /\
    decodePCM16 wav = List.map (fun x => ToInt16 (pcmSample x)) samples.
Proof.
  eexists. split; [apply encodeWavPCM16_bytes|].
  now rewrite decode_after_header, readSamples_sampleBytes.
Qed.

Local Open Scope Q_scope.

Lemma lt_Fin p q : lt (Fin p) (Fin q) = true <-> p < q.
Proof.
  cbn. rewrite negb_true_iff. split.
  - intros H. apply Qnot_le_lt. intros L. apply Qle_bool_iff in L. congruence.
  - intros H. destruct (Qle_bool q p) eqn:E; [|reflexivity].
    apply Qle_bool_iff in E. lra.
Qed.

Lemma lt_Fin_false p q : lt (Fin p) (Fin q) = false <-> q <= p.
Proof.
  cbn. rewrite negb_false_iff. apply Qle_bool_iff.
Qed.

(** Clamping leaves a number of [[-1, 1]], unless it is given NaN. *)
Lemma clamp_range x :
  x <> NaN -> exists c, clamp x = Fin c /\ -1 <= c <= 1.
Proof.
  intros Hx. unfold clamp, of_Z.
  change (inject_Z 1) with 1. change (inject_Z (-1)) with (-1).
  destruct x as [q| | |]; [| | |congruence].
  - cbn [Math_min]. destruct (lt (Fin q) (Fin 1)) eqn:E1.
    + apply lt_Fin in E1. cbn [Math_max].
      destruct (lt (Fin (-1)) (Fin q)) eqn:E2.
      * apply lt_Fin in E2. exists q. split; [reflexivity | lra].
      * exists (-1). split; [reflexivity | lra].
    + exists 1. split; [reflexivity | lra].
  - exists 1. split; [reflexivity | lra].
  - exists (-1). split; [reflexivity | lra].
Qed.

(** A sample that is in range already is left alone. *)
Lemma clamp_id q : -1 <= q <= 1 -> exists c, clamp (Fin q) = Fin c /\ c == q.
Proof.
  intros H. unfold clamp, of_Z.
  change (inject_Z 1) with 1. change (inject_Z (-1)) with (-1).
  cbn [Math_min]. destruct (lt (Fin q) (Fin 1)) eqn:E1.
  - cbn [Math_max]. destruct (lt (Fin (-1)) (Fin q)) eqn:E2.
    + exists q. split; reflexivity.
    + apply lt_Fin_false in E2. exists (-1). split; [reflexivity | lra].
  - apply lt_Fin_false in E1. exists 1. split; [reflexivity | lra].
Qed.

(** Truncation toward zero moves a number by less than one, toward zero. *)
Lemma truncate_nonneg q :
  0 <= q -> (0 <= truncate q)%Z /\ inject_Z (truncate q) <= q /\ q < inject_Z (truncate q) + 1.
Proof.
  intros H. unfold truncate.
  destruct (Qle_bool 0 q) eqn:E.
  - repeat split.
    + change 0%Z with (Qfloor 0). now apply Qfloor_resp_le.
    + apply Qfloor_le.
    + pose proof (Qlt_floor q) as L. now rewrite inject_Z_plus in L.
  - assert (Qle_bool 0 q = true) by now apply Qle_bool_iff. congruence.
Qed.

Lemma truncate_neg q :
  q < 0 -> (truncate q <= 0)%Z /\ q <= inject_Z (truncate q) /\ inject_Z (truncate q) - 1 < q.
Proof.
  intros H. unfold truncate.
  destruct (Qle_bool 0 q) eqn:E.
  - apply Qle_bool_iff in E. lra.
  - repeat split.
    + change 0%Z with (Qceiling 0). apply Qceiling_resp_le. lra.
    + apply Qle_ceiling.
    + pose proof (Qceiling_lt q) as L.
      unfold Z.sub in L. rewrite inject_Z_plus in L. exact L.
Qed.

Lemma ToInt16_Fin q :
  (-32768 <= truncate q < 32768)%Z -> ToInt16 (Fin q) = truncate q.
Proof.
  intros H. unfold ToInt16, ToUint. cbn [to_integer].
  change (2 ^ 16)%Z with 65536%Z.
  destruct (Z.ltb_spec (truncate q mod 65536) 32768); Z.div_mod_to_equations; lia.
Qed.

(** One sample: the integer that is stored, scaled back, is within one
    step of the clamped sample. *)
Lemma quantize_step x c :
  clamp x = Fin c -> -1 <= c <= 1 ->
  Qabs (dequantize (ToInt16 (pcmSample x)) - c) < 1 # 32767.
Proof.
  intros Hc Hr. unfold pcmSample. rewrite Hc. unfold of_Z.
  change (inject_Z 0) with 0.
  destruct (lt (Fin c) (Fin 0)) eqn:E; cbn [mul_const].
  - apply lt_Fin in E.
    change (inject_Z (Z.pos 32768)) with 32768.
    destruct (truncate_neg (c * 32768) ltac:(lra)) as (Hz & Hlo & Hhi).
    set (t := truncate (c * 32768)) in *.
    assert (Hge : (-32768 <= t)%Z).
    { apply Qlt_le_weak in Hhi.
      assert (L : inject_Z (-32769) < inject_Z t).
      { change (inject_Z (-32769)) with (-32769). lra. }
      rewrite <- Zlt_Qlt in L. lia. }
    rewrite ToInt16_Fin by (fold t; lia).
    fold t. unfold dequantize.
    destruct (Z.ltb_spec t 0) as [Hneg|Hzero].
    + apply Qabs_Qlt_condition. unfold Qdiv. change (/ 32768) with (1 # 32768).
      split; lra.
    + assert (t = 0%Z) by lia. subst t. rewrite H in *.
      change (inject_Z 0) with 0 in *.
      apply Qabs_Qlt_condition. unfold Qdiv. change (/ 32767) with (1 # 32767).
      split; lra.
  - apply lt_Fin_false in E.
    change (inject_Z (Z.pos 32767)) with 32767.
    destruct (truncate_nonneg (c * 32767) ltac:(lra)) as (Hz & Hlo & Hhi).
    set (t := truncate (c * 32767)) in *.
    assert (Hle : (t <= 32767)%Z).
    { assert (L : inject_Z t <= inject_Z 32767).
      { change (inject_Z 32767) with 32767. lra. }
      now rewrite <- Zle_Qle in L. }
    rewrite ToInt16_Fin by (fold t; lia).
    fold t. unfold dequantize.
    destruct (Z.ltb_spec t 0) as [Hneg|_]; [lia|].
    apply Qabs_Qlt_condition. unfold Qdiv. change (/ 32767) with (1 # 32767).
    split; lra.
Qed.

Lemma within_step_map samples :
  Forall (fun x => x <> NaN) samples ->
  Forall2 (fun x s => within_step (dequantize s) x) samples
          (List.map (fun x => ToInt16 (pcmSample x)) samples).
Proof.
  induction 1 as [|x samples Hx _ IH]; cbn [List.map]; constructor; [|exact IH].
  destruct (clamp_range x Hx) as (c & Hc & Hr).
  unfold within_step. rewrite Hc.
  apply Qlt_le_weak. now apply quantize_step.
Qed.

(** C8, as the encoder has it.  For every array of samples none of which is
    NaN (finite of any magnitude, or infinite) and every sample rate, the
    encoder returns a container, and the 16-bit little-endian integers read
    back from behind its 44-byte header, scaled back by 32768 if negative
    and by 32767 otherwise, are each within 1/32767 of the input sample
    clamped to [[-1, 1]]. *)
Theorem encodeWavPCM16_round_trip samples sampleRate :
  Forall (fun x => x <> NaN) samples -> round_trips samples sampleRate.
Proof.
  intros H. destruct (decode_encode samples sampleRate) as (wav & E & D).
  exists wav. split; [exact E|]. rewrite D. now apply within_step_map.
Qed.

Lemma encodeWavPCM16_round_trip_witness :
  round_trips [Fin (1 # 2); Fin (-1 # 3); Fin 0; Fin 7; PosInf; NegInf] (of_Z 16000).
Proof.
  apply encodeWavPCM16_round_trip.
  repeat constructor; discriminate.
Defined.

(** C8 as stated, for every array of float samples, fails: NaN is a float
    sample, it is stored as the integer 0, and nothing is within a step of
    NaN. *)
Lemma round_trip_fails_on_NaN : ~ round_trips [NaN] (of_Z 16000).
Proof.
  intros (wav & E & F).
  rewrite encodeWavPCM16_bytes in E. injection E as <-.
  change (decodePCM16 _) with [0%Z] in F.
  inversion F as [|x s xs ss W _]; subst. exact W.
Qed.

Example NaN_is_stored_as_zero :
  option_map decodePCM16 (encodeWavPCM16 [NaN] (of_Z 16000)) = Some [0%Z].
Proof. reflexivity. Qed.

Example half_scale :
  option_map decodePCM16
    (encodeWavPCM16 [Fin (1 # 2); Fin (-1 # 2); Fin 1; Fin (-1); Fin 3] (of_Z 16000))
  = Some [16383; -16384; 32767; -32768; 32767]%Z.
Proof. reflexivity. Qed.

End WavFacts.

(** ** p-queue *)
Module PQueueFacts.
Import PQueue.

Section Jobs.
Context {Job : Type}.
Implicit Types (q : PQueue.t Job) (j : Job).

Lemma well_formed_empty : well_formed (@empty Job).
Proof. intros _. reflexivity. Qed.

Lemma well_formed_add q j : well_formed q -> well_formed (add q j).
Proof.
  unfold well_formed, add. intros W.
  destruct (running q); cbn; [discriminate | discriminate].
Qed.

Lemma well_formed_settle q : well_formed (settle q).
Proof. unfold well_formed, settle. destruct (waiting q); cbn; congruence. Qed.

(** A new job goes behind all the others. *)
Lemma jobs_add q j : well_formed q -> jobs (add q j) = jobs q ++ [j].
Proof.
  unfold well_formed, add, jobs. intros W.
  destruct (running q); cbn; [reflexivity|].
  now rewrite W.
Qed.

(** The job that settles is the first of all. *)
Lemma jobs_settle q j : running q = Some j -> jobs q = j :: jobs (settle q).
Proof.
  unfold jobs, settle. intros ->. destruct (waiting q); reflexivity.
Qed.

Lemma idle_jobs q : well_formed q -> idle q = true <-> jobs q = [].
Proof.
  unfold well_formed, idle, jobs. intros W.
  destruct (running q); [split; discriminate|].
  rewrite W by reflexivity. split; reflexivity.
Qed.

Lemma idle_running q : idle q = true -> running q = None.
Proof. unfold idle. destruct (running q); [discriminate | reflexivity]. Qed.

Lemma busy_running q :
  well_formed q -> idle q = false -> exists j, running q = Some j.
Proof.
  unfold well_formed, idle. intros W.
  destruct (running q) as [j|]; [eauto|].
  rewrite W by reflexivity. discriminate.
Qed.
End Jobs.
End PQueueFacts.

(** ** VoiceAi.ts: one turn under every schedule *)
Module TurnFacts.
Import JsString PQueue VoiceAi PQueueFacts.

(** *** Lists of sentences *)
Lemma sentences_app l1 l2 : sentences (l1 ++ l2) = sentences l1 ++ sentences l2.
Proof. unfold sentences. now rewrite List.map_app, List.filter_app. Qed.

Lemma sentences_truthy l : Forall (fun s => truthy s = true) (sentences l).
Proof.
  unfold sentences. apply List.Forall_forall. intros s H.
  now apply List.filter_In in H.
Qed.

Lemma join_sentences_snoc l s :
  join_sentences (l ++ [s])
  = (join_sentences l ++ (if truthy (join_sentences l) then " " else "") ++ s)%string.
Proof. unfold join_sentences. now rewrite List.fold_left_app. Qed.

Lemma length_units_from n l : length (units_from n l) = length l.
Proof. revert n. induction l; intros n; cbn; [reflexivity | now rewrite IHl]. Qed.

Lemma units_from_app n l1 l2 :
  units_from n (l1 ++ l2) = units_from n l1 ++ units_from (n + length l1) l2.
Proof.
  revert n. induction l1 as [|s l1 IH]; intros n; cbn.
  - now rewrite Nat.add_0_r.
  - rewrite IH. do 3 f_equal. lia.
Qed.

Lemma sequence_units_from n l : List.map sequence (units_from n l) = List.seq n (length l).
Proof. revert n. induction l; intros n; cbn; [reflexivity | now rewrite IHl]. Qed.

Lemma sentence_units_from n l : List.map sentence (units_from n l) = l.
Proof. revert n. induction l; intros n; cbn; [reflexivity | now rewrite IHl]. Qed.

(** *** Effect traces *)
Lemma sent_app e1 e2 : sent (e1 ++ e2) = sent e1 ++ sent e2.
Proof. apply omap_app. Qed.

Lemma pushed_app e1 e2 : pushed (e1 ++ e2) = pushed e1 ++ pushed e2.
Proof. apply omap_app. Qed.

Lemma audio_messages_app e1 e2 :
  audio_messages (e1 ++ e2) = audio_messages e1 ++ audio_messages e2.
Proof. unfold audio_messages. now rewrite sent_app, List.filter_app. Qed.

Lemma error_messages_app e1 e2 :
  error_messages (e1 ++ e2) = error_messages e1 ++ error_messages e2.
Proof. unfold error_messages. now rewrite sent_app, List.filter_app. Qed.

(** *** Schedules *)
Lemma run_app env s1 s2 st :
  run env (s1 ++ s2) st =
    match run env s1 st with
    | None => None
    | Some (st1, e1) =>
        match run env s2 st1 with
        | None => None
        | Some (st2, e2) => Some (st2, e1 ++ e2)
        end
    end.
Proof.
  revert st. induction s1 as [|s s1 IH]; intros st; cbn.
  - destruct (run env s2 st) as [[st2 e2]|]; reflexivity.
  - destruct (step env st s) as [[st1 e1]|]; [|reflexivity].
    rewrite IH. destruct (run env s1 st1) as [[st2 e2]|]; [|reflexivity].
    destruct (run env s2 st2) as [[st3 e3]|]; [|reflexivity].
    now rewrite app_assoc.
Qed.

(** An invariant of the steps holds after every schedule. *)
Lemma run_invariant env (P : TurnSt -> list Effect -> Prop) :
  (forall st effs s st' e,
      P st effs -> step env st s = Some (st', e) -> P st' (effs ++ e)) ->
  forall sched st0 pre st effs,
    P st0 pre -> run env sched st0 = Some (st, effs) -> P st (pre ++ effs).
Proof.
  intros Hstep. induction sched as [|s sched IH]; intros st0 pre st effs H0 R; cbn in R.
  - injection R as <- <-. now rewrite app_nil_r.
  - destruct (step env st0 s) as [[st1 e1]|] eqn:S; [|discriminate].
    destruct (run env sched st1) as [[st2 e2]|] eqn:R2; [|discriminate].
    injection R as <- <-. rewrite app_assoc.
    eapply IH; [|exact R2]. eapply Hstep; eassumption.
Qed.

Ltac step_inversion S :=
  unfold step in S;
  repeat match type of S with
         | context [match ?x with _ => _ end] => destruct x eqn:?
         end;
  try discriminate S; injection S as <- <-.

Lemma sentences_one c :
  sentences [c] = if truthy (trim c) then [trim c] else [].
Proof. unfold sentences. cbn. now destruct (truthy (trim c)). Qed.

Lemma running_jobs {Job} (q : PQueue.t Job) j : running q = Some j -> jobs q <> [].
Proof. unfold jobs. now intros ->. Qed.

Ltac simpl_fields :=
  cbn [phase pending fullResponse ttsQueue produced emitted] in *.

Ltac effects_simpl :=
  rewrite ?pushed_app, ?error_messages_app, ?audio_messages_app, ?app_nil_r;
  cbn [pushed sent error_messages audio_messages omap option_bind mbind
       List.filter is_error is_audio list_omap app];
  rewrite ?app_nil_r.

Lemma stream_inv_step env st effs s st' e :
  stream_inv env st effs -> queue_inv env st effs ->
  step env st s = Some (st', e) -> stream_inv env st' (effs ++ e).
Proof.
  intros HI (W & Hempty & settled & Hp & He & Ha) S.
  step_inversion S; unfold stream_inv in *; simpl_fields.
  all: repeat match goal with H : phase _ = _ |- _ => rewrite H in * end.
  - (* transcription gives text *)
    subst effs. destruct (Hempty eq_refl) as [_ Hp0].
    exists s0, []. cbn. repeat split; auto.
  - (* transcription gives nothing *)
    subst effs. destruct (Hempty eq_refl) as [Hj _]. left. auto.
  - (* the stream fails *)
    destruct HI as (t & seen & Ht & Hs & Hu & Hf & Hpu & Her).
    rewrite Heql, app_nil_r in Hs. subst seen.
    exists t, t0. effects_simpl. rewrite Hpu, Her. unfold units. repeat split; auto.
  - (* the stream ends *)
    destruct HI as (t & seen & Ht & Hs & Hu & Hf & Hpu & Her).
    rewrite Heql, app_nil_r in Hs. subst seen.
    exists t. effects_simpl. unfold units. repeat split; auto.
  - (* a delta that trims to nothing *)
    destruct HI as (t & seen & Ht & Hs & Hu & Hf & Hpu & Her).
    apply negb_true_iff in Heqb.
    exists t, (seen ++ [s0]). effects_simpl.
    rewrite sentences_app, sentences_one, Heqb, app_nil_r, <- app_assoc.
    rewrite Heql in Hs. repeat split; auto.
  - (* a delta that is a sentence, not the first *)
    destruct HI as (t & seen & Ht & Hs & Hu & Hf & Hpu & Her).
    apply negb_false_iff in Heqb.
    exists t, (seen ++ [s0]). effects_simpl.
    rewrite sentences_app, sentences_one, Heqb, <- app_assoc.
    rewrite Heql in Hs.
    rewrite units_from_app, join_sentences_snoc, Hu, Hf, length_units_from.
    rewrite Hf in Heqb0. rewrite Heqb0.
    repeat split; auto.
  - (* a delta that is the first sentence *)
    destruct HI as (t & seen & Ht & Hs & Hu & Hf & Hpu & Her).
    apply negb_false_iff in Heqb.
    exists t, (seen ++ [s0]). effects_simpl.
    rewrite sentences_app, sentences_one, Heqb, <- app_assoc.
    rewrite Heql in Hs.
    rewrite units_from_app, join_sentences_snoc, Hu, Hf, length_units_from.
    rewrite Hf in Heqb0. rewrite Heqb0.
    repeat split; auto.
  - (* a job settles with audio *)
    destruct (phase st) eqn:Ph; effects_simpl; auto.
    + destruct (Hempty eq_refl) as [Hj _]. now apply running_jobs in Heqo.
    + destruct HI as [(_ & _ & Hj) | (t & pre & _ & _ & _ & Hidle & _)].
      * now apply running_jobs in Heqo.
      * apply idle_running in Hidle. congruence.
  - (* a job settles without audio *)
    destruct (phase st) eqn:Ph; effects_simpl; auto.
    destruct HI as [(_ & _ & Hj) | (t & pre & _ & _ & _ & Hidle & _)].
    + now apply running_jobs in Heqo.
    + apply idle_running in Hidle. congruence.
  - (* the queue is idle after the stream has ended *)
    destruct HI as (t & Ht & Hend & Hu & Hf & Hpu & Her).
    right. exists t, effs. rewrite Hf. repeat split; auto.
Qed.

Lemma queue_inv_step env st effs s st' e :
  queue_inv env st effs ->
  step env st s = Some (st', e) -> queue_inv env st' (effs ++ e).
Proof.
  intros (W & Hempty & settled & Hp & He & Ha) S.
  assert (Hkeep : forall m, is_audio m = false ->
            audio_messages (effs ++ [Send m]) = omap (chunk_of env) settled).
  { intros m Hm. effects_simpl. now rewrite Hm, app_nil_r. }
  step_inversion S; unfold queue_inv; simpl_fields.
  all: repeat match goal with H : phase _ = _ |- _ => rewrite H in * end.
  - (* transcription gives text: the queue is created *)
    destruct (Hempty eq_refl) as [Hj Hp0]. rewrite Hj, app_nil_r in Hp.
    rewrite Hp0 in Hp. subst settled.
    split; [apply well_formed_empty|]. split; [discriminate|].
    exists []. effects_simpl. rewrite Hp0. repeat split; auto.
  - split; [assumption|]. split; [discriminate|]. exists settled. auto.
  - split; [assumption|]. split; [discriminate|]. exists settled. auto.
  - split; [assumption|]. split; [discriminate|]. exists settled.
    rewrite app_nil_r. auto.
  - split; [assumption|]. split; [discriminate|]. exists settled.
    rewrite app_nil_r. auto.
  - split; [now apply well_formed_add|]. split; [discriminate|]. exists settled.
    rewrite jobs_add, app_assoc, <- Hp by assumption. auto.
  - split; [now apply well_formed_add|]. split; [discriminate|]. exists settled.
    rewrite jobs_add, app_assoc, <- Hp by assumption. auto.
  - (* a job settles with audio *)
    split; [apply well_formed_settle|]. split.
    { intros Ph. destruct (Hempty Ph) as [Hj _]. now apply running_jobs in Heqo. }
    exists (settled ++ [s0]).
    rewrite <- app_assoc, Hp, (jobs_settle _ _ Heqo), List.filter_app, omap_app.
    effects_simpl. unfold speaks, chunk_of. rewrite Heqo0. cbn.
    rewrite He, Ha. auto.
  - (* a job settles without audio *)
    split; [apply well_formed_settle|]. split.
    { intros Ph. destruct (Hempty Ph) as [Hj _]. now apply running_jobs in Heqo. }
    exists (settled ++ [s0]).
    rewrite <- app_assoc, Hp, (jobs_settle _ _ Heqo), List.filter_app, omap_app.
    effects_simpl. unfold speaks, chunk_of. rewrite Heqo0. cbn.
    rewrite He, Ha, !app_nil_r. auto.
  - split; [assumption|]. split; [discriminate|]. exists settled.
    effects_simpl. auto.
Qed.

(** Both invariants hold whenever a schedule is accepted. *)
Lemma run_from_start env sched st effs :
  run env sched (fst start) = Some (st, effs) ->
  stream_inv env st effs /\ queue_inv env st effs.
Proof.
  intros R.
  apply (run_invariant env (fun st effs => stream_inv env st effs /\ queue_inv env st effs))
    with (pre := []) in R; [exact R | |].
  - intros st0 effs0 s st' e [HS HQ] S. split.
    + eapply stream_inv_step; eassumption.
    + eapply queue_inv_step; eassumption.
  - split.
    + reflexivity.
    + split; [apply well_formed_empty|]. split; [auto|]. exists []. auto.
Qed.

(** *** Termination: a turn cannot be resumed for ever *)
Lemma step_well_formed env st s st' e :
  well_formed (ttsQueue st) -> step env st s = Some (st', e) ->
  well_formed (ttsQueue st').
Proof.
  intros W S. step_inversion S; simpl_fields;
    auto using @well_formed_empty, @well_formed_add, @well_formed_settle.
Qed.

Lemma step_decreases env st s st' e :
  well_formed (ttsQueue st) -> step env st s = Some (st', e) ->
  remaining env st' < remaining env st.
Proof.
  intros W S. step_inversion S; unfold remaining; simpl_fields.
  all: repeat match goal with H : phase _ = _ |- _ => rewrite H in * end.
  all: repeat match goal with H : pending _ = _ |- _ => rewrite H in * end.
  all: rewrite ?jobs_add, ?length_app by assumption; cbn [length jobs empty running waiting].
  all: try (rewrite (jobs_settle _ _ Heqo); cbn [length]).
  all: lia.
Qed.

Lemma run_well_formed env sched st st' effs :
  well_formed (ttsQueue st) -> run env sched st = Some (st', effs) ->
  well_formed (ttsQueue st').
Proof.
  revert st effs. induction sched as [|s sched IH]; intros st effs W R; cbn in R.
  - now injection R as <- <-.
  - destruct (step env st s) as [[st1 e1]|] eqn:S; [|discriminate].
    destruct (run env sched st1) as [[st2 e2]|] eqn:R2; [|discriminate].
    injection R as <- <-. eapply IH; [|exact R2]. eapply step_well_formed; eassumption.
Qed.

(** An accepted schedule is no longer than the measure allows. *)
Lemma run_bounded env sched st st' effs :
  well_formed (ttsQueue st) -> run env sched st = Some (st', effs) ->
  length sched + remaining env st' <= remaining env st.
Proof.
  revert st effs. induction sched as [|s sched IH]; intros st effs W R; cbn in R.
  - injection R as <- <-. cbn. lia.
  - destruct (step env st s) as [[st1 e1]|] eqn:S; [|discriminate].
    destruct (run env sched st1) as [[st2 e2]|] eqn:R2; [|discriminate].
    injection R as <- <-.
    pose proof (step_decreases _ _ _ _ _ W S).
    pose proof (IH _ _ (step_well_formed _ _ _ _ _ W S) R2).
    cbn [length]. lia.
Qed.

(** While the turn is not quiescent some resumption is pending. *)
Lemma progress env st :
  well_formed (ttsQueue st) -> quiescent st = false ->
  exists s st' e, step env st s = Some (st', e).
Proof.
  intros W Q. unfold quiescent in Q. destruct (phase st) eqn:Ph.
  - exists TranscribeDone. unfold step. rewrite Ph.
    destruct (transcribeAudio (whisper env)); eauto.
  - exists StreamNext. unfold step. rewrite Ph.
    destruct (pending st); [destruct (streamEnd env); eauto|].
    destruct (negb _); eauto.
  - destruct (idle (ttsQueue st)) eqn:I.
    + exists QueueIdle. unfold step. rewrite Ph, I. eauto.
    + destruct (busy_running _ W I) as [u Hu].
      exists TtsDone. unfold step. rewrite Hu.
      destruct (usable _); eauto.
  - destruct (busy_running _ W Q) as [u Hu].
    exists TtsDone. unfold step. rewrite Hu.
    destruct (usable _); eauto.
  - destruct (busy_running _ W Q) as [u Hu].
    exists TtsDone. unfold step. rewrite Hu.
    destruct (usable _); eauto.
Qed.

(** Every state can be run to quiescence. *)
Lemma run_to_quiescence env :
  forall n st,
    remaining env st <= n -> well_formed (ttsQueue st) ->
    exists sched st' effs, run env sched st = Some (st', effs) /\ quiescent st' = true.
Proof.
  induction n as [|n IH]; intros st Hn W.
  - destruct (quiescent st) eqn:Q.
    + exists [], st, []. auto.
    + destruct (progress env st W Q) as (s & st1 & e1 & S).
      pose proof (step_decreases _ _ _ _ _ W S). lia.
  - destruct (quiescent st) eqn:Q.
    + exists [], st, []. auto.
    + destruct (progress env st W Q) as (s & st1 & e1 & S).
      pose proof (step_decreases _ _ _ _ _ W S) as D.
      destruct (IH st1 ltac:(lia) (step_well_formed _ _ _ _ _ W S))
        as (sched & st2 & e2 & R & Q2).
      exists (s :: sched), st2, (e1 ++ e2). cbn. now rewrite S, R.
Qed.

(** A schedule that was accepted can be continued to quiescence. *)
Lemma turn_completes env sched st effs :
  turn env sched = Some (st, effs) ->
  exists more st' effs',
    turn env (sched ++ more) = Some (st', effs ++ effs') /\ quiescent st' = true.
Proof.
  unfold turn. intros T.
  destruct (run env sched (fst start)) as [[st0 e0]|] eqn:R; [|discriminate].
  injection T as <- <-.
  assert (W0 : well_formed (ttsQueue (fst start))) by apply well_formed_empty.
  pose proof (run_well_formed _ _ _ _ _ W0 R) as W.
  destruct (run_to_quiescence env _ st0 (Nat.le_refl _) W) as (more & st' & e' & R' & Q).
  exists more, st', e'. rewrite run_app, R, R'. now rewrite app_assoc.
Qed.

(** *** The session *)
Lemma apply_all_history s effs :
  msgHistory (apply_all s effs) = msgHistory s ++ pushed effs.
Proof.
  unfold apply_all. revert s. induction effs as [|e effs IH]; intros s; cbn.
  - now rewrite app_nil_r.
  - rewrite IH. destruct e; cbn; [reflexivity | now rewrite <- app_assoc].
Qed.

Lemma apply_all_transport s effs :
  transport (apply_all s effs) = transport s ++ sent effs.
Proof.
  unfold apply_all. revert s. induction effs as [|e effs IH]; intros s; cbn.
  - now rewrite app_nil_r.
  - rewrite IH. destruct e; cbn; [now rewrite <- app_assoc | reflexivity].
Qed.

Lemma turn_inv env sched st effs :
  turn env sched = Some (st, effs) ->
  exists effs0,
    effs = Send (Status "Processing....") :: effs0 /\
    run env sched (fst start) = Some (st, effs0) /\
    stream_inv env st effs0 /\ queue_inv env st effs0.
Proof.
  unfold turn. intros T.
  destruct (run env sched (fst start)) as [[st0 e0]|] eqn:R; [|discriminate].
  injection T as <- <-. exists e0.
  destruct (run_from_start _ _ _ _ R). auto.
Qed.

(** *** Joining sentences *)
Lemma concat_snoc sep l s :
  l <> [] -> String.concat sep (l ++ [s]) = (String.concat sep l ++ sep ++ s)%string.
Proof.
  induction l as [|x l IH]; [congruence|]. intros _.
  destruct l as [|y l].
  - reflexivity.
  - change (String.concat sep ((x :: y :: l) ++ [s]))
      with (x ++ sep ++ String.concat sep ((y :: l) ++ [s]))%string.
    rewrite IH by discriminate.
    change (String.concat sep (x :: y :: l))
      with (x ++ sep ++ String.concat sep (y :: l))%string.
    now rewrite !Base64Facts.append_assoc.
Qed.

Lemma truthy_append_r s t : truthy t = true -> truthy (s ++ t) = true.
Proof.
  unfold truthy. rewrite !negb_true_iff, !String.eqb_neq.
  intros H E. apply H. destruct s; [exact E | discriminate E].
Qed.

(** [fullResponse] is the sentences joined by single spaces. *)
Lemma join_sentences_concat l :
  Forall (fun s => truthy s = true) l -> join_sentences l = String.concat " " l.
Proof.
  induction l as [|s l IH] using rev_ind; [reflexivity|]. intros F.
  apply Forall_app in F as [Fl Fs]. inversion Fs as [|? ? Hs _]; subst.
  rewrite join_sentences_snoc, IH by assumption.
  destruct l as [|x l].
  - reflexivity.
  - rewrite concat_snoc by discriminate.
    rewrite <- IH by assumption.
    assert (T : truthy (join_sentences (x :: l)) = true).
    { destruct (@exists_last _ (x :: l)) as (l' & y & E); [discriminate|].
      rewrite E in *. apply Forall_app in Fl as [_ Fy].
      inversion Fy as [|? ? Hy _]; subst.
      rewrite join_sentences_snoc.
      rewrite <- Base64Facts.append_assoc. now apply truthy_append_r. }
    now rewrite T.
Qed.

(** *** The abort path: no transcription *)

Lemma abort_run env :
  transcribeAudio (whisper env) = None ->
  exists st, turn env [TranscribeDone] = Some (st, processing_idle)
             /\ quiescent st = true.
Proof.
  intros H. unfold turn. cbn. rewrite H. cbn. eauto.
Qed.

Lemma abort_path env sched st effs :
  transcribeAudio (whisper env) = None ->
  turn env sched = Some (st, effs) ->
  (phase st = Transcribing /\ effs = [Send (Status "Processing....")]) \/
  (phase st = Finished /\ quiescent st = true /\ effs = processing_idle).
Proof.
  intros H T. destruct (turn_inv _ _ _ _ T) as (effs0 & -> & _ & HS & HQ).
  unfold stream_inv in HS. unfold quiescent.
  destruct (phase st) eqn:Ph.
  - left. now subst effs0.
  - destruct HS as (t & ? & Ht & _). congruence.
  - destruct HS as (t & Ht & _). congruence.
  - right. destruct HS as [(_ & -> & Hj) | (t & ? & Ht & _)]; [|congruence].
    destruct HQ as (W & _). repeat split; auto. now apply idle_jobs.
  - destruct HS as (t & ? & Ht & _). congruence.
Qed.

Lemma abort_session env s sched s' st :
  transcribeAudio (whisper env) = None ->
  onAudioFrame s env sched = Some (s', st) ->
  msgHistory s' = msgHistory s /\
  (quiescent st = true ->
   transport s' = transport s ++ [Status "Processing...."; Status "Idle"]).
Proof.
  intros H F. unfold onAudioFrame in F.
  destruct (turn env sched) as [[st0 effs]|] eqn:T; [|discriminate].
  injection F as <- <-. rewrite apply_all_history, apply_all_transport.
  destruct (abort_path _ _ _ _ H T) as [(Ph & ->) | (Ph & Q & ->)].
  - cbn. rewrite app_nil_r. split; [reflexivity|].
    unfold quiescent. rewrite Ph. discriminate.
  - cbn. rewrite app_nil_r. auto.
Qed.

(** C5.  When the transcription of a frame comes back without text, or with
    the empty text, the turn can only be resumed once; it then has sent the
    Processing status and the Idle status and nothing else (no text, no audio,
    no error), it has pushed nothing to the history, no sentence was handed to
    the synthesis queue, and on a fresh session the history is still empty. *)
Theorem handleAudioInput_empty_transcription env :
  whisper env = Returns None \/ whisper env = Returns (Some "") ->
  (exists st, turn env [TranscribeDone] = Some (st, processing_idle)
              /\ quiescent st = true) /\
  (forall sched st effs,
      turn env sched = Some (st, effs) ->
      pushed effs = [] /\
      List.filter is_text (sent effs) = [] /\
      audio_messages effs = [] /\
      error_messages effs = [] /\
      (phase st = Transcribing \/ phase st = Finished) /\
      (quiescent st = true -> effs = processing_idle)) /\
  (forall s sched s' st,
      onAudioFrame s env sched = Some (s', st) ->
      msgHistory s' = msgHistory s /\
      (quiescent st = true ->
       transport s' = transport s ++ [Status "Processing...."; Status "Idle"])) /\
  (forall sched s' st,
      onAudioFrame handleSession env sched = Some (s', st) ->
      length (msgHistory s') = 0).
Proof.
  intros Hw.
  assert (H : transcribeAudio (whisper env) = None)
    by (destruct Hw as [-> | ->]; reflexivity).
  split; [now apply abort_run|]. split; [|split].
  - intros sched st effs T.
    destruct (abort_path _ _ _ _ H T) as [(Ph & ->) | (Ph & Q & ->)].
    + repeat split; auto. unfold quiescent. rewrite Ph. discriminate.
    + repeat split; auto.
  - intros s sched s' st F. eapply abort_session; eassumption.
  - intros sched s' st F.
    destruct (abort_session _ _ _ _ _ H F) as [-> _]. reflexivity.
Qed.

Lemma handleAudioInput_empty_transcription_witness :
  onAudioFrame handleSession silence [TranscribeDone] = Some silence_session /\
  msgHistory (fst silence_session) = [] /\
  transport (fst silence_session)
  = [Status "ready"; Status "Processing...."; Status "Idle"].
Proof.
  destruct (handleAudioInput_empty_transcription silence (or_introl eq_refl))
    as (_ & _ & Hsession & _).
  split; [reflexivity|].
  destruct (Hsession handleSession [TranscribeDone]
              (fst silence_session) (snd silence_session) eq_refl) as [Hh Ht].
  split; [exact Hh | exact (Ht eq_refl)].
Defined.

(** *** A raising transcription *)
Lemma step_same_transcription env w st s :
  transcribeAudio w = transcribeAudio (whisper env) ->
  step (with_whisper w env) st s = step env st s.
Proof.
  intros H. unfold step. destruct s, (phase st); cbn [whisper with_whisper];
    rewrite ?H; reflexivity.
Qed.

Lemma run_same_transcription env w sched st :
  transcribeAudio w = transcribeAudio (whisper env) ->
  run (with_whisper w env) sched st = run env sched st.
Proof.
  intros H. revert st. induction sched as [|s sched IH]; intros st; cbn.
  - reflexivity.
  - rewrite (step_same_transcription env w st s H).
    destruct (step env st s) as [[st1 e1]|]; [|reflexivity]. now rewrite IH.
Qed.

Lemma turn_same_transcription env w sched :
  transcribeAudio w = transcribeAudio (whisper env) ->
  turn (with_whisper w env) sched = turn env sched.
Proof. intros H. unfold turn. now rewrite run_same_transcription. Qed.

(** C10.  Whatever the transcription call throws, [transcribeAudio] returns
    null; the turn then runs exactly as it does for an empty transcription,
    under every schedule: Processing, Idle, no error message, nothing pushed
    to the history. *)
Theorem transcribeAudio_never_throws env e :
  whisper env = Throws e ->
  transcribeAudio (whisper env) = None /\
  (forall sched, turn env sched = turn (with_whisper (Returns (Some "")) env) sched) /\
  (forall sched, turn env sched = turn (with_whisper (Returns None) env) sched) /\
  (exists st, turn env [TranscribeDone] = Some (st, processing_idle)
              /\ quiescent st = true) /\
  (forall sched st effs,
      turn env sched = Some (st, effs) ->
      error_messages effs = [] /\
      pushed effs = [] /\
      (quiescent st = true -> effs = processing_idle)) /\
  (forall s sched s' st,
      onAudioFrame s env sched = Some (s', st) -> msgHistory s' = msgHistory s).
Proof.
  intros Hw.
  assert (H : transcribeAudio (whisper env) = None) by now rewrite Hw.
  split; [exact H|]. split; [|split; [|split; [|split]]].
  - intros sched. symmetry. apply turn_same_transcription. now rewrite H.
  - intros sched. symmetry. apply turn_same_transcription. now rewrite H.
  - now apply abort_run.
  - intros sched st effs T.
    destruct (abort_path _ _ _ _ H T) as [(Ph & ->) | (Ph & Q & ->)].
    + repeat split; auto. unfold quiescent. rewrite Ph. discriminate.
    + repeat split; auto.
  - intros s sched s' st F. eapply abort_session; eassumption.
Qed.

Lemma transcribeAudio_never_throws_witness :
  transcribeAudio (whisper whisper_down) = None /\
  turn whisper_down [TranscribeDone]
  = turn (with_whisper (Returns (Some "")) whisper_down) [TranscribeDone].
Proof.
  destruct (transcribeAudio_never_throws whisper_down
              (ErrorInstance "whisper unavailable") eq_refl)
    as (H & Hsame & _).
  split; [exact H | apply Hsame].
Defined.

(** *** The end of a turn *)
Lemma turn_start env : turn env [] = Some (fst start, snd start).
Proof. reflexivity. Qed.

(** What a turn that got a transcription has pushed and sent so far. *)
Lemma turn_progress env t sched st effs :
  transcribeAudio (whisper env) = Some t ->
  turn env sched = Some (st, effs) ->
  match phase st with
  | Transcribing => pushed effs = [] /\ error_messages effs = []
  | Streaming | Draining =>
      pushed effs = [user_turn t] /\ error_messages effs = []
  | Failed =>
      exists e, streamEnd env = Some e /\
                pushed effs = [user_turn t] /\
                error_messages effs = [Error (error_text e)]
  | Finished =>
      streamEnd env = None /\
      idle (ttsQueue st) = true /\
      error_messages effs = [] /\
      exists pre, effs = pre ++ [Push (assistant_turn env); Send (Status "Idle")] /\
                  pushed pre = [user_turn t]
  end.
Proof.
  intros Ht T. destruct (turn_inv _ _ _ _ T) as (effs0 & -> & _ & HS & _).
  unfold stream_inv in HS.
  change (Send (Status "Processing....") :: effs0)
    with ([Send (Status "Processing....")] ++ effs0).
  destruct (phase st).
  - subst effs0. auto.
  - destruct HS as (t' & seen & Ht' & _ & _ & _ & Hp & He).
    assert (t' = t) by congruence. subst t'. effects_simpl. auto.
  - destruct HS as (t' & Ht' & _ & _ & _ & Hp & He).
    assert (t' = t) by congruence. subst t'. effects_simpl. auto.
  - destruct HS as [(Hn & _) | (t' & pre & Ht' & Hend & _ & Hidle & Hp & He & ->)];
      [congruence|].
    assert (t' = t) by congruence. subst t'.
    repeat split; auto.
    + effects_simpl. now rewrite He.
    + exists ([Send (Status "Processing....")] ++ pre).
      unfold assistant_turn.
      rewrite <- join_sentences_concat by apply sentences_truthy.
      rewrite <- app_assoc. split; [reflexivity|]. effects_simpl. exact Hp.
  - destruct HS as (t' & e & Ht' & Hend & _ & Hp & He).
    assert (t' = t) by congruence. subst t'. exists e. effects_simpl. auto.
Qed.

(** Where a turn comes to rest. *)
Lemma turn_rests env t :
  transcribeAudio (whisper env) = Some t ->
  exists sched st effs,
    turn env sched = Some (st, effs) /\ quiescent st = true /\
    phase st = match streamEnd env with None => Finished | Some _ => Failed end.
Proof.
  intros Ht.
  destruct (turn_completes env [] _ _ (turn_start env)) as (sched & st & effs & T & Q).
  cbn [app] in T. exists sched, st, (snd start ++ effs). repeat split; auto.
  pose proof (turn_progress _ _ _ _ _ Ht T) as P.
  unfold quiescent in Q. destruct (phase st); try discriminate Q.
  - destruct P as (-> & _). reflexivity.
  - destruct P as (e & -> & _). reflexivity.
Qed.

(** A finished turn has pushed the user turn and the assistant turn. *)
Lemma assistant_turn_finished env t :
  transcribeAudio (whisper env) = Some t -> streamEnd env = None ->
  forall sched st effs,
    turn env sched = Some (st, effs) -> phase st = Finished ->
    idle (ttsQueue st) = true /\
    pushed effs = [user_turn t; assistant_turn env] /\
    exists pre, effs = pre ++ [Push (assistant_turn env); Send (Status "Idle")].
Proof.
  intros Ht Hend sched st effs T Ph.
  pose proof (turn_progress _ _ _ _ _ Ht T) as P. rewrite Ph in P.
  destruct P as (_ & Hidle & _ & pre & -> & Hp).
  repeat split; [exact Hidle | | eauto].
  effects_simpl. now rewrite Hp.
Qed.

(** C3.  With a transcription and a completion stream that ends normally,
    the turn can be run to the point where it has finished; whenever it has
    finished, the synthesis queue is idle, the history has received the user
    turn and then exactly one assistant turn, whose content is the sentences
    of the stream joined by single spaces, and the last two effects are this
    push and the Idle status.  Before that point no assistant turn has been
    pushed. *)
Theorem assistant_turn_committed env t :
  transcribeAudio (whisper env) = Some t -> streamEnd env = None ->
  (exists sched st effs,
      turn env sched = Some (st, effs) /\ quiescent st = true /\ phase st = Finished) /\
  (forall sched st effs,
      turn env sched = Some (st, effs) -> phase st = Finished ->
      idle (ttsQueue st) = true /\
      pushed effs = [user_turn t; assistant_turn env] /\
      exists pre, effs = pre ++ [Push (assistant_turn env); Send (Status "Idle")]) /\
  (forall sched st effs,
      turn env sched = Some (st, effs) -> phase st <> Finished ->
      pushed effs = [] \/ pushed effs = [user_turn t]) /\
  (forall s sched s' st,
      onAudioFrame s env sched = Some (s', st) -> phase st = Finished ->
      msgHistory s' = msgHistory s ++ [user_turn t; assistant_turn env] /\
      exists before, transport s' = before ++ [Status "Idle"]).
Proof.
  intros Ht Hend.
  pose proof (assistant_turn_finished env t Ht Hend) as Hfin.
  split; [|split; [exact Hfin | split]].
  - destruct (turn_rests env t Ht) as (sched & st & effs & T & Q & Ph).
    rewrite Hend in Ph. eauto 6.
  - intros sched st effs T Ph.
    pose proof (turn_progress _ _ _ _ _ Ht T) as P.
    destruct (phase st); [| | |congruence|].
    + left. apply P.
    + right. apply P.
    + right. apply P.
    + destruct P as (e & _ & Hp & _). auto.
  - intros s sched s' st F Ph. unfold onAudioFrame in F.
    destruct (turn env sched) as [[st0 effs]|] eqn:T; [|discriminate].
    injection F as <- <-.
    destruct (Hfin _ _ _ T Ph) as (_ & Hp & pre & ->).
    rewrite apply_all_history, apply_all_transport, Hp. split; [reflexivity|].
    exists (transport s ++ sent pre). rewrite sent_app, app_assoc. reflexivity.
Qed.

Lemma assistant_turn_committed_witness :
  onAudioFrame handleSession greeting greeting_schedule = Some greeting_session /\
  msgHistory (fst greeting_session)
  = [user_turn "hello";
     {| role := assistant; content := "Hello there. How can I help?" |}] /\
  exists before, transport (fst greeting_session) = before ++ [Status "Idle"].
Proof.
  destruct (assistant_turn_committed greeting "hello" eq_refl eq_refl)
    as (_ & _ & _ & Hsession).
  split; [reflexivity|].
  exact (Hsession handleSession greeting_schedule
           (fst greeting_session) (snd greeting_session) eq_refl eq_refl).
Defined.

(** C4.  With a transcription and a completion stream that raises, the turn
    can be run to the point where the failure has been reported; whenever it
    has, the history has received the user turn and nothing else, and exactly
    one error message has been sent, which carries the message of the error
    that was raised.  The turn never finishes, so no assistant turn is ever
    pushed, also not by the synthesis jobs that are still queued.  The
    session then takes the next binary frame like any other: its history is
    the old one with the user turn, and a following exchange appends to it. *)
Theorem completion_failure_not_committed env t e :
  transcribeAudio (whisper env) = Some t -> streamEnd env = Some e ->
  (exists sched st effs,
      turn env sched = Some (st, effs) /\ quiescent st = true /\ phase st = Failed) /\
  (forall sched st effs,
      turn env sched = Some (st, effs) ->
      phase st <> Finished /\
      (pushed effs = [] \/ pushed effs = [user_turn t]) /\
      (phase st = Failed ->
       pushed effs = [user_turn t] /\
       error_messages effs = [Error (error_text e)])) /\
  (forall s sched s1 st,
      onAudioFrame s env sched = Some (s1, st) -> phase st = Failed ->
      msgHistory s1 = msgHistory s ++ [user_turn t] /\
      In (Error (error_text e)) (transport s1) /\
      (forall next,
          exists s2 st2,
            onAudioFrame s1 next [] = Some (s2, st2) /\
            msgHistory s2 = msgHistory s1 /\
            transport s2 = transport s1 ++ [Status "Processing...."]) /\
      (forall next t2 sched2 s2 st2,
          transcribeAudio (whisper next) = Some t2 -> streamEnd next = None ->
          onAudioFrame s1 next sched2 = Some (s2, st2) -> phase st2 = Finished ->
          msgHistory s2
          = msgHistory s ++ [user_turn t; user_turn t2; assistant_turn next])).
Proof.
  intros Ht Hend.
  assert (Hall : forall sched st effs,
             turn env sched = Some (st, effs) ->
             phase st <> Finished /\
             (pushed effs = [] \/ pushed effs = [user_turn t]) /\
             (phase st = Failed ->
              pushed effs = [user_turn t] /\
              error_messages effs = [Error (error_text e)])).
  { intros sched st effs T.
    pose proof (turn_progress _ _ _ _ _ Ht T) as P.
    destruct (phase st).
    - repeat split; [discriminate | left; apply P | discriminate | discriminate].
    - repeat split; [discriminate | right; apply P | discriminate | discriminate].
    - repeat split; [discriminate | right; apply P | discriminate | discriminate].
    - destruct P as (Hnone & _). congruence.
    - destruct P as (e' & He' & Hp & Her).
      assert (e' = e) by congruence. subst e'.
      repeat split; [discriminate | now right | exact Hp | exact Her]. }
  split; [|split; [exact Hall|]].
  - destruct (turn_rests env t Ht) as (sched & st & effs & T & Q & Ph).
    rewrite Hend in Ph. eauto 6.
  - intros s sched s1 st F Ph. unfold onAudioFrame in F.
    destruct (turn env sched) as [[st0 effs]|] eqn:T; [|discriminate].
    injection F as <- <-.
    destruct (Hall _ _ _ T) as (_ & _ & Hf). destruct (Hf Ph) as [Hp Her].
    assert (Hh : msgHistory (apply_all s effs) = msgHistory s ++ [user_turn t])
      by now rewrite apply_all_history, Hp.
    split; [exact Hh|]. split; [|split].
    + rewrite apply_all_transport. apply in_or_app. right.
      assert (I : In (Error (error_text e)) (error_messages effs))
        by (rewrite Her; now left).
      unfold error_messages in I. now apply List.filter_In in I.
    + intros next. eexists _, _. split; [reflexivity|]. split; reflexivity.
    + intros next t2 sched2 s2 st2 Ht2 Hend2 F2 Ph2.
      pose proof (assistant_turn_finished next t2 Ht2 Hend2) as Hfin.
      unfold onAudioFrame in F2.
      destruct (turn next sched2) as [[st3 effs2]|] eqn:T2; [|discriminate].
      injection F2 as <- <-.
      destruct (Hfin _ _ _ T2 Ph2) as (_ & Hp2 & _).
      rewrite apply_all_history, Hh, Hp2, <- app_assoc. reflexivity.
Qed.

Lemma completion_failure_not_committed_witness :
  (exists sched st effs,
      turn broken_stream sched = Some (st, effs)
      /\ quiescent st = true /\ phase st = Failed) /\
  option_map (fun r => (msgHistory (fst r), transport (fst r)))
    (onAudioFrame handleSession broken_stream
       [TranscribeDone; StreamNext; StreamNext; TtsDone])
  = Some ([user_turn "hello"],
          [Status "ready"; Status "Processing...."; Text "hello";
           Status "Speaking..."; Error "stream reset";
           Audio "Hello there." "UklGRg=="]).
Proof.
  destruct (completion_failure_not_committed broken_stream "hello"
              (ErrorInstance "stream reset") eq_refl eq_refl)
    as (Hex & _ & _).
  split; [exact Hex | reflexivity].
Defined.

(** *** Order of emission *)
Lemma produced_numbered env sched st effs :
  run env sched (fst start) = Some (st, effs) ->
  List.map sequence (produced st) = List.seq 0 (length (produced st)).
Proof.
  intros R.
  apply (run_invariant env
           (fun st _ => List.map sequence (produced st)
                        = List.seq 0 (length (produced st))))
    with (pre := []) in R; [exact R | | reflexivity].
  clear. intros st effs s st' e H S.
  step_inversion S; simpl_fields; auto.
  all: rewrite List.map_app, length_app, List.seq_app, H; reflexivity.
Qed.

Lemma seq_sorted a n : StronglySorted lt (List.seq a n).
Proof.
  revert a. induction n as [|n IH]; intros a; cbn; constructor; [apply IH|].
  apply List.Forall_forall. intros x Hx. apply List.in_seq in Hx. lia.
Qed.

Lemma sorted_app_l {A} (R : A -> A -> Prop) l1 l2 :
  StronglySorted R (l1 ++ l2) -> StronglySorted R l1.
Proof.
  induction l1 as [|x l1 IH]; cbn; intros H; [constructor|].
  inversion H as [|? ? Hs Hf]; subst. constructor; [now apply IH|].
  now apply Forall_app in Hf as [Hf _].
Qed.

Lemma sorted_map_filter {A} (f : A -> nat) (p : A -> bool) l :
  StronglySorted lt (List.map f l) -> StronglySorted lt (List.map f (List.filter p l)).
Proof.
  induction l as [|x l IH]; cbn; intros H; [constructor|].
  inversion H as [|? ? Hs Hf]; subst.
  destruct (p x); cbn; [|now apply IH].
  constructor; [now apply IH|].
  apply List.Forall_forall. intros y Hy.
  apply List.in_map_iff in Hy as (z & <- & Hz).
  apply List.filter_In in Hz as [Hz _].
  rewrite List.Forall_forall in Hf. apply Hf. now apply List.in_map.
Qed.

Lemma filter_sublist {A} (p : A -> bool) l : sublist (List.filter p l) l.
Proof.
  induction l as [|x l IH]; cbn; [constructor|].
  destruct (p x); now constructor.
Qed.

Lemma omap_filter_speaks env l :
  omap (chunk_of env) (List.filter (speaks env) l) = omap (chunk_of env) l.
Proof.
  induction l as [|u l IH]; [reflexivity|].
  cbn [List.filter]. unfold speaks at 1.
  destruct (chunk_of env u) as [m|] eqn:E; cbn; rewrite E; cbn; now rewrite IH.
Qed.

Lemma length_omap_speaks env l :
  length (omap (chunk_of env) (List.filter (speaks env) l))
  = length (List.filter (speaks env) l).
Proof.
  induction l as [|u l IH]; [reflexivity|].
  cbn [List.filter]. destruct (speaks env u) eqn:S; [|exact IH].
  unfold speaks in S. cbn. destruct (chunk_of env u); [|discriminate S].
  cbn. now rewrite IH.
Qed.

(** What has been sent is what the settled jobs gave. *)
Lemma speech_order env sched st effs :
  turn env sched = Some (st, effs) ->
  audio_messages effs = omap (chunk_of env) (emitted st) /\
  exists settled,
    produced st = settled ++ jobs (ttsQueue st) /\
    emitted st = List.filter (speaks env) settled.
Proof.
  intros T. destruct (turn_inv _ _ _ _ T) as (effs0 & -> & R & _ & HQ).
  destruct HQ as (W & _ & settled & Hp & He & Ha).
  split; [|eauto].
  change (audio_messages (Send (Status "Processing....") :: effs0))
    with (audio_messages effs0).
  now rewrite Ha, He, omap_filter_speaks.
Qed.

(** C1.  At every point of every schedule of a turn, the audio messages that
    have gone to the transport are the speech chunks of the units in
    [emitted], in that order; these units carry strictly increasing sequence
    numbers; and a unit's sequence number is its position among the units
    produced.  The units produced split into those whose job has settled and
    those the queue still holds, of which one at most is executing: what has
    been emitted are the settled units that gave audio. *)
Theorem speech_chunks_in_order env sched st effs :
  turn env sched = Some (st, effs) ->
  audio_messages effs = omap (chunk_of env) (emitted st) /\
  length (audio_messages effs) = length (emitted st) /\
  StronglySorted lt (List.map sequence (emitted st)) /\
  sublist (emitted st) (produced st) /\
  List.map sequence (produced st) = List.seq 0 (length (produced st)) /\
  exists settled,
    produced st = settled ++ jobs (ttsQueue st) /\
    emitted st = List.filter (speaks env) settled /\
    audio_messages effs = omap (chunk_of env) settled /\
    length (option_list (running (ttsQueue st))) <= 1.
Proof.
  intros T. destruct (turn_inv _ _ _ _ T) as (effs0 & -> & R & _ & HQ).
  destruct HQ as (W & _ & settled & Hp & He & Ha).
  pose proof (produced_numbered _ _ _ _ R) as Hn.
  assert (Ha' : audio_messages (Send (Status "Processing....") :: effs0)
                = omap (chunk_of env) settled) by exact Ha.
  assert (Hs : StronglySorted lt (List.map sequence (emitted st))).
  { rewrite He. apply sorted_map_filter.
    apply (sorted_app_l _ _ (List.map sequence (jobs (ttsQueue st)))).
    rewrite <- List.map_app, <- Hp, Hn. apply seq_sorted. }
  assert (Hm : audio_messages (Send (Status "Processing....") :: effs0)
               = omap (chunk_of env) (emitted st))
    by now rewrite He, omap_filter_speaks.
  repeat split; auto.
  - rewrite Hm, He. apply length_omap_speaks.
  - rewrite He, Hp. etransitivity; [apply filter_sublist|].
    now apply sublist_inserts_r.
  - exists settled. repeat split; auto.
    destruct (running (ttsQueue st)); cbn; lia.
Qed.

Lemma speech_chunks_in_order_witness :
  turn flaky_synthesis flaky_schedule = Some flaky_final /\
  audio_messages (snd flaky_final)
  = [Audio "One." "UklGRg=="; Audio "Four." "UklGRg=="] /\
  List.map sequence (emitted (fst flaky_final)) = [0; 3] /\
  StronglySorted lt (List.map sequence (emitted (fst flaky_final))).
Proof.
  split; [reflexivity|]. split; [reflexivity|]. split; [reflexivity|].
  destruct (speech_chunks_in_order flaky_synthesis flaky_schedule
              (fst flaky_final) (snd flaky_final) eq_refl)
    as (_ & _ & Hsorted & _).
  exact Hsorted.
Defined.

Example flaky_synthesis_trace :
  sent (snd flaky_final)
  = [Status "Processing...."; Text "tell me more";
     Status "Speaking..."; Status "Speaking..."; Audio "One." "UklGRg==";
     Status "Speaking..."; Status "Speaking...";
     Audio "Four." "UklGRg=="; Status "Idle"].
Proof. reflexivity. Qed.

(** *** Failing synthesis calls *)
Lemma chunk_of_none env u :
  chunk_of env u = None <->
  usable (textToSpeech (maxArguments env)
                       (melotts env (sequence u) (sentence u))) = None.
Proof. unfold chunk_of. destruct (usable _); split; congruence. Qed.

Lemma quiescent_all_settled env t sched st effs :
  transcribeAudio (whisper env) = Some t ->
  turn env sched = Some (st, effs) -> quiescent st = true ->
  audio_messages effs = omap (chunk_of env) (units env).
Proof.
  intros Ht T Q. destruct (turn_inv _ _ _ _ T) as (effs0 & -> & R & HS & HQ).
  destruct HQ as (W & _ & settled & Hp & He & Ha).
  change (audio_messages (Send (Status "Processing....") :: effs0))
    with (audio_messages effs0).
  rewrite Ha. f_equal.
  unfold quiescent in Q. unfold stream_inv in HS.
  destruct (phase st); try discriminate Q.
  - apply (idle_jobs _ W) in Q. rewrite Q, app_nil_r in Hp.
    destruct HS as [(Hn & _) | (? & ? & _ & _ & Hu & _)]; congruence.
  - apply (idle_jobs _ W) in Q. rewrite Q, app_nil_r in Hp.
    destruct HS as (? & ? & _ & _ & Hu & _). congruence.
Qed.

(** C6.  A synthesis call that raises, or returns nothing, or returns an
    empty string, or returns a buffer whose conversion to a string raises
    (it has more bytes than the engine takes arguments), gives its unit no
    speech chunk.  Under every schedule, no
    audio message is sent for such a unit; the job of the unit settles all the
    same, so the queue goes on to the next one; and when the turn has come to
    rest, the audio messages sent are exactly the chunks of the units of the
    stream that did give audio, in the order of the units.  No error message
    results from a synthesis failure: with a stream that ends normally none is
    sent at all, and the turn can still be run until it has finished. *)
Theorem synthesis_failures_are_skipped env t :
  transcribeAudio (whisper env) = Some t ->
  (forall u e,
      melotts env (sequence u) (sentence u) = Throws e -> chunk_of env u = None) /\
  (forall u,
      melotts env (sequence u) (sentence u) = Returns (RespObject None) ->
      chunk_of env u = None) /\
  (forall u,
      melotts env (sequence u) (sentence u) = Returns (RespString "") ->
      chunk_of env u = None) /\
  (forall u bytes,
      melotts env (sequence u) (sentence u) = Returns (RespBytes bytes) ->
      (maxArguments env < N.of_nat (String.length bytes))%N ->
      chunk_of env u = None) /\
  (forall sched st effs,
      turn env sched = Some (st, effs) ->
      (forall u, chunk_of env u = None -> ~ In u (emitted st)) /\
      audio_messages effs = omap (chunk_of env) (emitted st) /\
      (forall u, running (ttsQueue st) = Some u ->
                 exists st' e, step env st TtsDone = Some (st', e)
                               /\ ttsQueue st' = settle (ttsQueue st)
                               /\ phase st' = phase st
                               /\ error_messages e = []) /\
      (quiescent st = true ->
       audio_messages effs = omap (chunk_of env) (units env))) /\
  (streamEnd env = None ->
   (forall sched st effs,
       turn env sched = Some (st, effs) -> error_messages effs = []) /\
   (exists sched st effs,
       turn env sched = Some (st, effs) /\ phase st = Finished /\
       audio_messages effs = omap (chunk_of env) (units env))).
Proof.
  intros Ht. split; [|split; [|split; [|split; [|split]]]].
  - intros u e H. unfold chunk_of. now rewrite H.
  - intros u H. unfold chunk_of. now rewrite H.
  - intros u H. unfold chunk_of. now rewrite H.
  - intros u bytes H L. unfold chunk_of. rewrite H. cbn [textToSpeech].
    apply N.leb_gt in L. now rewrite L.
  - intros sched st effs T.
    destruct (speech_order env sched st effs T) as (Hm & settled & Hp & He).
    repeat split.
    + intros u Hu Hin. rewrite He in Hin.
      apply List.filter_In in Hin as [_ Hs]. unfold speaks in Hs.
      now rewrite Hu in Hs.
    + exact Hm.
    + intros u Hu. unfold step. rewrite Hu.
      destruct (usable _); eexists _, _; repeat split; reflexivity.
    + intros Q. eapply quiescent_all_settled; eassumption.
  - intros Hend. split.
    + intros sched st effs T.
      pose proof (turn_progress _ _ _ _ _ Ht T) as P.
      destruct (phase st); try apply P.
      destruct P as (e & He & _). congruence.
    + destruct (turn_rests env t Ht) as (sched & st & effs & T & Q & Ph).
      rewrite Hend in Ph. exists sched, st, effs. repeat split; auto.
      eapply quiescent_all_settled; eassumption.
Qed.

Lemma synthesis_failures_are_skipped_witness :
  chunk_of flaky_synthesis {| sequence := 1; sentence := "Two." |} = None /\
  (exists sched st effs,
      turn flaky_synthesis sched = Some (st, effs) /\ phase st = Finished /\
      audio_messages effs = [Audio "One." "UklGRg=="; Audio "Four." "UklGRg=="]) /\
  chunk_of oversized_synthesis {| sequence := 0; sentence := "One." |} = None /\
  (exists sched st effs,
      turn oversized_synthesis sched = Some (st, effs) /\ phase st = Finished /\
      audio_messages effs = [Audio "Two." "UklGRg=="]).
Proof.
  destruct (synthesis_failures_are_skipped flaky_synthesis "tell me more" eq_refl)
    as (Hthrows & _ & _ & _ & _ & Hrest).
  destruct (synthesis_failures_are_skipped oversized_synthesis "go on" eq_refl)
    as (_ & _ & _ & Hbytes & _ & Hrest').
  split; [|split; [|split]].
  - apply (Hthrows _ (ErrorInstance "synthesis failed")). reflexivity.
  - destruct (Hrest eq_refl) as (_ & sched & st & effs & T & Ph & Ha).
    exists sched, st, effs. auto.
  - apply (Hbytes _ "RIFF and then some"); reflexivity.
  - destruct (Hrest' eq_refl) as (_ & sched & st & effs & T & Ph & Ha).
    exists sched, st, effs. auto.
Defined.

End TurnFacts.

(** ** useVoiceChat.ts *)
Module ClientFacts.
Import JsString VoiceChat.

(** Status and error messages, and messages of another type, touch neither
    the transcript nor the queue nor playback. *)
Lemma onmessage_other c type t a :
  String.eqb type "text" = false -> String.eqb type "audio" = false ->
  let c' := onmessage c (Data type t a) in
  messages c' = messages c /\ audioQueue c' = audioQueue c /\
  elements c' = elements c /\ isPlaying c' = isPlaying c /\
  objectURLs c' = objectURLs c.
Proof.
  intros Ht Ha. cbn. rewrite Ht, Ha.
  destruct (String.eqb type "status").
  - destruct (String.eqb t "ready"); [cbn; auto 6|].
    destruct (String.eqb t "Speaking..."); [cbn; auto 6|].
    destruct (String.eqb t "Idle"); cbn; auto 6.
  - destruct (String.eqb type "error"); cbn; auto 6.
Qed.

(** [case "text"] has no [break]: a transcript message is handled as a
    speech chunk as well. *)
Lemma onmessage_text_falls_through c t a :
  onmessage c (Data "text" t a)
  = onmessage (setMessages (fun prev => prev ++ [{| role := user; content := t |}]) c)
      (Data "audio" t a).
Proof. reflexivity. Qed.

Lemma playFrom_messages q : forall c, messages (playFrom q c) = messages c.
Proof.
  induction q as [|item rest IH]; intros c; cbn [playFrom]; [reflexivity|].
  destruct (decodeItem item); [reflexivity | now rewrite IH].
Qed.

Lemma playNextInQueue_messages c : messages (playNextInQueue c) = messages c.
Proof.
  unfold playNextInQueue. destruct (isPlaying c || _); [reflexivity|].
  apply playFrom_messages.
Qed.

(** C2, evaluated.  In every state of the client a transcript message leaves
    two new entries in the transcript, the user's and an assistant's with the
    same text; while a chunk is playing it also leaves an item without audio
    in the playback queue, and otherwise an attempt at playing that item is
    made at once.  On the opened socket, and while the chunk "One." plays: *)
Theorem transcript_message_enqueues :
  (forall c t a,
      messages (onmessage c (Data "text" t a))
      = messages c ++ [{| role := user; content := t |};
                       {| role := assistant; content := t |}]) /\
  (forall c t a,
      isPlaying c = true ->
      audioQueue (onmessage c (Data "text" t a))
      = audioQueue c ++ [{| audio := a; text := t |}]) /\
  messages (onmessage opened (Data "text" "hello" None))
  = [{| role := user; content := "hello" |};
     {| role := assistant; content := "hello" |}] /\
  audioQueue (onmessage playing_one (Data "text" "hello" None))
  = [{| audio := None; text := "hello" |}] /\
  messages (onmessage playing_one (Data "text" "hello" None))
  = [{| role := assistant; content := "One." |};
     {| role := user; content := "hello" |};
     {| role := assistant; content := "hello" |}].
Proof.
  split; [|split; [|repeat split; reflexivity]].
  - intros c t a. rewrite onmessage_text_falls_through.
    cbn [onmessage String.eqb Ascii.eqb Bool.eqb]. unfold caseAudio.
    rewrite playNextInQueue_messages. cbn [messages setMessages set_audioQueue].
    unfold last_message. rewrite rev_unit. cbn. now rewrite <- app_assoc.
  - intros c t a P. rewrite onmessage_text_falls_through.
    cbn [onmessage String.eqb Ascii.eqb Bool.eqb]. unfold caseAudio, playNextInQueue.
    cbn [isPlaying setMessages set_audioQueue]. rewrite P. reflexivity.
Qed.

Lemma transcript_message_enqueues_witness :
  audioQueue (onmessage playing_one (Data "text" "hello" None))
  = audioQueue playing_one ++ [{| audio := None; text := "hello" |}].
Proof.
  destruct transcript_message_enqueues as (_ & Hqueue & _).
  apply Hqueue. reflexivity.
Defined.

(** The queue at work when every chunk plays to its end. *)
Example three_chunks_play_in_turn :
  option_map (fun c => (List.map (fun el => text (source el)) (elements c),
                        List.map active (elements c), objectURLs c,
                        audioQueue c, isPlaying c))
    (deliver_all opened
       [chunk "One." "UklGRg=="; chunk "Two." "UklGRg=="; chunk "Three." "UklGRg==";
        PlayResolved 0; Ended 0; PlayResolved 1; Ended 1; PlayResolved 2; Ended 2])
  = Some (["One."; "Two."; "Three."], [false; false; false], [], [], false).
Proof. vm_compute. reflexivity. Qed.

Lemma playFrom_keeps_urls q u :
  forall c, In u (objectURLs c) -> In u (objectURLs (playFrom q c)).
Proof.
  induction q as [|item rest IH]; intros c H; cbn [playFrom]; [exact H|].
  destruct (decodeItem item).
  - cbn. apply in_or_app. now left.
  - now apply IH.
Qed.

(** C7, evaluated.  (1) The [catch] block revokes nothing: an object URL that
    is live when a [play()] is refused is live afterwards; so when [play()] is
    refused for the only chunk, the queue goes idle and the chunk's object URL
    is never revoked.  (2) When the first of three chunks fails to load, its
    [error] event starts the second chunk and the rejection of its [play()]
    starts the third: two elements are active at once. *)
Theorem playback_errors_break_the_queue :
  (forall c url c' u,
      deliver c (PlayRejected url) = Some c' ->
      In u (objectURLs c) -> In u (objectURLs c')) /\
  option_map (fun c => (objectURLs c, List.map active (elements c),
                        audioQueue c, isPlaying c))
    (deliver_all opened [chunk "One." "UklGRg=="; PlayRejected 0])
  = Some ([0], [false], [], false) /\
  option_map (fun c => (List.map (fun el => text (source el)) (audible c),
                        objectURLs c, audioQueue c))
    (deliver_all opened
       [chunk "One." "AAAA"; chunk "Two." "UklGRg=="; chunk "Three." "UklGRg==";
        MediaError 0; PlayRejected 0])
  = Some (["Two."; "Three."], [1; 2], []).
Proof.
  split; [|split; vm_compute; reflexivity].
  intros c url c' u D H. cbn in D.
  destruct (elements c !! url) as [el|]; [|discriminate D]. cbn in D.
  destruct (playPending el); [|discriminate D]. injection D as <-.
  unfold playFailed, playNextInQueue. cbn [isPlaying setIsSpeaking set_isPlaying orb audioQueue set_element set_elements].
  destruct (length (audioQueue c) =? 0); [exact H|].
  now apply playFrom_keeps_urls.
Qed.

Lemma playback_errors_break_the_queue_witness :
  deliver playing_one (PlayRejected 0) = Some refused_one /\
  In 0 (objectURLs refused_one) /\ audible refused_one = [].
Proof.
  destruct playback_errors_break_the_queue as (Hleak & _).
  split; [reflexivity|]. split; [|reflexivity].
  apply (Hleak playing_one 0 refused_one 0 eq_refl). now left.
Defined.

(** *** Order of playback, and single flight while no [play()] is refused *)
Lemma audible_app c el :
  audible (set_elements (elements c ++ [el]) c)
  = audible c ++ (if active el then [el] else []).
Proof. unfold audible. cbn. now rewrite List.filter_app. Qed.

(** Starting from a queue, [playFrom] turns its first playable item into an
    element and drops the items before it. *)
Lemma playFrom_order q :
  forall c, audioQueue c = q ->
    List.map source (elements (playFrom q c))
    ++ List.filter playable (audioQueue (playFrom q c))
    = List.map source (elements c) ++ List.filter playable q.
Proof.
  induction q as [|item rest IH]; intros c Hq; cbn [playFrom].
  - now rewrite Hq.
  - cbn [List.filter]. unfold playable at 2.
    destruct (decodeItem item) as [b|] eqn:D.
    + cbn. rewrite List.map_app, <- app_assoc. reflexivity.
    + rewrite IH by reflexivity. reflexivity.
Qed.

Lemma playNextInQueue_order c :
  List.map source (elements (playNextInQueue c))
  ++ List.filter playable (audioQueue (playNextInQueue c))
  = List.map source (elements c) ++ List.filter playable (audioQueue c).
Proof.
  unfold playNextInQueue. destruct (isPlaying c || _); [reflexivity|].
  now apply playFrom_order.
Qed.

Lemma set_element_sources url el el' c :
  elements c !! url = Some el -> source el' = source el ->
  List.map source (elements (set_element url el' c)) = List.map source (elements c).
Proof.
  intros Hl Hs. cbn. rewrite <- (list_insert_id (elements c) url el Hl) at 2.
  change (List.map source) with (fmap (M := list) source).
  rewrite !list_fmap_insert. now rewrite Hs.
Qed.

Lemma caseAudio_order t a c :
  List.map source (elements (caseAudio t a c))
  ++ List.filter playable (audioQueue (caseAudio t a c))
  = (List.map source (elements c) ++ List.filter playable (audioQueue c))
    ++ List.filter playable [{| audio := a; text := t |}].
Proof.
  unfold caseAudio. rewrite playNextInQueue_order. cbn [elements audioQueue setMessages set_audioQueue].
  now rewrite List.filter_app, app_assoc.
Qed.

Lemma onmessage_order c d :
  List.map source (elements (onmessage c d))
  ++ List.filter playable (audioQueue (onmessage c d))
  = (List.map source (elements c) ++ List.filter playable (audioQueue c))
    ++ List.filter playable (enqueued (Receive d)).
Proof.
  destruct d as [|type t a]; [cbn; now rewrite app_nil_r|].
  destruct (String.eqb_spec type "text") as [->|Nt].
  { cbn [onmessage enqueued String.eqb Ascii.eqb Bool.eqb orb].
    apply (caseAudio_order t a (setMessages _ c)). }
  destruct (String.eqb_spec type "audio") as [->|Na].
  { cbn [onmessage enqueued String.eqb Ascii.eqb Bool.eqb orb].
    apply caseAudio_order. }
  apply String.eqb_neq in Nt, Na.
  destruct (onmessage_other c type t a Nt Na) as (_ & Hq & He & _ & _).
  rewrite Hq, He. cbn [enqueued]. rewrite Nt, Na. cbn. now rewrite app_nil_r.
Qed.

Lemma revokeUrl_order url c :
  List.map source (elements (revokeUrl url c))
  ++ List.filter playable (audioQueue (revokeUrl url c))
  = List.map source (elements c) ++ List.filter playable (audioQueue c).
Proof. unfold revokeUrl. now rewrite playNextInQueue_order. Qed.

Lemma deliver_order c e c' :
  deliver c e = Some c' ->
  List.map source (elements c') ++ List.filter playable (audioQueue c')
  = (List.map source (elements c) ++ List.filter playable (audioQueue c))
    ++ List.filter playable (enqueued e).
Proof.
  intros E.
  destruct e as [d|url|url|url|url]; cbn [deliver enqueued] in *;
    [injection E as <-; apply onmessage_order | | | |].
  all: rewrite app_nil_r.
  all: destruct (elements c !! url) as [el|] eqn:L; [|discriminate E]; cbn in E.
  all: match type of E with (if ?b then _ else _) = _ =>
         destruct b; [injection E as <-|discriminate E] end.
  - now rewrite (set_element_sources url el _ c L).
  - unfold playFailed. rewrite playNextInQueue_order. cbn [audioQueue setIsSpeaking set_isPlaying elements].
    now rewrite (set_element_sources url el _ c L).
  - rewrite revokeUrl_order. now rewrite (set_element_sources url el _ c L).
  - rewrite revokeUrl_order. now rewrite (set_element_sources url el _ c L).
Qed.

(** The elements are created in the order in which their chunks arrived:
    whatever the events, the sources of the elements followed by the playable
    items still waiting are the playable items received. *)
Lemma playback_follows_arrival es :
  forall c c',
    deliver_all c es = Some c' ->
    List.map source (elements c') ++ List.filter playable (audioQueue c')
    = (List.map source (elements c) ++ List.filter playable (audioQueue c))
      ++ List.filter playable (flat_map enqueued es).
Proof.
  induction es as [|e es IH]; intros c c' D; cbn in D.
  - injection D as <-. cbn. now rewrite app_nil_r.
  - destruct (deliver c e) as [c1|] eqn:E; [|discriminate D].
    cbn in D. rewrite (IH _ _ D), (deliver_order _ _ _ E). cbn [flat_map].
    now rewrite List.filter_app, !app_assoc.
Qed.

Lemma numbered_insert l i el x :
  numbered l -> l !! i = Some el -> src x = src el -> numbered (<[i := x]> l).
Proof.
  intros N L S j y Hj. destruct (decide (i = j)) as [<-|Ne].
  - rewrite list_lookup_insert_eq in Hj by (eapply lookup_lt_Some; eassumption).
    injection Hj as <-. rewrite S. now apply N.
  - rewrite list_lookup_insert_ne in Hj by assumption. now apply N.
Qed.

Lemma numbered_snoc l x : numbered l -> src x = length l -> numbered (l ++ [x]).
Proof.
  intros N S j y Hj. destruct (decide (j < length l)) as [Lt|Ge].
  - rewrite lookup_app_l in Hj by assumption. now apply N.
  - rewrite lookup_app_r in Hj by lia.
    destruct (j - length l) as [|k] eqn:K; [|destruct k; discriminate Hj].
    injection Hj as <-. lia.
Qed.

Lemma lookup_In {A} (l : list A) i x : l !! i = Some x -> In x l.
Proof. intros H. apply list_elem_of_In. eapply list_elem_of_lookup_2, H. Qed.

Lemma filter_insert_single (l : list AudioElement) i el x :
  l !! i = Some el -> active el = true ->
  (exists y, List.filter active l = [y]) ->
  List.filter active l = [el] /\
  List.filter active (<[i := x]> l) = if active x then [x] else [].
Proof.
  intros L A (y & F).
  pose proof (take_drop_middle l i el L) as Hl.
  assert (Hi : <[i := x]> l = take i l ++ x :: drop (S i) l).
  { rewrite <- Hl at 1. rewrite insert_app_r_alt by (rewrite length_take; lia).
    rewrite length_take, Nat.min_l by (apply Nat.lt_le_incl; eapply lookup_lt_Some; eassumption).
    now rewrite Nat.sub_diag. }
  rewrite <- Hl in F. rewrite List.filter_app in F. cbn [List.filter] in F.
  rewrite A in F.
  destruct (List.filter active (take i l)) as [|z zs] eqn:Ft.
  - cbn in F. injection F as <- Fd.
    split.
    + rewrite <- Hl, List.filter_app, Ft. cbn [List.filter]. now rewrite A, Fd.
    + rewrite Hi, List.filter_app, Ft. cbn [List.filter app]. rewrite Fd.
      now destruct (active x).
  - cbn in F. injection F as _ F. destruct zs; discriminate F.
Qed.

Lemma playFrom_single_flight q :
  forall c,
    audioQueue c = q -> audible c = [] -> objectURLs c = [] ->
    numbered (elements c) -> (q = [] -> isPlaying c = false) ->
    single_flight (playFrom q c).
Proof.
  induction q as [|item rest IH]; intros c Hq Ha Hu Hn Hp; cbn [playFrom].
  - unfold single_flight. rewrite Ha, Hu, (Hp eq_refl).
    repeat split; auto.
  - destruct (decodeItem item) as [b|].
    + unfold single_flight, beginPlayback, audible in *. cbn.
      rewrite List.filter_app, Ha, Hu. cbn. repeat split; eauto.
      apply numbered_snoc; [exact Hn | reflexivity].
    + apply IH; cbn; auto.
Qed.

Lemma playNextInQueue_single_flight c :
  pre_flight c -> single_flight (playNextInQueue c).
Proof.
  intros (Hn & Hu & Hp). unfold playNextInQueue.
  destruct (isPlaying c) eqn:P; cbn [orb].
  - unfold single_flight. rewrite P. auto.
  - destruct (Nat.eqb_spec (length (audioQueue c)) 0) as [E|Ne].
    + unfold single_flight. rewrite P. repeat split; auto.
      now destruct (audioQueue c).
    + apply playFrom_single_flight; auto.
      now rewrite Hu, Hp.
Qed.

(** [onended] and [onerror]: the active element stops, its URL is revoked,
    and the next item is taken. *)
Lemma stop_and_advance c url el :
  single_flight c -> elements c !! url = Some el -> active el = true ->
  single_flight (revokeUrl url (set_element url (stopped el) c)).
Proof.
  intros (Hn & Hu & Hp) L A.
  assert (Hone : exists y, audible c = [y]).
  { destruct (isPlaying c); [exact Hp|].
    destruct Hp as [Hp _]. exfalso.
    assert (I : In el (audible c))
      by (apply List.filter_In; split; [eapply lookup_In; eassumption | exact A]).
    now rewrite Hp in I. }
  destruct (filter_insert_single _ _ _ (stopped el) L A Hone) as [F1 F2].
  unfold revokeUrl. apply playNextInQueue_single_flight.
  unfold pre_flight, audible in *. cbn in *.
  rewrite F2. rewrite F1 in Hu. rewrite Hu. cbn.
  rewrite (Hn _ _ L), Nat.eqb_refl. cbn.
  repeat split; auto. eapply numbered_insert; eauto.
Qed.

(** While no [play()] is refused, the queue is in single flight: one active
    element at most, whose URL is the only live one, and none while
    [isPlaying] is off. *)
Lemma single_flight_step c e c' :
  single_flight c -> benign e = true -> deliver c e = Some c' -> single_flight c'.
Proof.
  intros SF B D. pose proof SF as (Hn & Hu & Hp).
  assert (Hpre : pre_flight c).
  { split; [exact Hn|]. split; [exact Hu|].
    destruct (isPlaying c); [exact Hp | apply Hp]. }
  destruct e as [d|url|url|url|url]; cbn [deliver benign] in *; try discriminate B.
  - injection D as <-. destruct d as [|type t a]; [split; auto|].
    destruct (String.eqb_spec type "text") as [->|Nt];
      [|destruct (String.eqb_spec type "audio") as [->|Na]].
    + apply playNextInQueue_single_flight. exact Hpre.
    + apply playNextInQueue_single_flight. exact Hpre.
    + apply String.eqb_neq in Nt, Na.
      destruct (onmessage_other c type t a Nt Na) as (_ & Hq & He & Hi & Ho).
      unfold single_flight, audible. rewrite Hq, He, Hi, Ho. auto.
  - destruct (elements c !! url) as [el|] eqn:L; [|discriminate D]. cbn in D.
    destruct (playPending el && active el) eqn:PA; [|discriminate D].
    injection D as <-. apply andb_prop in PA as [_ A].
    assert (Hone : exists y, audible c = [y]).
    { destruct (isPlaying c); [exact Hp|].
      destruct Hp as [Hp _]. exfalso.
      assert (I : In el (audible c))
        by (apply List.filter_In; split; [eapply lookup_In; eassumption | exact A]).
      now rewrite Hp in I. }
    destruct (filter_insert_single _ _ _ (settled el true) L A Hone) as [F1 F2].
    unfold single_flight, audible in *. cbn in *.
    rewrite F2. rewrite F1 in Hu, Hp.
    split; [eapply numbered_insert; eauto|]. split; [exact Hu|].
    destruct (isPlaying c); [eauto|]. destruct Hp as [Hp _]. discriminate Hp.
  - destruct (elements c !! url) as [el|] eqn:L; [|discriminate D]. cbn in D.
    destruct (active el && negb (playPending el)) eqn:PA; [|discriminate D].
    injection D as <-. apply andb_prop in PA as [A _].
    apply stop_and_advance; assumption.
  - destruct (elements c !! url) as [el|] eqn:L; [|discriminate D]. cbn in D.
    destruct (active el) eqn:A; [|discriminate D].
    injection D as <-. apply stop_and_advance; assumption.
Qed.

Lemma single_flight_opened : single_flight opened.
Proof. repeat split. intros i el H. destruct i; discriminate H. Qed.

Lemma single_flight_always es :
  forall c c',
    single_flight c -> forallb benign es = true ->
    deliver_all c es = Some c' -> single_flight c'.
Proof.
  induction es as [|e es IH]; intros c c' SF B D; cbn in *.
  - now injection D as <-.
  - destruct (deliver c e) as [c1|] eqn:E; [|discriminate D].
    apply andb_prop in B as [Be Bes]. cbn in D.
    eapply IH; [|exact Bes|exact D]. eapply single_flight_step; eassumption.
Qed.

(** What the queue does keep.  From the opened socket, under any events: the
    chunks whose audio decodes are started in the order of their arrival,
    each once.  If moreover no [play()] is refused: one element at most is
    active, and the object URLs not yet revoked are those of the active
    elements. *)
Lemma playback_queue_discipline es c :
  deliver_all opened es = Some c ->
  List.map source (elements c) ++ List.filter playable (audioQueue c)
  = List.filter playable (flat_map enqueued es) /\
  (forallb benign es = true ->
   length (audible c) <= 1 /\ objectURLs c = List.map src (audible c)).
Proof.
  intros D. split.
  - now rewrite (playback_follows_arrival _ _ _ D).
  - intros B.
    destruct (single_flight_always _ _ _ single_flight_opened B D) as (_ & Hu & Hp).
    split; [|exact Hu].
    destruct (isPlaying c); [destruct Hp as [el ->] | destruct Hp as [-> _]]; cbn; lia.
Qed.

End ClientFacts.

(** ** utils.ts: the container and the blob *)
Module ContainerFacts.
Import Base64 JsString JsNum Utils Container Base64Facts SniffFacts WavFacts.

Local Open Scope Z_scope.

Lemma le16_value u : 0 <= u < 65536 -> u mod 256 + 256 * ((u / 256) mod 256) = u.
Proof. intros H. Z.div_mod_to_equations. lia. Qed.

Lemma le32_value u :
  0 <= u < 4294967296 ->
  u mod 256 + 256 * ((u / 256) mod 256) + 65536 * ((u / 65536) mod 256)
  + 16777216 * ((u / 16777216) mod 256) = u.
Proof.
  intros H.
  change 65536 with (256 * 256). change 16777216 with (256 * 256 * 256).
  rewrite <- !Z.div_div by lia.
  pose proof (Z.div_mod u 256 ltac:(lia)) as E0.
  pose proof (Z.div_mod (u / 256) 256 ltac:(lia)) as E1.
  pose proof (Z.div_mod (u / 256 / 256) 256 ltac:(lia)) as E2.
  pose proof (Z.mod_pos_bound u 256 ltac:(lia)) as B0.
  pose proof (Z.mod_pos_bound (u / 256) 256 ltac:(lia)) as B1.
  pose proof (Z.mod_pos_bound (u / 256 / 256) 256 ltac:(lia)) as B2.
  assert (0 <= u / 256 / 256 / 256 < 256) as B3.
  { split.
    - repeat apply Z.div_pos; lia.
    - rewrite !Z.div_div by lia. apply Z.div_lt_upper_bound; lia. }
  rewrite (Z.mod_small (u / 256 / 256 / 256) 256 B3).
  lia.
Qed.

Lemma ToUint_range w x : 0 < w -> 0 <= ToUint w x < 2 ^ w.
Proof. intros H. unfold ToUint. apply Z.mod_pos_bound. apply Z.pow_pos_nonneg; lia. Qed.

Lemma truncate_integer q z : (q == inject_Z z)%Q -> truncate q = z.
Proof.
  intros H. unfold truncate. destruct (Qle_bool 0 q).
  - rewrite (Qfloor_comp _ _ H). apply Qfloor_Z.
  - rewrite (Qceiling_comp _ _ H). apply Qceiling_Z.
Qed.

Lemma ToUint_of_Z w z : ToUint w (of_Z z) = z mod 2 ^ w.
Proof. unfold ToUint, of_Z. cbn [to_integer]. now rewrite (truncate_integer _ z). Qed.

Lemma ToUint_double w z : ToUint w (mul_const (of_Z z) 2) = (2 * z) mod 2 ^ w.
Proof.
  unfold ToUint, of_Z. cbn [mul_const to_integer].
  rewrite (truncate_integer _ (2 * z)); [reflexivity|].
  rewrite inject_Z_mult. ring.
Qed.

Lemma length_flat_map_sampleBytes samples :
  length (flat_map sampleBytes samples) = (2 * length samples)%nat.
Proof. induction samples as [|x l IH]; cbn; [reflexivity | rewrite IH; lia]. Qed.

Lemma sampleBytes_bytes x : Forall (fun b => 0 <= b < 256) (sampleBytes x).
Proof.
  unfold sampleBytes. repeat constructor; apply Z.mod_pos_bound; lia.
Qed.

Lemma le16_bytes u : Forall (fun b => 0 <= b < 256) (le16 u).
Proof. unfold le16. repeat constructor; apply Z.mod_pos_bound; lia. Qed.

Lemma le32_bytes u : Forall (fun b => 0 <= b < 256) (le32 u).
Proof. unfold le32. repeat constructor; apply Z.mod_pos_bound; lia. Qed.

Lemma wavHeader_bytes n sampleRate :
  Forall (fun b => 0 <= b < 256) (wavHeader n sampleRate).
Proof.
  unfold wavHeader.
  repeat (apply Forall_app; split);
    try apply le16_bytes; try apply le32_bytes; repeat constructor; lia.
Qed.

Lemma length_wavHeader n sampleRate : length (wavHeader n sampleRate) = 44%nat.
Proof. reflexivity. Qed.

Lemma container_bytes samples sampleRate :
  Forall (fun b => 0 <= b < 256)
         (wavHeader (length samples) sampleRate ++ flat_map sampleBytes samples).
Proof.
  apply Forall_app. split; [apply wavHeader_bytes|].
  induction samples as [|x l IH]; [constructor|].
  cbn [flat_map]. apply Forall_app. split; [apply sampleBytes_bytes | exact IH].
Qed.

(** X1.  [encodeWavPCM16] never throws, whatever the samples and the sample
    rate are (NaN and the infinities included): it returns a buffer of
    exactly 44 + 2n cells for n samples, and every cell holds a byte. *)
Theorem encodeWavPCM16_total samples sampleRate :
  exists wav,
    encodeWavPCM16 samples sampleRate = Some wav
    /\ length wav = (44 + 2 * length samples)%nat
    /\ Forall (fun b => 0 <= b < 256) wav.
Proof.
  eexists. split; [apply encodeWavPCM16_bytes|]. split.
  - rewrite length_app, length_wavHeader, length_flat_map_sampleBytes. reflexivity.
  - apply container_bytes.
Qed.

Ltac read_field :=
  unfold wavHeader, le32, le16, getUint32, getUint16;
  cbn -[Z.modulo Z.div Z.mul Z.add Z.pow ToUint of_Z of_nat mul_const flat_map];
  f_equal.

(** X2.  The header that [encodeWavPCM16] writes reads back, little-endian,
    as the canonical 44-byte PCM header: for an integer sample rate below
    2^31 and a file below 4 GiB the RIFF size is 36 + 2n, the format chunk
    has size 16, format 1 (PCM), one channel, the sample rate, a byte rate
    of twice the sample rate, block align 2 and 16 bits per sample, and the
    data size is 2n; the four tags are RIFF, WAVE, fmt and data. *)
Theorem encodeWavPCM16_header samples (rate : Z) :
  0 <= rate < 2147483648 ->
  2 * Z.of_nat (length samples) + 36 < 4294967296 ->
  exists wav,
    encodeWavPCM16 samples (of_Z rate) = Some wav
    /\ take 4 wav = codes "RIFF"
    /\ getUint32 wav 4 = Some (36 + 2 * Z.of_nat (length samples))
    /\ take 8 (drop 8 wav) = codes "WAVEfmt "
    /\ getUint32 wav 16 = Some 16
    /\ getUint16 wav 20 = Some 1
    /\ getUint16 wav 22 = Some 1
    /\ getUint32 wav 24 = Some rate
    /\ getUint32 wav 28 = Some (2 * rate)
    /\ getUint16 wav 32 = Some 2
    /\ getUint16 wav 34 = Some 16
    /\ take 4 (drop 36 wav) = codes "data"
    /\ getUint32 wav 40 = Some (2 * Z.of_nat (length samples)).
Proof.
  intros Hr Hn. eexists. split; [apply encodeWavPCM16_bytes|].
  repeat split; try reflexivity.
  - read_field. rewrite le32_value by (apply ToUint_range; lia).
    unfold of_nat. rewrite ToUint_of_Z. change (2 ^ 32) with 4294967296.
    rewrite Z.mod_small; lia.
  - read_field. rewrite le32_value by (apply ToUint_range; lia).
    rewrite ToUint_of_Z. change (2 ^ 32) with 4294967296.
    rewrite Z.mod_small; lia.
  - read_field. rewrite le32_value by (apply ToUint_range; lia).
    rewrite ToUint_double. change (2 ^ 32) with 4294967296.
    rewrite Z.mod_small; lia.
  - read_field. rewrite le32_value by (apply ToUint_range; lia).
    unfold of_nat. rewrite ToUint_of_Z. change (2 ^ 32) with 4294967296.
    rewrite Z.mod_small; lia.
Qed.

Lemma encodeWavPCM16_header_witness :
  exists wav,
    encodeWavPCM16 [Fin (1 # 2); Fin (- (1 # 4)); NaN] (of_Z 16000) = Some wav
    /\ take 4 wav = codes "RIFF"
    /\ getUint32 wav 4 = Some 42
    /\ take 8 (drop 8 wav) = codes "WAVEfmt "
    /\ getUint32 wav 16 = Some 16
    /\ getUint16 wav 20 = Some 1
    /\ getUint16 wav 22 = Some 1
    /\ getUint32 wav 24 = Some 16000
    /\ getUint32 wav 28 = Some 32000
    /\ getUint16 wav 32 = Some 2
    /\ getUint16 wav 34 = Some 16
    /\ take 4 (drop 36 wav) = codes "data"
    /\ getUint32 wav 40 = Some 6.
Proof.
  apply (encodeWavPCM16_header [Fin (1 # 2); Fin (- (1 # 4)); NaN] 16000); cbn; lia.
Defined.

End ContainerFacts.

(** ** utils.ts: the quantizer of the sample loop *)
Module QuantizerFacts.
Import JsNum Utils Container WavFacts.

Local Open Scope Q_scope.

Lemma clamp_Fin q : clamp (Fin q) = Fin (saturate q).
Proof.
  unfold clamp, saturate, of_Z.
  change (inject_Z 1) with 1. change (inject_Z (-1)) with (-1).
  cbn [Math_min lt]. destruct (Qle_bool 1 q) eqn:E1; cbn [negb].
  - reflexivity.
  - cbn [Math_max lt]. now destruct (Qle_bool q (-1)).
Qed.

Lemma saturate_range q : -1 <= saturate q <= 1.
Proof.
  unfold saturate. destruct (Qle_bool 1 q) eqn:E1; [lra|].
  destruct (Qle_bool q (-1)) eqn:E2; [lra|].
  assert (~ 1 <= q) by (intros L; apply Qle_bool_iff in L; congruence).
  assert (~ q <= -1) by (intros L; apply Qle_bool_iff in L; congruence).
  lra.
Qed.

Lemma saturate_mono p q : p <= q -> saturate p <= saturate q.
Proof.
  intros H. unfold saturate.
  destruct (Qle_bool 1 p) eqn:P1; destruct (Qle_bool 1 q) eqn:Q1;
    destruct (Qle_bool p (-1)) eqn:P2; destruct (Qle_bool q (-1)) eqn:Q2;
    repeat match goal with
    | E : Qle_bool _ _ = true |- _ => apply Qle_bool_iff in E
    | E : Qle_bool ?a ?b = false |- _ =>
        assert (~ a <= b) by (intros L; apply Qle_bool_iff in L; congruence); clear E
    end; lra.
Qed.

Lemma scale_mono c d : c <= d -> scale c <= scale d.
Proof.
  intros H. unfold scale.
  destruct (Qle_bool 0 c) eqn:C; destruct (Qle_bool 0 d) eqn:D;
    repeat match goal with
    | E : Qle_bool _ _ = true |- _ => apply Qle_bool_iff in E
    | E : Qle_bool ?a ?b = false |- _ =>
        assert (~ a <= b) by (intros L; apply Qle_bool_iff in L; congruence); clear E
    end; lra.
Qed.

Lemma truncate_mono a b : a <= b -> (truncate a <= truncate b)%Z.
Proof.
  intros H. unfold truncate.
  destruct (Qle_bool 0 a) eqn:A; destruct (Qle_bool 0 b) eqn:B.
  - now apply Qfloor_resp_le.
  - apply Qle_bool_iff in A.
    assert (~ 0 <= b) by (intros L; apply Qle_bool_iff in L; congruence). lra.
  - apply Qle_bool_iff in B.
    assert (~ 0 <= a) by (intros L; apply Qle_bool_iff in L; congruence).
    transitivity 0%Z.
    + change 0%Z with (Qceiling 0). apply Qceiling_resp_le. lra.
    + change 0%Z with (Qfloor 0). now apply Qfloor_resp_le.
  - now apply Qceiling_resp_le.
Qed.

Lemma scale_range c : -1 <= c <= 1 -> -32768 <= scale c <= 32767.
Proof.
  intros H. unfold scale. destruct (Qle_bool 0 c) eqn:C.
  - apply Qle_bool_iff in C. lra.
  - assert (~ 0 <= c) by (intros L; apply Qle_bool_iff in L; congruence). lra.
Qed.

Lemma truncate_inject z : truncate (inject_Z z) = z.
Proof.
  unfold truncate. destruct (Qle_bool 0 (inject_Z z)); [apply Qfloor_Z | apply Qceiling_Z].
Qed.

(** The stored integer of a finite sample, in closed form. *)
Lemma stored_Fin q : stored (Fin q) = truncate (scale (saturate q)).
Proof.
  pose proof (saturate_range q) as R. pose proof (scale_range _ R) as (Lo & Hi).
  apply truncate_mono in Lo, Hi.
  change (-32768) with (inject_Z (-32768)) in Lo.
  change 32767 with (inject_Z 32767) in Hi.
  rewrite truncate_inject in Lo, Hi.
  unfold stored, pcmSample. rewrite clamp_Fin. unfold of_Z.
  change (inject_Z 0) with 0. cbn [lt]. unfold scale in *.
  destruct (Qle_bool 0 (saturate q)); cbn [negb mul_const].
  - change (inject_Z (Z.pos 32767)) with 32767. apply ToInt16_Fin. lia.
  - change (inject_Z (Z.pos 32768)) with 32768. apply ToInt16_Fin. lia.
Qed.

(** X3.  The quantizer is monotone and never wraps around: a sample that is
    not below another is stored as an integer that is not below the
    other's, and every stored integer lies between those of the two
    infinities, -32768 and 32767. *)
Theorem stored_monotone p q :
  p <= q ->
  (stored NegInf = -32768 /\ stored NegInf <= stored (Fin p)
   /\ stored (Fin p) <= stored (Fin q)
   /\ stored (Fin q) <= stored PosInf /\ stored PosInf = 32767)%Z.
Proof.
  intros H.
  pose proof (ToInt16_range (pcmSample (Fin p))) as Rp.
  pose proof (ToInt16_range (pcmSample (Fin q))) as Rq.
  fold (stored (Fin p)) in Rp. fold (stored (Fin q)) in Rq.
  assert (stored NegInf = (-32768)%Z) as -> by reflexivity.
  assert (stored PosInf = 32767%Z) as -> by reflexivity.
  repeat split; try lia.
  rewrite !stored_Fin. now apply truncate_mono, scale_mono, saturate_mono.
Qed.

Lemma stored_monotone_witness :
  (stored NegInf = -32768 /\ stored NegInf <= stored (Fin (- (3 # 2)))
   /\ stored (Fin (- (3 # 2))) <= stored (Fin (1 # 3))
   /\ stored (Fin (1 # 3)) <= stored PosInf /\ stored PosInf = 32767)%Z.
Proof. apply (stored_monotone (- (3 # 2)) (1 # 3)). lra. Defined.

(** X4.  Samples outside [[-1, 1]] saturate: a finite sample of magnitude 1
    or more is stored as 32767 when it is positive and as -32768 when it
    is negative, whatever its size. *)
Theorem stored_saturates q :
  1 <= Qabs q ->
  stored (Fin q) = if Qle_bool 0 q then 32767%Z else (-32768)%Z.
Proof.
  intros H. rewrite stored_Fin. unfold saturate.
  destruct (Qle_bool 0 q) eqn:S.
  - apply Qle_bool_iff in S. rewrite Qabs_pos in H by exact S.
    apply Qle_bool_iff in H. rewrite H. reflexivity.
  - assert (q < 0) as N.
    { apply Qnot_le_lt. intros L. apply Qle_bool_iff in L. congruence. }
    rewrite Qabs_neg in H by lra.
    destruct (Qle_bool 1 q) eqn:E1; [apply Qle_bool_iff in E1; lra|].
    assert (Qle_bool q (-1) = true) as -> by (apply Qle_bool_iff; lra).
    reflexivity.
Qed.

Lemma stored_saturates_witness :
  stored (Fin (7 # 2)) = 32767%Z /\ stored (Fin (- (5 # 4))) = (-32768)%Z.
Proof.
  split.
  - apply (stored_saturates (7 # 2)). apply Qle_bool_iff. reflexivity.
  - apply (stored_saturates (- (5 # 4))). apply Qle_bool_iff. reflexivity.
Defined.

End QuantizerFacts.

(** ** utils.ts: [b64ToBlob] *)
Module BlobFacts.
Import Base64 JsString JsNum Utils Container Base64Facts SniffFacts WavFacts ContainerFacts.

Lemma encode_char_not_white_space s : is_white_space (encode_char s) = false.
Proof. each_sextet s. Qed.

Lemma remove_white_space_encode_all l t :
  remove_white_space (encode_all l ++ t) = (encode_all l ++ remove_white_space t)%string.
Proof.
  induction l as [|x l IH]; [reflexivity|].
  cbn. now rewrite encode_char_not_white_space, IH.
Qed.

Lemma remove_white_space_btoa s : remove_white_space (btoa s) = btoa s.
Proof.
  rewrite btoa_shape, remove_white_space_encode_all.
  now destruct (padding_cases s) as [-> | [-> | ->]].
Qed.

Lemma remove_white_space_idem s :
  remove_white_space (remove_white_space s) = remove_white_space s.
Proof.
  induction s as [|c r IH]; [reflexivity|].
  cbn. destruct (is_white_space c) eqn:E; [exact IH|].
  cbn. now rewrite E, IH.
Qed.

Lemma truthy_remove_white_space s :
  truthy (remove_white_space s) = true -> truthy s = true.
Proof. now destruct s. Qed.

(** The two guards of [b64ToBlob] are one: the cleaned string is not empty. *)
Lemma b64ToBlob_clean b :
  b64ToBlob (Some b) =
    if truthy (remove_white_space b) then
      match atob (remove_white_space b) with
      | Some binaryString =>
          Some {| bytes := binaryString; type := sniffAudioMime (remove_white_space b) |}
      | None => None
      end
    else None.
Proof.
  unfold b64ToBlob. destruct (truthy (remove_white_space b)) eqn:E.
  - now rewrite (truthy_remove_white_space b E).
  - now destruct (truthy b).
Qed.

Lemma truthy_btoa payload : payload <> "" -> truthy (btoa payload) = true.
Proof.
  intros H. induction payload as [|a|a b|a b c r _] using string_ind3.
  - congruence.
  - cbn [btoa]. destruct (split3 a zero zero) as [[[p q] r] t]. reflexivity.
  - cbn [btoa]. destruct (split3 a b zero) as [[[p q] r] t]. reflexivity.
  - cbn [btoa]. destruct (split3 a b c) as [[[p q] r'] t]. reflexivity.
Qed.

(** X5.  [b64ToBlob] undoes [btoa], white space or not: given the standard
    encoding of a non-empty payload, with white space and line breaks
    anywhere in it, it returns a blob of exactly the payload's bytes, typed
    [audio/mpeg] when the payload has thirteen bytes or more and starts
    with an MPEG frame sync, and [audio/wav] otherwise. *)
Theorem b64ToBlob_decodes (b payload : string) :
  payload <> "" ->
  remove_white_space b = btoa payload ->
  b64ToBlob (Some b) =
    Some {| bytes := payload;
            type := if (13 <=? String.length payload) && frame_sync payload
                    then audio_mpeg else audio_wav |}.
Proof.
  intros Hp Hb.
  now rewrite b64ToBlob_clean, Hb, (truthy_btoa payload Hp), atob_btoa, sniff_btoa.
Qed.

Lemma b64ToBlob_decodes_witness :
  b64ToBlob (Some (String "010" " SGVs bG8s
 IGF1 ZGlvIQ== "))
  = Some {| bytes := "Hello, audio!"; type := audio_wav |}.
Proof.
  exact (b64ToBlob_decodes (String "010" " SGVs bG8s
 IGF1 ZGlvIQ== ") "Hello, audio!" ltac:(discriminate) eq_refl).
Defined.

(** X6.  [b64ToBlob] does not see white space: two inputs that differ only
    in white space (spaces, tabs, line breaks, NBSP) give the same result,
    be it the same blob or the same failure. *)
Theorem b64ToBlob_ignores_white_space (a b : string) :
  remove_white_space a = remove_white_space b ->
  b64ToBlob (Some a) = b64ToBlob (Some b).
Proof. intros H. now rewrite !b64ToBlob_clean, H. Qed.

Lemma b64ToBlob_ignores_white_space_witness :
  b64ToBlob (Some "SGVsbG8sIGF1ZGlvIQ==") = b64ToBlob (Some (String "009" "SGVs bG8sIGF1ZGlvIQ= =")).
Proof.
  apply (b64ToBlob_ignores_white_space
           "SGVsbG8sIGF1ZGlvIQ==" (String "009" "SGVs bG8sIGF1ZGlvIQ= =")).
  reflexivity.
Defined.

Lemma includes_cons c r p : includes r p = true -> includes (String c r) p = true.
Proof. intros H. cbn [includes]. rewrite H. apply orb_true_r. Qed.

Lemma codes_fromCharCodes l :
  Forall (fun b => (0 <= b < 256)%Z) l -> codes (fromCharCodes l) = l.
Proof.
  unfold codes, fromCharCodes. rewrite list_ascii_of_string_of_list_ascii.
  induction 1 as [|b l Hb _ IH]; [reflexivity|].
  cbn [List.map]. f_equal; [|exact IH].
  rewrite N_ascii_embedding by lia. lia.
Qed.

Lemma length_fromCharCodes l : String.length (fromCharCodes l) = length l.
Proof.
  unfold fromCharCodes. induction l as [|b l IH]; cbn; [reflexivity | now rewrite IH].
Qed.

(** X7.  What the encoder writes is what the classifier looks for: the
    buffer of [encodeWavPCM16], taken as a binary string and encoded with
    [btoa], carries the RIFF....WAVE signature in its sniffed prefix, and
    [b64ToBlob] turns it back into a blob of the very same bytes, typed
    [audio/wav], for every sample list and sample rate. *)
Theorem recording_is_wav samples sampleRate :
  exists wav,
    encodeWavPCM16 samples sampleRate = Some wav
    /\ riff_wave (String.substring 0 15 (fromCharCodes wav)) = true
    /\ b64ToBlob (Some (btoa (fromCharCodes wav)))
       = Some {| bytes := fromCharCodes wav; type := audio_wav |}
    /\ codes (fromCharCodes wav) = wav.
Proof.
  eexists. split; [apply encodeWavPCM16_bytes|].
  set (wav := wavHeader (length samples) sampleRate ++ flat_map sampleBytes samples).
  assert (riff_wave (String.substring 0 15 (fromCharCodes wav)) = true) as R.
  { subst wav.
    unfold wavHeader, le32, le16, fromCharCodes, riff_wave, startsWith.
    cbn -[Z.modulo Z.div Z.pow ToUint of_Z of_nat mul_const flat_map includes].
    do 8 apply includes_cons. reflexivity. }
  split; [exact R|]. split; [|apply codes_fromCharCodes, container_bytes].
  assert (13 <= String.length (fromCharCodes wav)) as Len.
  { rewrite length_fromCharCodes. subst wav.
    rewrite length_app, length_wavHeader. lia. }
  rewrite b64ToBlob_clean, remove_white_space_btoa, truthy_btoa, atob_btoa, sniff_btoa.
  - apply riff_wave_not_sync in R. rewrite frame_sync_prefix in R.
    now rewrite R, andb_false_r.
  - intros Z. rewrite Z in Len. cbn in Len. lia.
Qed.

End BlobFacts.

(** ** VoiceAi.ts: the [chunking] callback *)
Module SegmenterFacts.
Import JsString Segmenter Base64Facts.

Lemma take_white_space_spec s :
  s = (fst (take_white_space s) ++ snd (take_white_space s))%string
  /\ all_white_space (fst (take_white_space s)) = true
  /\ starts_with_white_space (snd (take_white_space s)) = false.
Proof.
  induction s as [|c r (E & A & N)]; [now cbn|].
  cbn [take_white_space]. destruct (is_white_space c) eqn:W.
  - destruct (take_white_space r) as [w rest]. cbn [fst snd] in *.
    repeat split.
    + cbn. now rewrite <- E.
    + cbn. now rewrite W, A.
    + exact N.
  - cbn. now rewrite W.
Qed.

Lemma after_sentence_spec s w :
  after_sentence s = Some w ->
  exists rest, s = (w ++ rest)%string /\ all_white_space w = true
               /\ starts_with_white_space rest = false.
Proof.
  destruct s as [|c r]; cbn [after_sentence].
  - intros [= <-]. now exists "".
  - destruct (is_white_space c) eqn:W; [|discriminate].
    intros [= <-]. exists (snd (take_white_space (String c r))).
    apply take_white_space_spec.
Qed.

(** The shape of a match: a body, a closing mark, the white space after it. *)
Lemma scan_spec s m :
  scan s = Some m ->
  exists body e w rest,
    s = (body ++ String e (w ++ rest))%string
    /\ m = (body ++ String e w)%string
    /\ is_sentence_end e = true
    /\ all_white_space w = true
    /\ starts_with_white_space rest = false.
Proof.
  revert m. induction s as [|c r IH]; intros m; cbn [scan]; [discriminate|].
  destruct (if is_sentence_end c then after_sentence r else None) as [w|] eqn:A.
  - intros [= <-]. destruct (is_sentence_end c) eqn:T; [|discriminate].
    destruct (after_sentence_spec r w A) as (rest & -> & Hw & Hr).
    now exists "", c, w, rest.
  - destruct (is_line_terminator c); [discriminate|].
    destruct (scan r) as [m'|]; [|discriminate].
    intros [= <-].
    destruct (IH m' eq_refl) as (body & e & w & rest & -> & -> & He & Hw & Hr).
    now exists (String c body), e, w, rest.
Qed.

Lemma sentence_match_spec buf m :
  sentence_match buf = Some m ->
  exists body e w rest,
    buf = (body ++ String e (w ++ rest))%string
    /\ m = (body ++ String e w)%string
    /\ body <> ""
    /\ is_sentence_end e = true
    /\ all_white_space w = true
    /\ starts_with_white_space rest = false.
Proof.
  destruct buf as [|c r]; cbn [sentence_match]; [discriminate|].
  destruct (is_line_terminator c); [discriminate|].
  destruct (scan r) as [m'|] eqn:S; [|discriminate].
  intros [= <-].
  destruct (scan_spec r m' S) as (body & e & w & rest & -> & -> & He & Hw & Hr).
  exists (String c body), e, w, rest. repeat split; try assumption. discriminate.
Qed.

Lemma append_String_assoc (x : string) e (w rest : string) :
  (x ++ String e (w ++ rest))%string = ((x ++ String e w) ++ rest)%string.
Proof. induction x as [|c x IH]; cbn; [reflexivity | now rewrite IH]. Qed.

(** X8.  The callback keeps the contract of [smoothStream]: the chunk it
    returns is never empty and is always a prefix of the buffer it was
    given. *)
Theorem chunking_returns_prefix (buf m : string) :
  chunking buf = Some m ->
  m <> "" /\ exists rest, buf = (m ++ rest)%string.
Proof.
  unfold chunking. destruct (sentence_match buf) as [m0|] eqn:S.
  - intros [= <-].
    destruct (sentence_match_spec buf m0 S) as (body & e & w & rest & -> & -> & _).
    split.
    + now destruct body.
    + exists rest. apply append_String_assoc.
  - destruct (Nat.ltb_spec 120 (String.length buf)) as [L|L]; [|discriminate].
    intros [= <-]. split.
    + intros ->. cbn in L. lia.
    + exists "". now rewrite append_empty_r.
Qed.

Lemma chunking_returns_prefix_witness :
  "Dr. " <> "" /\ exists rest, "Dr. Who is in. Next"= ("Dr. " ++ rest)%string.
Proof. apply (chunking_returns_prefix "Dr. Who is in. Next" "Dr. "). reflexivity. Defined.

Lemma sentence_end_not_white_space e :
  is_sentence_end e = true -> is_white_space e = false.
Proof. destruct e as [[] [] [] [] [] [] [] []]; vm_compute; congruence. Qed.

Lemma truthy_snoc x c w : truthy (x ++ String c w) = true.
Proof. now destruct x. Qed.

Lemma trimEnd_snoc_mark x e :
  is_white_space e = false -> trimEnd (x ++ String e "") = (x ++ String e "")%string.
Proof.
  intros He. induction x as [|c x IH].
  - cbn. now rewrite He.
  - cbn [append trimEnd]. rewrite IH, truthy_snoc. cbn [negb]. now rewrite andb_false_r.
Qed.

Lemma trimEnd_white w : all_white_space w = true -> trimEnd w = "".
Proof.
  induction w as [|c w IH]; [reflexivity|].
  cbn [all_white_space trimEnd]. intros H. apply andb_prop in H as [Hc Hw].
  now rewrite (IH Hw), Hc.
Qed.

Lemma trimEnd_white_suffix x w :
  all_white_space w = true -> trimEnd (x ++ w) = trimEnd x.
Proof.
  intros Hw. induction x as [|c x IH].
  - cbn. now apply trimEnd_white.
  - cbn [append trimEnd]. now rewrite IH.
Qed.

Lemma trimStart_before_mark y e w :
  is_white_space e = false ->
  exists s, trimStart (y ++ String e w) = (s ++ String e w)%string.
Proof.
  intros He. induction y as [|c y [s IH]].
  - exists "". cbn. now rewrite He.
  - cbn [append trimStart]. destruct (is_white_space c).
    + now exists s.
    + now exists (String c y).
Qed.

Lemma trim_sentence body e w :
  is_sentence_end e = true -> all_white_space w = true ->
  exists s, trim (body ++ String e w) = (s ++ String e "")%string.
Proof.
  intros He Hw. apply sentence_end_not_white_space in He.
  destruct (trimStart_before_mark body e w He) as [s E].
  exists s. unfold trim. rewrite E.
  change (String e w) with (String e ("" ++ w)).
  rewrite append_String_assoc, trimEnd_white_suffix by exact Hw.
  now apply trimEnd_snoc_mark.
Qed.

(** X9.  A chunk released from a buffer of at most 120 characters is a
    sentence: trimmed, as the reading loop trims it, it is not empty and
    its last character is one of [.], [!] and [?]; the loop therefore
    makes exactly one sentence unit of it. *)
Theorem chunking_releases_sentences (buf m : string) :
  chunking buf = Some m ->
  String.length buf <= 120 ->
  exists s e,
    trim m = (s ++ String e "")%string
    /\ is_sentence_end e = true
    /\ VoiceAi.sentences [m] = [trim m].
Proof.
  unfold chunking. intros H L. destruct (sentence_match buf) as [m0|] eqn:S.
  - injection H as <-.
    destruct (sentence_match_spec buf m0 S) as (body & e & w & rest & _ & -> & _ & He & Hw & _).
    destruct (trim_sentence body e w He Hw) as [s E].
    exists s, e. repeat split; [exact E | exact He |].
    unfold VoiceAi.sentences. cbn [List.map List.filter].
    now rewrite E, truthy_snoc.
  - destruct (Nat.ltb_spec 120 (String.length buf)); [lia | discriminate].
Qed.

Lemma chunking_releases_sentences_witness :
  exists s e,
    trim " Well... " = (s ++ String e "")%string
    /\ is_sentence_end e = true
    /\ VoiceAi.sentences [" Well... "] = [trim " Well... "].
Proof.
  apply (chunking_releases_sentences " Well... and then" " Well... ").
  - reflexivity.
  - cbn. lia.
Defined.

Lemma length_take_white_space_mark b e rest :
  is_white_space e = false ->
  String.length (fst (take_white_space (b ++ String e rest))) <= String.length b.
Proof.
  intros He. induction b as [|c b IH].
  - cbn. now rewrite He.
  - cbn [append take_white_space]. destruct (is_white_space c); [|cbn; lia].
    destruct (take_white_space (b ++ String e rest)) as [w r']. cbn in *. lia.
Qed.

Lemma length_after_sentence r w :
  after_sentence r = Some w -> String.length w = String.length (fst (take_white_space r)).
Proof.
  destruct r as [|c r]; cbn [after_sentence].
  - now intros [= <-].
  - destruct (is_white_space c) eqn:W; [|discriminate]. now intros [= <-].
Qed.

Lemma scan_complete body e rest :
  one_line body = true ->
  is_sentence_end e = true ->
  rest = "" \/ starts_with_white_space rest = true ->
  exists m,
    scan (body ++ String e rest) = Some m
    /\ String.length m
       <= String.length body + 1 + String.length (fst (take_white_space rest)).
Proof.
  intros Hb He Hr. induction body as [|c b IH].
  - cbn [append scan]. rewrite He.
    assert (exists w, after_sentence rest = Some w) as [w A].
    { destruct Hr as [-> | Hr]; [now exists ""|].
      destruct rest as [|c r]; [discriminate|]. cbn in Hr. cbn [after_sentence].
      rewrite Hr. eauto. }
    rewrite A. eexists. split; [reflexivity|].
    cbn. rewrite (length_after_sentence _ _ A). lia.
  - cbn [one_line] in Hb. apply andb_prop in Hb as [Hc Hb].
    apply negb_true_iff in Hc. destruct (IH Hb) as (m & S & Lm).
    cbn [append scan].
    destruct (if is_sentence_end c then after_sentence (b ++ String e rest) else None)
      as [w|] eqn:A.
    + eexists. split; [reflexivity|].
      destruct (is_sentence_end c); [|discriminate].
      pose proof (length_after_sentence _ _ A) as Lw.
      pose proof (length_take_white_space_mark b e rest
                    (sentence_end_not_white_space e He)) as Lb.
      cbn [String.length]. lia.
    + rewrite Hc, S. eexists. split; [reflexivity|]. cbn [String.length]. lia.
Qed.

(** X10.  The callback releases the first complete sentence: when the
    buffer holds, on one line, a non-empty text closed by [.], [!] or [?]
    that is followed by white space or by the end of the buffer, a chunk
    is released, and it reaches no further than that closing mark and the
    white space after it. *)
Theorem chunking_finds_first_sentence (buf body rest : string) (e : ascii) :
  buf = (body ++ String e rest)%string ->
  body <> "" ->
  one_line body = true ->
  is_sentence_end e = true ->
  rest = "" \/ starts_with_white_space rest = true ->
  exists m,
    chunking buf = Some m
    /\ String.length m
       <= String.length body + 1 + String.length (fst (take_white_space rest)).
Proof.
  intros -> Hne Hb He Hr. destruct body as [|c b]; [congruence|].
  cbn [one_line] in Hb. apply andb_prop in Hb as [Hc Hb].
  apply negb_true_iff in Hc.
  destruct (scan_complete b e rest Hb He Hr) as (m & S & L).
  unfold chunking. cbn [append sentence_match]. rewrite Hc, S. cbn [option_map].
  eexists. split; [reflexivity|]. cbn [String.length]. lia.
Qed.

Lemma chunking_finds_first_sentence_witness :
  exists m,
    chunking "It costs 3.50 now. Really? Yes" = Some m
    /\ String.length m
       <= String.length "It costs 3.50 now" + 1
          + String.length (fst (take_white_space " Really? Yes")).
Proof.
  apply (chunking_finds_first_sentence
           "It costs 3.50 now. Really? Yes" "It costs 3.50 now" " Really? Yes" ".").
  - reflexivity.
  - discriminate.
  - reflexivity.
  - reflexivity.
  - right. reflexivity.
Defined.

End SegmenterFacts.

(** ** VoiceAi.ts: what a turn sends, and the listener during a turn *)
Module SessionFacts.
Import JsString PQueue VoiceAi Socket Segmenter PQueueFacts TurnFacts SegmenterFacts.

Lemma statuses_app e1 e2 : statuses (e1 ++ e2) = statuses e1 ++ statuses e2.
Proof. unfold statuses. now rewrite sent_app, omap_app. Qed.

Lemma repeat_snoc {A} (x : A) n : repeat x (S n) = repeat x n ++ [x].
Proof. induction n as [|n IH]; [reflexivity|]. cbn [repeat] in *. now rewrite IH at 1. Qed.

Lemma statuses_step env st effs s st' e :
  statuses effs = repeat "Speaking..." (length (produced st))
                  ++ (if is_finished (phase st) then ["Idle"] else []) ->
  step env st s = Some (st', e) ->
  statuses (effs ++ e) = repeat "Speaking..." (length (produced st'))
                         ++ (if is_finished (phase st') then ["Idle"] else []).
Proof.
  intros H S. rewrite statuses_app, H.
  step_inversion S; simpl_fields;
    repeat match goal with E : phase st = _ |- _ => rewrite E end;
    cbn [is_finished statuses sent omap option_bind mbind list_omap app];
    rewrite ?app_nil_r; try reflexivity.
  all: try (rewrite length_app, Nat.add_comm; cbn [length Nat.add];
            now rewrite repeat_snoc).
Qed.

(** X11.  The status channel of a turn: after any accepted schedule the
    status messages sent are [Processing....], then one [Speaking...] for
    each sentence unit handed to the queue, then [Idle] exactly when the
    turn has finished.  A turn that fails or is still running has sent no
    [Idle]. *)
Theorem turn_status_trace env sched st effs :
  turn env sched = Some (st, effs) ->
  statuses effs =
    "Processing...." :: repeat "Speaking..." (length (produced st))
    ++ (if is_finished (phase st) then ["Idle"] else []).
Proof.
  unfold turn. intros T.
  destruct (run env sched (fst start)) as [[st0 e0]|] eqn:R; [|discriminate].
  injection T as <- <-.
  transitivity ("Processing...." :: statuses e0); [reflexivity|]. f_equal.
  apply (run_invariant env
           (fun st effs =>
              statuses effs = repeat "Speaking..." (length (produced st))
                              ++ (if is_finished (phase st) then ["Idle"] else [])))
    with (pre := []) in R; [exact R | | reflexivity].
  intros. eapply statuses_step; eassumption.
Qed.

Lemma turn_status_trace_witness :
  statuses (snd flaky_final) =
    "Processing...." :: repeat "Speaking..." (length (produced (fst flaky_final)))
    ++ (if is_finished (phase (fst flaky_final)) then ["Idle"] else []).
Proof.
  apply (turn_status_trace flaky_synthesis flaky_schedule (fst flaky_final) (snd flaky_final)).
  reflexivity.
Defined.

(** X12.  A turn cannot be resumed for ever and cannot get stuck: an
    accepted schedule has at most 2n + 4 resumptions for a stream of n
    deltas, and it can always be continued, within the same bound, to a
    state in which nothing is pending. *)
Theorem turn_terminates env sched st effs :
  turn env sched = Some (st, effs) ->
  length sched <= 2 * length (textStream env) + 4
  /\ exists more st' effs',
       turn env (sched ++ more) = Some (st', effs ++ effs')
       /\ quiescent st' = true
       /\ length (sched ++ more) <= 2 * length (textStream env) + 4.
Proof.
  intros T.
  assert (forall sched st effs,
             turn env sched = Some (st, effs) ->
             length sched <= 2 * length (textStream env) + 4) as Bound.
  { clear. unfold turn. intros sched st effs T.
    destruct (run env sched (fst start)) as [[st0 e0]|] eqn:R; [|discriminate].
    assert (W0 : well_formed (ttsQueue (fst start))) by apply well_formed_empty.
    pose proof (run_bounded env sched (fst start) st0 e0 W0 R) as B.
    unfold remaining at 2 in B. cbn in B. lia. }
  split; [eapply Bound; exact T|].
  destruct (turn_completes env sched st effs T) as (more & st' & effs' & T' & Q).
  exists more, st', effs'. repeat split; [exact T' | exact Q |].
  eapply Bound; exact T'.
Qed.

Lemma turn_terminates_witness :
  length greeting_head <= 2 * length (textStream greeting) + 4
  /\ exists more st' effs',
       turn greeting (greeting_head ++ more)
       = Some (st', (snd start ++ snd greeting_at_clear) ++ effs')
       /\ quiescent st' = true
       /\ length (greeting_head ++ more) <= 2 * length (textStream greeting) + 4.
Proof.
  apply (turn_terminates greeting greeting_head
           (fst greeting_at_clear) (snd start ++ snd greeting_at_clear)).
  reflexivity.
Defined.

Lemma trimStart_clean s : starts_with_white_space (trimStart s) = false.
Proof.
  induction s as [|c r IH]; [reflexivity|].
  cbn [trimStart]. destruct (is_white_space c) eqn:W; [exact IH|]. cbn. exact W.
Qed.

Lemma trimStart_id s : starts_with_white_space s = false -> trimStart s = s.
Proof. destruct s as [|c r]; cbn; [reflexivity | now intros ->]. Qed.

Lemma trimEnd_clean s :
  starts_with_white_space s = false -> starts_with_white_space (trimEnd s) = false.
Proof. destruct s as [|c r]; cbn; [reflexivity|]. intros H. now rewrite H. Qed.

Lemma trimEnd_idem s : trimEnd (trimEnd s) = trimEnd s.
Proof.
  induction s as [|c r IH]; [reflexivity|].
  cbn [trimEnd]. destruct (is_white_space c && negb (truthy (trimEnd r))) eqn:E.
  - reflexivity.
  - cbn [trimEnd]. now rewrite IH, E.
Qed.

(** Trimming is idempotent. *)
Lemma trim_idem s : trim (trim s) = trim s.
Proof.
  unfold trim.
  rewrite (trimStart_id (trimEnd (trimStart s))).
  - apply trimEnd_idem.
  - apply trimEnd_clean, trimStart_clean.
Qed.

Lemma transcribeAudio_truthy w t : transcribeAudio w = Some t -> truthy t = true.
Proof.
  unfold transcribeAudio. destruct w as [[x|]|]; try discriminate.
  destruct (truthy x) eqn:E; [|discriminate]. now intros [= <-].
Qed.

Lemma usable_truthy a s : usable a = Some s -> truthy s = true.
Proof.
  unfold usable. destruct a as [x|]; [|discriminate].
  destruct (truthy x) eqn:E; [|discriminate]. now intros [= <-].
Qed.

Lemma messages_step env st effs s st' e :
  well_formed (ttsQueue st) /\ Forall unit_ok (jobs (ttsQueue st))
  /\ Forall well_formed_message (sent effs) ->
  step env st s = Some (st', e) ->
  well_formed (ttsQueue st') /\ Forall unit_ok (jobs (ttsQueue st'))
  /\ Forall well_formed_message (sent (effs ++ e)).
Proof.
  intros (W & J & M) S.
  split; [eapply step_well_formed; eassumption|].
  rewrite sent_app, Forall_app.
  step_inversion S; simpl_fields;
    cbn [sent omap option_bind mbind list_omap app];
    rewrite ?jobs_add by assumption;
    repeat split; auto using Forall_nil.
  all: try (constructor; [|constructor]; cbn [well_formed_message]).
  all: try (eapply transcribeAudio_truthy; eassumption).
  all: try (apply Forall_app; split; [assumption|]; constructor; [|constructor];
            split; cbn [sentence]; [now apply negb_false_iff | apply trim_idem]).
  all: try exact I.
  all: match goal with
       | R : running _ = Some ?u |- _ =>
           rewrite (jobs_settle _ _ R) in J; inversion J as [|? ? Hu Hrest]; subst
       end.
  all: try assumption.
  destruct Hu as [Hu1 Hu2]. repeat split; try assumption.
  eapply usable_truthy; eassumption.
Qed.

(** X13.  Nothing empty goes out in a turn: every audio message carries a
    non-empty audio payload and a non-empty text without white space at
    either end, and every text message carries a non-empty transcription,
    under any schedule and whatever the models answer. *)
Theorem turn_messages_well_formed env sched st effs :
  turn env sched = Some (st, effs) ->
  Forall well_formed_message (sent effs).
Proof.
  unfold turn. intros T.
  destruct (run env sched (fst start)) as [[st0 e0]|] eqn:R; [|discriminate].
  injection T as <- <-.
  change (snd start ++ e0) with ([Send (Status "Processing....")] ++ e0).
  apply (run_invariant env
           (fun st effs =>
              well_formed (ttsQueue st) /\ Forall unit_ok (jobs (ttsQueue st))
              /\ Forall well_formed_message (sent effs)))
    with (pre := [Send (Status "Processing....")]) in R.
  - apply R.
  - intros. eapply messages_step; eassumption.
  - split; [apply well_formed_empty|]. split; [constructor|].
    constructor; [exact I | constructor].
Qed.

Lemma turn_messages_well_formed_witness :
  Forall well_formed_message (sent (snd flaky_final)).
Proof.
  apply (turn_messages_well_formed flaky_synthesis flaky_schedule
           (fst flaky_final) (snd flaky_final)).
  reflexivity.
Defined.

Lemma serve_app env e1 e2 s st :
  serve env (e1 ++ e2) s st =
    match serve env e1 s st with
    | None => None
    | Some (s1, st1) => serve env e2 s1 st1
    end.
Proof.
  revert s st. induction e1 as [|[x|f] e1 IH]; intros s st; cbn [app serve].
  - reflexivity.
  - destruct (step env st x) as [[st' e]|]; [apply IH | reflexivity].
  - apply IH.
Qed.

Lemma apply_all_app s e1 e2 : apply_all (apply_all s e1) e2 = apply_all s (e1 ++ e2).
Proof. unfold apply_all. now rewrite fold_left_app. Qed.

(** With no text frame in between, the listener does what the turn does. *)
Lemma serve_resumes env sched s st :
  serve env (List.map Resume sched) s st =
    match run env sched st with
    | None => None
    | Some (st', effs) => Some (apply_all s effs, st')
    end.
Proof.
  revert s st. induction sched as [|x sched IH]; intros s st; cbn [List.map serve run].
  - reflexivity.
  - destruct (step env st x) as [[st1 e1]|]; [|reflexivity].
    rewrite IH. destruct (run env sched st1) as [[st2 e2]|]; [|reflexivity].
    now rewrite apply_all_app.
Qed.

(** X14.  A clear command that arrives while the reply is being streamed
    or spoken does not stop the turn, and the turn does not notice it: when
    the turn finishes, the history that was emptied holds the assistant's
    reply alone, without the user turn it answers. *)
Theorem clear_during_reply env s sched1 sched2 st1 effs1 s' st' :
  run env sched1 (fst start) = Some (st1, effs1) ->
  phase st1 = Streaming \/ phase st1 = Draining ->
  serve env (List.map Resume sched1 ++ Frame clear :: List.map Resume sched2)
        (fst (onAudioStart s)) (snd (onAudioStart s)) = Some (s', st') ->
  phase st' = Finished ->
  msgHistory s' = [assistant_turn env].
Proof.
  intros R1 Ph1 Sv Fin.
  rewrite serve_app, serve_resumes in Sv. cbn [onAudioStart fst snd] in Sv.
  rewrite R1 in Sv. cbn [serve onTextFrame clear] in Sv.
  change (String.eqb "cmd" "cmd" && String.eqb "clear" "clear") with true in Sv.
  cbn match in Sv. rewrite serve_resumes in Sv.
  destruct (run env sched2 st1) as [[st2 effs2]|] eqn:R2; [|discriminate].
  injection Sv as <- <-.
  rewrite apply_all_history. cbn [msgHistory app].
  assert (run env (sched1 ++ sched2) (fst start) = Some (st2, effs1 ++ effs2)) as R
    by now rewrite run_app, R1, R2.
  destruct (run_from_start _ _ _ _ R1) as [S1 _].
  destruct (run_from_start _ _ _ _ R) as [S2 _].
  unfold stream_inv in S1, S2. rewrite Fin in S2.
  assert (exists t, transcribeAudio (whisper env) = Some t
                    /\ pushed effs1 = [{| role := user; content := t |}])
    as (t & Ht & P1).
  { destruct Ph1 as [E|E]; rewrite E in S1.
    - destruct S1 as (t & seen & Ht & _ & _ & _ & P & _). eauto.
    - destruct S1 as (t & Ht & _ & _ & _ & P & _). eauto. }
  destruct S2 as [(Hn & _)|(t' & pre & Ht' & _ & _ & _ & Pp & _ & E)]; [congruence|].
  assert (pushed (effs1 ++ effs2)
          = [{| role := user; content := t' |};
             {| role := assistant;
                content := join_sentences (sentences (textStream env)) |}]) as P.
  { rewrite E, pushed_app, Pp. reflexivity. }
  rewrite pushed_app, P1 in P. injection P as _ ->.
  unfold assistant_turn. now rewrite join_sentences_concat by apply sentences_truthy.
Qed.

Lemma clear_during_reply_witness :
  msgHistory (fst greeting_cleared) = [assistant_turn greeting].
Proof.
  apply (clear_during_reply greeting handleSession greeting_head greeting_tail
           (fst greeting_at_clear) (snd greeting_at_clear)
           (fst greeting_cleared) (snd greeting_cleared)).
  - reflexivity.
  - left. reflexivity.
  - reflexivity.
  - reflexivity.
Defined.

End SessionFacts.

(** ** useVoiceChat.ts: playback, transcript and the rest of the hook *)
Module HookFacts.
Import JsString VoiceChat Hook ClientFacts.

(** *** Elements play what their items decode to *)
Lemma playFrom_decoded q :
  forall c, Forall decoded (elements c) -> Forall decoded (elements (playFrom q c)).
Proof.
  induction q as [|item rest IH]; intros c H; cbn [playFrom]; [exact H|].
  destruct (decodeItem item) as [b|] eqn:D.
  - cbn. apply Forall_app. split; [exact H|]. constructor; [exact D | constructor].
  - apply IH. exact H.
Qed.

Lemma playNextInQueue_decoded c :
  Forall decoded (elements c) -> Forall decoded (elements (playNextInQueue c)).
Proof.
  unfold playNextInQueue. destruct (isPlaying c || _); [auto|]. apply playFrom_decoded.
Qed.

Lemma onmessage_decoded c d :
  Forall decoded (elements c) -> Forall decoded (elements (onmessage c d)).
Proof.
  intros H. destruct d as [|type t a]; [exact H|].
  destruct (String.eqb type "text") eqn:Nt.
  { cbn [onmessage]. destruct (String.eqb type "status"); [|rewrite Nt].
    - destruct (String.eqb t "ready"); [exact H|].
      destruct (String.eqb t "Speaking..."); [exact H|].
      destruct (String.eqb t "Idle"); exact H.
    - unfold caseAudio. apply playNextInQueue_decoded. exact H. }
  destruct (String.eqb type "audio") eqn:Na.
  { cbn [onmessage]. destruct (String.eqb type "status"); [|rewrite Nt, Na].
    - destruct (String.eqb t "ready"); [exact H|].
      destruct (String.eqb t "Speaking..."); [exact H|].
      destruct (String.eqb t "Idle"); exact H.
    - unfold caseAudio. apply playNextInQueue_decoded. exact H. }
  destruct (onmessage_other c type t a Nt Na) as (_ & _ & He & _ & _).
  now rewrite He.
Qed.

Lemma set_element_decoded url el el' c :
  Forall decoded (elements c) -> elements c !! url = Some el ->
  source el' = source el -> blob el' = blob el ->
  Forall decoded (elements (set_element url el' c)).
Proof.
  intros H L Hs Hb. cbn. apply Forall_insert; [exact H|].
  unfold decoded. rewrite Hs, Hb.
  eapply (proj1 (Forall_lookup _ _) H); exact L.
Qed.

Lemma deliver_decoded c e c' :
  Forall decoded (elements c) -> deliver c e = Some c' -> Forall decoded (elements c').
Proof.
  intros H E.
  destruct e as [d|url|url|url|url]; cbn [deliver] in E;
    [injection E as <-; now apply onmessage_decoded | | | |].
  all: destruct (elements c !! url) as [el|] eqn:L; [|discriminate E]; cbn in E.
  all: match type of E with (if ?b then _ else _) = _ =>
         destruct b; [injection E as <-|discriminate E] end.
  all: unfold revokeUrl, playFailed;
    try apply playNextInQueue_decoded;
    apply (set_element_decoded url el _ c H L); reflexivity.
Qed.

Lemma deliver_all_decoded es :
  forall c c', Forall decoded (elements c) -> deliver_all c es = Some c' ->
               Forall decoded (elements c').
Proof.
  induction es as [|e es IH]; intros c c' H D; cbn in D.
  - now injection D as <-.
  - destruct (deliver c e) as [c1|] eqn:E; [|discriminate D]. cbn in D.
    eapply IH; [|exact D]. eapply deliver_decoded; eassumption.
Qed.

(** X15.  Playback follows arrival, whatever happens to the elements: from
    the opened socket and under any sequence of messages, endings, media
    errors and refused or fulfilled [play()] calls, the chunks that were
    started, followed by the playable chunks that still wait, are the
    playable chunks in the order in which they arrived, each once; and
    every element plays the bytes its own chunk decodes to. *)
Theorem playback_in_arrival_order es c :
  deliver_all opened es = Some c ->
  List.map source (elements c) ++ List.filter playable (audioQueue c)
  = List.filter playable (flat_map enqueued es)
  /\ Forall decoded (elements c).
Proof.
  intros D. split.
  - now rewrite (playback_follows_arrival _ _ _ D).
  - eapply deliver_all_decoded; [|exact D]. constructor.
Qed.

Lemma playback_in_arrival_order_witness :
  List.map source (elements after_two_chunks)
  ++ List.filter playable (audioQueue after_two_chunks)
  = List.filter playable (flat_map enqueued two_chunks)
  /\ Forall decoded (elements after_two_chunks).
Proof. apply (playback_in_arrival_order two_chunks after_two_chunks). reflexivity. Defined.

(** X16.  One chunk at a time: from the opened socket, as long as no
    [play()] is refused, exactly one element is active while the playing
    flag is set and none otherwise; the object URLs not yet revoked are
    those of the active elements; and no chunk waits in the queue while
    nothing plays. *)
Theorem one_chunk_at_a_time es c :
  deliver_all opened es = Some c ->
  forallb benign es = true ->
  length (audible c) = (if isPlaying c then 1 else 0)
  /\ objectURLs c = List.map src (audible c)
  /\ (isPlaying c = false -> audioQueue c = []).
Proof.
  intros D B.
  destruct (single_flight_always _ _ _ single_flight_opened B D) as (_ & Hu & Hp).
  split; [|split; [exact Hu|]].
  - destruct (isPlaying c); [destruct Hp as [el ->] | destruct Hp as [-> _]]; reflexivity.
  - intros E. rewrite E in Hp. apply Hp.
Qed.

Lemma one_chunk_at_a_time_witness :
  length (audible after_two_chunks) = (if isPlaying after_two_chunks then 1 else 0)
  /\ objectURLs after_two_chunks = List.map src (audible after_two_chunks)
  /\ (isPlaying after_two_chunks = false -> audioQueue after_two_chunks = []).
Proof. apply (one_chunk_at_a_time two_chunks after_two_chunks); reflexivity. Defined.

(** X17.  Status messages, error messages, messages of an unknown type and
    messages that do not parse never touch the transcript, the playback
    queue, the audio elements, the playing flag or the object URLs. *)
Theorem control_messages_leave_playback c d :
  control d = true ->
  messages (onmessage c d) = messages c
  /\ audioQueue (onmessage c d) = audioQueue c
  /\ elements (onmessage c d) = elements c
  /\ isPlaying (onmessage c d) = isPlaying c
  /\ objectURLs (onmessage c d) = objectURLs c.
Proof.
  destruct d as [|type t a]; [now cbn|].
  cbn [control]. intros H. apply andb_prop in H as [Ht Ha].
  apply negb_true_iff in Ht, Ha. exact (onmessage_other c type t a Ht Ha).
Qed.

Lemma control_messages_leave_playback_witness :
  messages (onmessage playing_one (Data "status" "Idle" None)) = messages playing_one
  /\ audioQueue (onmessage playing_one (Data "status" "Idle" None)) = audioQueue playing_one
  /\ elements (onmessage playing_one (Data "status" "Idle" None)) = elements playing_one
  /\ isPlaying (onmessage playing_one (Data "status" "Idle" None)) = isPlaying playing_one
  /\ objectURLs (onmessage playing_one (Data "status" "Idle" None)) = objectURLs playing_one.
Proof.
  apply (control_messages_leave_playback playing_one (Data "status" "Idle" None)).
  reflexivity.
Defined.






Lemma set_element_messages url el c : messages (set_element url el c) = messages c.
Proof. reflexivity. Qed.





(** *** [unlockAudio] *)
Lemma audioStep_counts r e :
  (audioContext r = None -> contextsCreated r = 0 /\ resumeCalls r = 0 /\ audioUnlocked r = false) ->
  (audioContext r <> None -> contextsCreated r = 1 /\ resumeCalls r <= 1 /\
                             (resumeCalls r = 1 -> audioUnlocked r = true)) ->
  let r' := audioStep r e in
  (audioContext r' = None -> contextsCreated r' = 0 /\ resumeCalls r' = 0 /\ audioUnlocked r' = false)
  /\ (audioContext r' <> None -> contextsCreated r' = 1 /\ resumeCalls r' <= 1 /\
                                 (resumeCalls r' = 1 -> audioUnlocked r' = true)).
Proof.
  intros H0 H1. destruct r as [u [x|] n k]; cbn in *.
  - destruct (H1 ltac:(discriminate)) as (-> & Hk & Hu).
    destruct e as [fresh|state]; cbn; [destruct u; cbn; [|destruct x; cbn]|];
      (split; [discriminate|]); intros _; repeat split; auto; try lia.
    all: intros E; assert (k = 0) by lia; subst k; try discriminate.
    all: try (apply Hu; lia).
  - destruct (H0 eq_refl) as (-> & -> & ->).
    destruct e as [fresh|state]; cbn; [destruct fresh; cbn|].
    all: split; [try discriminate; auto | intros H; try congruence; repeat split; auto].
Qed.

Lemma unlockAudio_unlocks fresh r : audioUnlocked (unlockAudio fresh r) = true.
Proof. unfold unlockAudio. destruct (audioUnlocked r) eqn:U; [exact U | reflexivity]. Qed.

Lemma unlockAudio_idem fresh fresh' r :
  unlockAudio fresh (unlockAudio fresh' r) = unlockAudio fresh' r.
Proof. unfold unlockAudio at 1. now rewrite unlockAudio_unlocks. Qed.

(** X19.  However often [handleStart] calls [unlockAudio], and whatever the
    host does to the context in between, one [AudioContext] at most is ever
    created and [resume()] is called once at most; a call that follows
    another changes nothing. *)
Theorem unlockAudio_once (es : list AudioEvent) :
  let r := fold_left audioStep es mounted in
  contextsCreated r <= 1
  /\ resumeCalls r <= 1
  /\ (forall fresh fresh',
        unlockAudio fresh (unlockAudio fresh' r) = unlockAudio fresh' r).
Proof.
  cbn zeta.
  assert (forall r,
             (audioContext r = None ->
              contextsCreated r = 0 /\ resumeCalls r = 0 /\ audioUnlocked r = false) ->
             (audioContext r <> None ->
              contextsCreated r = 1 /\ resumeCalls r <= 1 /\
              (resumeCalls r = 1 -> audioUnlocked r = true)) ->
             let r' := fold_left audioStep es r in
             contextsCreated r' <= 1 /\ resumeCalls r' <= 1) as Inv.
  { induction es as [|e es IH]; intros r H0 H1; cbn [fold_left].
    - cbn zeta. destruct (audioContext r) as [x|].
      + destruct (H1 ltac:(discriminate)) as (-> & ? & _). lia.
      + destruct (H0 eq_refl) as (-> & -> & _). lia.
    - destruct (audioStep_counts r e H0 H1) as [K0 K1]. now apply IH. }
  destruct (Inv mounted) as [C R].
  - cbn. auto.
  - cbn. congruence.
  - repeat split; [exact C | exact R |].
    intros fresh fresh'. apply unlockAudio_idem.
Qed.

(** *** [handleChatClear] *)

Lemma deliver_transcript c e c' :
  deliver c e = Some c' -> messages c' = transcribed e (messages c).
Proof.
  intros E.
  destruct e as [d|url|url|url|url]; cbn [deliver transcribed] in *.
  - injection E as <-. destruct d as [|type t a]; [reflexivity|].
    destruct (String.eqb type "text") eqn:Nt.
    { apply String.eqb_eq in Nt. subst type.
      cbn [onmessage String.eqb Ascii.eqb Bool.eqb]. unfold caseAudio.
      now rewrite playNextInQueue_messages. }
    destruct (String.eqb type "audio") eqn:Na.
    + apply String.eqb_eq in Na. subst type.
      cbn [onmessage String.eqb Ascii.eqb Bool.eqb]. unfold caseAudio.
      now rewrite playNextInQueue_messages.
    + now destruct (onmessage_other c type t a Nt Na) as (-> & _).
  - destruct (elements c !! url) as [el|]; [|discriminate E]. cbn in E.
    destruct (playPending el && active el); [injection E as <-|discriminate E].
    reflexivity.
  - destruct (elements c !! url) as [el|]; [|discriminate E]. cbn in E.
    destruct (playPending el); [injection E as <-|discriminate E].
    unfold playFailed. now rewrite playNextInQueue_messages.
  - destruct (elements c !! url) as [el|]; [|discriminate E]. cbn in E.
    destruct (active el && negb (playPending el)); [injection E as <-|discriminate E].
    unfold revokeUrl. now rewrite playNextInQueue_messages.
  - destruct (elements c !! url) as [el|]; [|discriminate E]. cbn in E.
    destruct (active el); [injection E as <-|discriminate E].
    unfold revokeUrl. now rewrite playNextInQueue_messages.
Qed.

Lemma deliver_all_transcript es :
  forall c c',
    deliver_all c es = Some c' ->
    messages c' = fold_left (fun prev e => transcribed e prev) es (messages c).
Proof.
  induction es as [|e es IH]; intros c c' D; cbn in D.
  - now injection D as <-.
  - destruct (deliver c e) as [c1|] eqn:E; [|discriminate D]. cbn in D.
    cbn [fold_left]. rewrite <- (deliver_transcript _ _ _ E). now apply IH.
Qed.

(** X20.  Clearing the chat empties the two transcripts and nothing else.
    Over an open socket the command empties the server's history.  On the
    client, whatever arrives after the acknowledgement (transcript
    messages, speech chunks, status messages, playback events), the
    transcript holds what those later events put into it and nothing from
    before the clear; and the chunks that were queued or playing when the
    chat was cleared are still played, in order, before the later ones. *)
Theorem handleChatClear_round_trip (c c' : Client) (s : VoiceAi.Session) (es : list Event) :
  deliver_all (fst (handleChatClear true c))
              (Receive (wire (VoiceAi.Status "Chat cleared")) :: es) = Some c' ->
  VoiceAi.msgHistory (fold_left VoiceAi.onTextFrame (snd (handleChatClear true c)) s) = []
  /\ messages c' = fold_left (fun prev e => transcribed e prev) es []
  /\ List.map source (elements c') ++ List.filter playable (audioQueue c')
     = (List.map source (elements c) ++ List.filter playable (audioQueue c))
       ++ List.filter playable (flat_map enqueued es).
Proof.
  intros D. split; [reflexivity|]. split.
  - rewrite (deliver_all_transcript _ _ _ D). reflexivity.
  - rewrite (playback_follows_arrival _ _ _ D). reflexivity.
Qed.

Lemma handleChatClear_round_trip_witness :
  VoiceAi.msgHistory
    (fold_left VoiceAi.onTextFrame (snd (handleChatClear true playing_one))
               (fst VoiceAi.greeting_session)) = []
  /\ messages cleared_then_chunk
     = fold_left (fun prev e => transcribed e prev) after_clear []
  /\ List.map source (elements cleared_then_chunk)
     ++ List.filter playable (audioQueue cleared_then_chunk)
     = (List.map source (elements playing_one)
        ++ List.filter playable (audioQueue playing_one))
       ++ List.filter playable (flat_map enqueued after_clear).
Proof.
  apply (handleChatClear_round_trip playing_one cleared_then_chunk
           (fst VoiceAi.greeting_session) after_clear).
  reflexivity.
Defined.

End HookFacts.
